(** * Object memory core of the Rubinius VM: a shallow embedding

    The development follows [vm/object_memory.cpp] (with the shared state
    and the metrics emitters that come with it), [vm/gc/immix.cpp] and
    [vm/environment.cpp].  Part I holds the embedding (one module per
    component of the source), Part II the theorems about it.

    Conventions.
    - A machine integer is a [Z] with its wrap-around written out
      ([to_ulong], [to_uint32], [to_long]).
    - [Object*] is an address in [Z]; [NULL] is [None].
    - A [std::string] and a C string are lists of characters.
    - Collaborators whose code is outside these files (the three collectors,
      the world coordinator, the header word's layout) are either parameters
      of the embedding or modelled from the specification; each such
      definition says so. *)

From Stdlib Require Import ZArith Floats Uint63 Ascii.
From stdpp Require Import base tactics option list gmap sorting strings.

Local Open Scope Z_scope.

(* ===================================================================== *)
(** * Part I: the embedding                                               *)
(* ===================================================================== *)

(** ** Machine integers *)

Module Machine.

(** [size_t] and [unsigned long]: 64 bits, unsigned. *)
Definition to_ulong (z : Z) : Z := z mod 2 ^ 64.

(** [uint32_t]: 32 bits, unsigned. *)
Definition to_uint32 (z : Z) : Z := z mod 2 ^ 32.

(** [long]: 64 bits, two's complement. *)
Definition to_long (z : Z) : Z :=
  let u := z mod 2 ^ 64 in
  if u <? 2 ^ 63 then u else u - 2 ^ 64.

(** [(double)n] for a counter that fits 63 bits. *)
Definition to_double (n : Z) : float := PrimFloat.of_uint63 (Uint63.of_Z n).

End Machine.

(** ** Raw allocation accounting: [XMALLOC], [XREALLOC], [XCALLOC] *)

Module Malloc.
Import Machine.

(** The two file-level statics of [object_memory.cpp] and the part of the
    current VM that [run_gc_soon] touches. *)
Record Globals := mkGlobals {
  gc_malloc_threshold : Z;        (* static long *)
  bytes_until_collection : Z;     (* static long *)
  collect_mature_now : bool;
  run_gc_soon_calls : nat         (* how often run_gc_soon() has been called *)
}.

(** Modelled from the spec: [VM::run_gc_soon] is not among the sources.  The
    specification says of the raw-allocation counter that ``when [it] goes
    non-positive, it sets collect_mature so that the next safepoint triggers
    a mature collection''.  The call itself is counted. *)
Definition run_gc_soon (g : Globals) : Globals :=
  mkGlobals (gc_malloc_threshold g) (bytes_until_collection g) true
            (S (run_gc_soon_calls g)).

(** [bytes_until_collection -= bytes]: a [long] minus a [size_t] is computed
    in [unsigned long] and converted back. *)
Definition decrement (counter bytes : Z) : Z :=
  to_long (to_ulong counter - to_ulong bytes).

(** The body shared by the three entry points:
<<
  bytes_until_collection -= bytes;
  if(bytes_until_collection <= 0) {
    rubinius::VM::current()->run_gc_soon();
    bytes_until_collection = gc_malloc_threshold;
  }
>> *)
Definition account (g : Globals) (bytes : Z) : Globals :=
  let g1 := mkGlobals (gc_malloc_threshold g)
                      (decrement (bytes_until_collection g) bytes)
                      (collect_mature_now g) (run_gc_soon_calls g) in
  if bytes_until_collection g1 <=? 0 then
    let g2 := run_gc_soon g1 in
    mkGlobals (gc_malloc_threshold g2) (gc_malloc_threshold g2)
              (collect_mature_now g2) (run_gc_soon_calls g2)
  else g1.

Definition XMALLOC (g : Globals) (bytes : Z) : Globals := account g bytes.

Definition XREALLOC (g : Globals) (bytes : Z) : Globals := account g bytes.

(** [size_t bytes = bytes_per * items;] *)
Definition XCALLOC (g : Globals) (items bytes_per : Z) : Globals :=
  account g (to_ulong (bytes_per * items)).

(** A call of one of the three entry points. *)
Inductive Call :=
| CallMalloc (bytes : Z)
| CallRealloc (bytes : Z)
| CallCalloc (items bytes_per : Z).

(** The byte count a call asks for, as the entry point computes it. *)
Definition requested (c : Call) : Z :=
  match c with
  | CallMalloc bytes => bytes
  | CallRealloc bytes => bytes
  | CallCalloc items bytes_per => to_ulong (bytes_per * items)
  end.

Definition call (g : Globals) (c : Call) : Globals :=
  match c with
  | CallMalloc bytes => XMALLOC g bytes
  | CallRealloc bytes => XREALLOC g bytes
  | CallCalloc items bytes_per => XCALLOC g items bytes_per
  end.

(** A foreign library's sequence of calls. *)
Definition calls (g : Globals) (cs : list Call) : Globals := foldl call g cs.

End Malloc.

(** ** The Immix sweep phase: [ImmixGC::sweep] *)

Module Immix.
Import Machine.

(** What the sweep reads off an [immix::Block]. *)
Record Block := mkBlock {
  holes : Z;
  objects : Z;
  object_bytes : Z
}.

(** A chunk is its blocks; [immix::Chunks] is the list of chunks. *)
Definition Chunk := list Block.

Record Diagnostics := mkDiagnostics {
  collections_ : Z;
  chunks_ : Z;
  holes_ : Z;
  objects_ : Z;
  bytes_ : Z;
  total_bytes_ : Z;
  percentage_ : float
}.

(** [Diagnostics(diagnostics_.collections_)]: every counter but the number of
    collections starts from zero. *)
Definition fresh_diagnostics (collections : Z) : Diagnostics :=
  mkDiagnostics collections 0 0 0 0 0 0%float.

Record ImmixGC := mkImmixGC {
  chunks : list Chunk;
  diagnostics_ : Diagnostics
}.

(** [immix::AllBlockIterator]: every block of every chunk, in order. *)
Definition all_blocks (cs : list Chunk) : list Block := concat cs.

(** One turn of the [while(immix::Block* block = iter.next())] loop. *)
Definition count_block (cBlockSize : Z) (d : Diagnostics) (b : Block) : Diagnostics :=
  mkDiagnostics (collections_ d) (chunks_ d)
                (holes_ d + holes b)
                (objects_ d + objects b)
                (bytes_ d + object_bytes b)
                (total_bytes_ d + cBlockSize)
                (percentage_ d).

(** The literal [0.90] of the source: the binary64 value nearest to 9/10. *)
Definition ninety_percent : float := 0x1.ccccccccccccdp-1%float.

(** [if(diagnostics_.percentage_ >= 0.90)] *)
Definition wants_chunk (d : Diagnostics) : bool :=
  PrimFloat.leb ninety_percent (percentage_ d).

(** The block of [ImmixGC::sweep] that rebuilds [diagnostics_] from the
    chunks [cs]; [collections] is [diagnostics_.collections_] before. *)
Definition measure (cBlockSize : Z) (collections : Z) (cs : list Chunk) : Diagnostics :=
  let d0 := fresh_diagnostics collections in
  let d1 := mkDiagnostics (collections_ d0) (Z.of_nat (length cs)) (holes_ d0)
                          (objects_ d0) (bytes_ d0) (total_bytes_ d0)
                          (percentage_ d0) in
  let d2 := foldl (count_block cBlockSize) d1 (all_blocks cs) in
  let d3 := mkDiagnostics (collections_ d2) (chunks_ d2) (holes_ d2) (objects_ d2)
                          (bytes_ d2) (total_bytes_ d2)
                          (to_double (bytes_ d2) / to_double (total_bytes_ d2))%float in
  mkDiagnostics (collections_ d3 + 1) (chunks_ d3) (holes_ d3)
                (objects_ d3) (bytes_ d3) (total_bytes_ d3) (percentage_ d3).

(** [ImmixGC::sweep].  [cBlockSize] is the constant of [immix.hpp], which is
    not among the sources; [sweep_blocks] stands for [gc_.copy_marks()],
    [gc_.sweep_blocks()] and [allocator_.get_new_block()], which work on the
    blocks before they are counted; [new_chunk] is what
    [block_allocator().add_chunk()] appends. *)
Definition sweep (cBlockSize : Z) (sweep_blocks : list Chunk → list Chunk)
    (new_chunk : Chunk) (gc : ImmixGC) : ImmixGC :=
  let cs := sweep_blocks (chunks gc) in
  let d := measure cBlockSize (collections_ (diagnostics_ gc)) cs in
  if wants_chunk d then mkImmixGC (cs ++ [new_chunk]) d
  else mkImmixGC cs d.

(** Whether a sweep asked the block allocator for one more chunk. *)
Definition chunk_added (cBlockSize : Z) (sweep_blocks : list Chunk → list Chunk)
    (new_chunk : Chunk) (gc : ImmixGC) : bool :=
  (length (sweep_blocks (chunks gc)) <?
   length (chunks (sweep cBlockSize sweep_blocks new_chunk gc)))%nat.

(** The live fraction in exact arithmetic: live object bytes over block
    bytes exceeds 9/10. *)
Definition exceeds_ninety_percent (bytes total : Z) : Prop :=
  9 * total < 10 * bytes.

(** Ten blocks of 32 KiB, nine tenths of whose bytes are live. *)
Definition nine_tenths_heap : ImmixGC :=
  mkImmixGC [replicate 8 (mkBlock 1 100 29491) ++ replicate 2 (mkBlock 1 100 29492)]
            (fresh_diagnostics 0).

End Immix.

(** ** Object identity: [ObjectMemory::assign_object_id] *)

Module Identity.
Import Machine.

(** The part of [ObjectMemory] the function touches, and the identities the
    objects' headers hold. *)
Record ObjectMemory := mkObjectMemory {
  last_object_id : Z;          (* size_t; the constructor starts it at 1 *)
  object_ids : gmap Z Z        (* object address ↦ the id its header holds *)
}.

(** Modelled from the spec: [ObjectHeader::object_id] ([vm/oop.hpp]) is not
    among the sources.  An object whose header has no identity (meaning
    Empty, aux = 0) has id 0. *)
Definition object_id (om : ObjectMemory) (obj : Z) : Z :=
  default 0 (object_ids om !! obj).

(** The state [ObjectMemory::ObjectMemory] builds: [last_object_id(1)], and
    no object has an identity yet. *)
Definition initial : ObjectMemory := mkObjectMemory 1 ∅.

(** No identity in the heap has reached the counter yet. *)
Definition ids_below_counter (om : ObjectMemory) : Prop :=
  ∀ obj, object_id om obj < last_object_id om.

Section Width.

(** The number of bits an object keeps of an id.  The counter is a [size_t],
    and what an object holds is narrower: the specification gives the header
    ``a 2-bit meaning field and a 62-bit auxiliary word'', and
    [inflate_for_id] takes the id as a [uint32_t].  The declaration
    ([vm/oop.hpp]) is not among the sources, so the embedding is over any
    width. *)
Context (id_bits : Z).

(** The conversion of the counter's value to what the object holds. *)
Definition to_id (z : Z) : Z := z mod 2 ^ id_bits.

(** Modelled from the spec: [ObjectHeader::set_object_id] ([vm/oop.hpp]) is
    not among the sources.  The header takes the Identity meaning with the
    id as its auxiliary word (directly or, after inflation, in the side
    record), so that [object_id] reads back what of the id the object
    holds. *)
Definition set_object_id (om : ObjectMemory) (obj id : Z) : ObjectMemory :=
  mkObjectMemory (last_object_id om) (<[obj := to_id id]> (object_ids om)).

(** [atomic::fetch_and_add(&last_object_id, (size_t)1)]: the old value, and
    the counter one further. *)
Definition fetch_and_add_last_object_id (om : ObjectMemory) : Z * ObjectMemory :=
  (last_object_id om,
   mkObjectMemory (to_ulong (last_object_id om + 1)) (object_ids om)).

(** [ObjectMemory::assign_object_id] *)
Definition assign_object_id (om : ObjectMemory) (obj : Z) : ObjectMemory :=
  if 0 <? object_id om obj then om
  else
    let '(id, om1) := fetch_and_add_last_object_id om in
    set_object_id om1 obj id.

(** A run of [assign_object_id] over the objects of [objs], in order,
    together with the record of the first assignments it made: the object
    and the id it received, oldest first. *)
Fixpoint assign_object_ids (om : ObjectMemory) (objs : list Z)
    : ObjectMemory * list (Z * Z) :=
  match objs with
  | [] => (om, [])
  | obj :: rest =>
      let om1 := assign_object_id om obj in
      let '(om2, log) := assign_object_ids om1 rest in
      (om2, if 0 <? object_id om obj then log
            else (obj, to_id (last_object_id om)) :: log)
  end.

End Width.

End Identity.

(** ** The allocator facade and the collection driver *)

Module Facade.
Import Machine.

(** The three collectors, as far as the facade uses them.  Their code
    ([gc/baker.hpp], [gc/immix.hpp], [gc/mark_sweep.cpp]) is not among the
    sources, so the facade is embedded over any collectors with these
    operations.  An operation that takes a [bool*] to one of the facade's
    flags gets the flag's value and returns the new one. *)
Class Collectors (Young Immix MarkSweep : Type) := {
  (* young_->allocate(bytes, &collect_young_now) *)
  young_allocate : Young → Z → bool → option Z * Young * bool;
  (* immix_->allocate(bytes), whose parameter is a uint32_t; the boolean
     tells whether the allocator called the describer's last_block() *)
  immix_allocate : Immix → Z → option Z * Immix * bool;
  (* mark_sweep_->allocate(bytes, &collect_mature_now) *)
  mark_sweep_allocate : MarkSweep → Z → bool → option Z * MarkSweep * bool;
  (* young_->collect(data); promotion goes through promote_object, which
     hands &collect_mature_now to mark_sweep_->move_object *)
  young_collect :
    Young * Immix * MarkSweep → bool → Young * Immix * MarkSweep * bool;
  (* immix_->collect(data) *)
  immix_collect : Young * Immix * MarkSweep → Young * Immix * MarkSweep;
  (* immix_->start_marker(state); immix_->collect_start(data) *)
  immix_collect_start : Young * Immix * MarkSweep → Young * Immix * MarkSweep;
  (* collect_mature_finish's work on the heap: immix_->collect_finish,
     mark_sweep_->after_marked, deallocate_headers, immix_->sweep, rotate_mark *)
  mature_finish : Young * Immix * MarkSweep → Young * Immix * MarkSweep
}.

(** [metrics().memory] and [metrics().gc], the counters that are touched;
    each is a [uint64_t]. *)
Record Metrics := mkMetrics {
  young_objects : Z;
  young_bytes : Z;
  immix_objects : Z;
  immix_bytes : Z;
  young_count : Z;
  immix_count : Z;
  large_count : Z
}.

(** What the driver does to the rest of the VM, in the order it does it. *)
Inductive Event :=
| StopTheWorld (stopped : bool)   (* state->stop_the_world() and its answer *)
| Checkpoint                      (* state->checkpoint(gct, call_frame) *)
| StartCollection                 (* finalizer_handler()->start_collection *)
| CollectYoung                    (* young_->collect(data) *)
| CollectMature                   (* immix_->collect(data) *)
| CollectMatureStart              (* immix_->start_marker, collect_start *)
| CollectMatureFinish             (* collect_mature_finish *)
| FinishCollection                (* finalizer_handler()->finish_collection *)
| RestartWorld.                   (* state->restart_world() *)

#[global] Instance Event_eq_dec : EqDecision Event.
Proof. solve_decision. Defined.

Section Facade.
Context {Young Immix MarkSweep : Type}.
Context `{GC : Collectors Young Immix MarkSweep}.

Record ObjectMemory := mkObjectMemory {
  young_ : Young;
  immix_ : Immix;
  mark_sweep_ : MarkSweep;
  allow_gc_ : bool;
  mature_mark_concurrent_ : bool;
  mature_gc_in_progress_ : bool;
  collect_young_now : bool;
  collect_mature_now : bool;
  large_object_threshold : Z;          (* size_t *)
  check_gc_ : bool;                    (* raised by shared_.gc_soon() *)
  metrics : Metrics;
  events : list Event                  (* oldest first *)
}.

Definition set_heap (h : Young * Immix * MarkSweep) (om : ObjectMemory) :=
  mkObjectMemory h.1.1 h.1.2 h.2 (allow_gc_ om) (mature_mark_concurrent_ om)
    (mature_gc_in_progress_ om) (collect_young_now om) (collect_mature_now om)
    (large_object_threshold om) (check_gc_ om) (metrics om) (events om).

Definition heap (om : ObjectMemory) : Young * Immix * MarkSweep :=
  (young_ om, immix_ om, mark_sweep_ om).

Definition set_young (y : Young) (om : ObjectMemory) :=
  set_heap (y, immix_ om, mark_sweep_ om) om.

Definition set_immix (i : Immix) (om : ObjectMemory) :=
  set_heap (young_ om, i, mark_sweep_ om) om.

Definition set_mark_sweep (m : MarkSweep) (om : ObjectMemory) :=
  set_heap (young_ om, immix_ om, m) om.

Definition set_mature_gc_in_progress (b : bool) (om : ObjectMemory) :=
  mkObjectMemory (young_ om) (immix_ om) (mark_sweep_ om) (allow_gc_ om)
    (mature_mark_concurrent_ om) b (collect_young_now om) (collect_mature_now om)
    (large_object_threshold om) (check_gc_ om) (metrics om) (events om).

Definition set_collect_young_now (b : bool) (om : ObjectMemory) :=
  mkObjectMemory (young_ om) (immix_ om) (mark_sweep_ om) (allow_gc_ om)
    (mature_mark_concurrent_ om) (mature_gc_in_progress_ om) b (collect_mature_now om)
    (large_object_threshold om) (check_gc_ om) (metrics om) (events om).

Definition set_collect_mature_now (b : bool) (om : ObjectMemory) :=
  mkObjectMemory (young_ om) (immix_ om) (mark_sweep_ om) (allow_gc_ om)
    (mature_mark_concurrent_ om) (mature_gc_in_progress_ om) (collect_young_now om) b
    (large_object_threshold om) (check_gc_ om) (metrics om) (events om).

Definition set_metrics (m : Metrics) (om : ObjectMemory) :=
  mkObjectMemory (young_ om) (immix_ om) (mark_sweep_ om) (allow_gc_ om)
    (mature_mark_concurrent_ om) (mature_gc_in_progress_ om) (collect_young_now om)
    (collect_mature_now om) (large_object_threshold om) (check_gc_ om) m (events om).

(** [shared_.gc_soon()] *)
Definition gc_soon (om : ObjectMemory) :=
  mkObjectMemory (young_ om) (immix_ om) (mark_sweep_ om) (allow_gc_ om)
    (mature_mark_concurrent_ om) (mature_gc_in_progress_ om) (collect_young_now om)
    (collect_mature_now om) (large_object_threshold om) true (metrics om) (events om).

Definition emit (e : Event) (om : ObjectMemory) :=
  mkObjectMemory (young_ om) (immix_ om) (mark_sweep_ om) (allow_gc_ om)
    (mature_mark_concurrent_ om) (mature_gc_in_progress_ om) (collect_young_now om)
    (collect_mature_now om) (large_object_threshold om) (check_gc_ om) (metrics om)
    (events om ++ [e]).

(** [immix_objects++; immix_bytes += bytes] *)
Definition count_immix (bytes : Z) (om : ObjectMemory) :=
  let m := metrics om in
  set_metrics (mkMetrics (young_objects m) (young_bytes m)
                 (to_ulong (immix_objects m + 1)) (to_ulong (immix_bytes m + bytes))
                 (young_count m) (immix_count m) (large_count m)) om.

(** [young_objects++; young_bytes += bytes] *)
Definition count_young (bytes : Z) (om : ObjectMemory) :=
  let m := metrics om in
  set_metrics (mkMetrics (to_ulong (young_objects m + 1)) (to_ulong (young_bytes m + bytes))
                 (immix_objects m) (immix_bytes m)
                 (young_count m) (immix_count m) (large_count m)) om.

(** The calls on the collectors, each storing the collector's new state
    and the flag it was handed. *)
Definition call_young_allocate (bytes : Z) (om : ObjectMemory) : option Z * ObjectMemory :=
  let '(obj, y, flag) := young_allocate (young_ om) bytes (collect_young_now om) in
  (obj, set_collect_young_now flag (set_young y om)).

(** [ImmixGC::ObjectDescriber::last_block] ([gc/immix.cpp]):
    [object_memory_->collect_mature_now = true]. *)
Definition last_block (om : ObjectMemory) : ObjectMemory :=
  set_collect_mature_now true om.

(** [immix_->allocate(bytes)]: [ImmixGC::allocate(uint32_t bytes)] gets the
    low 32 bits of the [size_t], and the allocator may call [last_block]. *)
Definition call_immix_allocate (bytes : Z) (om : ObjectMemory) : option Z * ObjectMemory :=
  let '(obj, i, last) := immix_allocate (immix_ om) (to_uint32 bytes) in
  (obj, if last then last_block (set_immix i om) else set_immix i om).

Definition call_mark_sweep_allocate (bytes : Z) (om : ObjectMemory) : option Z * ObjectMemory :=
  let '(obj, m, flag) := mark_sweep_allocate (mark_sweep_ om) bytes (collect_mature_now om) in
  (obj, set_collect_mature_now flag (set_mark_sweep m om)).

(** [if(collect_mature_now) shared_.gc_soon();] *)
Definition gc_soon_if_mature (om : ObjectMemory) : ObjectMemory :=
  if collect_mature_now om then gc_soon om else om.

(** [ObjectMemory::allocate_object] *)
Definition allocate_object (om : ObjectMemory) (bytes : Z) : option Z * ObjectMemory :=
  if large_object_threshold om <? bytes then
    let '(obj, om) := call_mark_sweep_allocate bytes om in
    match obj with
    | None => (None, om)
    | Some _ => (obj, gc_soon_if_mature (count_immix bytes om))
    end
  else
    let '(obj, om) := call_young_allocate bytes om in
    match obj with
    | None =>
        let om := gc_soon (set_collect_young_now true om) in
        let '(obj, om) := call_immix_allocate bytes om in
        let '(obj, om) :=
          match obj with
          | None => call_mark_sweep_allocate bytes om
          | Some _ => (obj, om)
          end in
        (obj, gc_soon_if_mature (count_immix bytes om))
    | Some _ => (obj, count_young bytes om)
    end.

(** [ObjectMemory::allocate_object_mature] *)
Definition allocate_object_mature (om : ObjectMemory) (bytes : Z) : option Z * ObjectMemory :=
  if large_object_threshold om <? bytes then
    let '(obj, om) := call_mark_sweep_allocate bytes om in
    match obj with
    | None => (None, om)
    | Some _ => (obj, gc_soon_if_mature om)
    end
  else
    let '(obj, om) := call_immix_allocate bytes om in
    let '(obj, om) :=
      match obj with
      | None => call_mark_sweep_allocate bytes om
      | Some _ => (obj, om)
      end in
    (obj, gc_soon_if_mature (count_immix bytes om)).

(** [ObjectMemory::collect_young], without [RBX_GC_STRESS_YOUNG]. *)
Definition collect_young (om : ObjectMemory) : ObjectMemory :=
  let om := set_collect_young_now false om in
  let '(h, flag) := young_collect (heap om) (collect_mature_now om) in
  let om := emit CollectYoung (set_collect_mature_now flag (set_heap h om)) in
  let m := metrics om in
  let om := set_metrics (mkMetrics (young_objects m) (young_bytes m)
                           (immix_objects m) (immix_bytes m)
                           (to_ulong (young_count m + 1)) (immix_count m)
                           (large_count m)) om in
  emit FinishCollection om.

(** [ObjectMemory::collect_mature], without [RBX_GC_STRESS_MATURE]. *)
Definition collect_mature (om : ObjectMemory) : ObjectMemory :=
  let om := set_collect_mature_now false om in
  if mature_gc_in_progress_ om then om
  else if mature_mark_concurrent_ om then
    set_mature_gc_in_progress true
      (emit CollectMatureStart (set_heap (immix_collect_start (heap om)) om))
  else emit CollectMature (set_heap (immix_collect (heap om)) om).

(** [ObjectMemory::collect_mature_finish] *)
Definition collect_mature_finish (om : ObjectMemory) : ObjectMemory :=
  let om := emit CollectMatureFinish (set_heap (mature_finish (heap om)) om) in
  let m := metrics om in
  let om := set_metrics (mkMetrics (young_objects m) (young_bytes m)
                           (immix_objects m) (immix_bytes m) (young_count m)
                           (to_ulong (immix_count m + 1))
                           (to_ulong (large_count m + 1))) om in
  emit FinishCollection om.

(** Neither flag is up: [!collect_young_now && !collect_mature_now]. *)
Definition nothing_pending (om : ObjectMemory) : bool :=
  negb (collect_young_now om) && negb (collect_mature_now om).

(** The part of [collect_maybe] that runs once the world is stopped. *)
Definition collect_stopped (om : ObjectMemory) : ObjectMemory :=
  let om := emit StartCollection om in
  let om := if collect_young_now om then collect_young om else om in
  let om :=
    if collect_mature_now om then
      let om := collect_mature om in
      if mature_mark_concurrent_ om then om else collect_mature_finish om
    else om in
  emit RestartWorld om.

(** One failed attempt to stop the world, and the checkpoint that follows
    it, which returns when the peer driver is done. *)
Definition failed_attempt (om : ObjectMemory) (peer : ObjectMemory → ObjectMemory)
    : ObjectMemory :=
  emit Checkpoint (peer (emit (StopTheWorld false) om)).

(** The loop
<<
  while(!state->stop_the_world()) {
    state->checkpoint(gct, call_frame);
    if(!collect_young_now && !collect_mature_now) return;
  }
>>
    [stop_the_world] fails while another thread is the driver; the
    checkpoint then blocks until that driver has restarted the world.
    [peers] lists, for each failed attempt, what the peer did to the object
    memory meanwhile; after the last of them the world is stopped. *)
Fixpoint stop_and_collect (peers : list (ObjectMemory → ObjectMemory))
    (om : ObjectMemory) : ObjectMemory :=
  match peers with
  | [] => collect_stopped (emit (StopTheWorld true) om)
  | peer :: peers =>
      let om := failed_attempt om peer in
      if nothing_pending om then om else stop_and_collect peers om
  end.

(** [ObjectMemory::collect_maybe]; [can_gc()] reads [allow_gc_]. *)
Definition collect_maybe (peers : list (ObjectMemory → ObjectMemory))
    (om : ObjectMemory) : ObjectMemory :=
  if negb (allow_gc_ om) then om
  else if nothing_pending om then om
  else stop_and_collect peers om.

End Facade.

Arguments ObjectMemory : clear implicits.

(** Collectors for running the facade on a concrete input: each is the number
    of bytes it has left, an allocation returns the address [bytes] (any
    non-null address would do) and fails when the room is used up, Immix
    reaches its last block when nothing is left, and the collections are the
    identity. *)
#[global] Instance room_collectors : Collectors Z Z Z := {|
  young_allocate y bytes flag :=
    if bytes <=? y then (Some bytes, y - bytes, flag) else (None, y, flag);
  immix_allocate i bytes :=
    if bytes <=? i then (Some bytes, i - bytes, i - bytes =? 0) else (None, i, false);
  mark_sweep_allocate m bytes flag :=
    if bytes <=? m then (Some bytes, m - bytes, flag) else (None, m, true);
  young_collect h flag := (h, flag);
  immix_collect h := h;
  immix_collect_start h := h;
  mature_finish h := h
|}.

Definition zero_metrics : Metrics := mkMetrics 0 0 0 0 0 0 0.

(** A facade over [room_collectors] with a pending young collection. *)
Definition pending_young : ObjectMemory Z Z Z :=
  mkObjectMemory 0 100 100 true false false true false 4096 true zero_metrics [].

(** A facade over [room_collectors] that marks concurrently, with a mature
    collection asked for. *)
Definition pending_mature : ObjectMemory Z Z Z :=
  mkObjectMemory 0 100 100 true true false false true 4096 true zero_metrics [].

(** What a peer driver's collection does to the flags. *)
Definition peer_collects (om : ObjectMemory Z Z Z) : ObjectMemory Z Z Z :=
  set_collect_mature_now false (set_collect_young_now false om).

End Facade.

(** ** The header word and its inflation *)

Module Header.
Import Machine.

(** *** Data *)

(** The meanings of the auxiliary word, as [object_memory.cpp] names them. *)
Inductive AuxWordMeaning :=
| eAuxWordEmpty
| eAuxWordObjID
| eAuxWordLock
| eAuxWordHandle
| eAuxWordInflated.

#[global] Instance AuxWordMeaning_eq_dec : EqDecision AuxWordMeaning.
Proof. solve_decision. Defined.

(** Modelled from the spec: the declaration of [HeaderWord] ([vm/oop.hpp]) is
    not among the sources.  The functions of [object_memory.cpp] read and
    write [f.meaning], [f.aux_word] and [f.LockContended]; the bits they
    never name (type, zone, age, the collectors' marks) are [other_bits].
    The header is compared and swapped as one word. *)
Record HeaderWord := mkHeaderWord {
  meaning : AuxWordMeaning;
  aux_word : Z;                 (* uint32_t *)
  LockContended : bool;
  other_bits : Z
}.

#[global] Instance HeaderWord_eq_dec : EqDecision HeaderWord.
Proof. solve_decision. Defined.

Definition set_meaning (x : AuxWordMeaning) (h : HeaderWord) : HeaderWord :=
  mkHeaderWord x (aux_word h) (LockContended h) (other_bits h).

Definition set_aux_word (a : Z) (h : HeaderWord) : HeaderWord :=
  mkHeaderWord (meaning h) a (LockContended h) (other_bits h).

Definition set_LockContended (b : bool) (h : HeaderWord) : HeaderWord :=
  mkHeaderWord (meaning h) (aux_word h) b (other_bits h).

Definition inflated (h : HeaderWord) : bool :=
  bool_decide (meaning h = eAuxWordInflated).

(** [LockStatus], the values [contend_for_lock] returns or passes on. *)
Inductive LockStatus :=
| eUnlocked
| eLocked
| eLockTimeout
| eLockInterrupted
| eLockError.

#[global] Instance LockStatus_eq_dec : EqDecision LockStatus.
Proof. solve_decision. Defined.

(** Modelled from the spec: the declaration of [InflatedHeader]
    ([vm/gc/inflated_headers.hpp]) is not among the sources.  The
    specification lists what a side record holds: the original id (or 0),
    the foreign-handle pointer (or null, here 0), a recursive mutex with
    owner and recursion count, and the mark of the current collection. *)
Record InflatedHeader := mkInflatedHeader {
  object_id_ : Z;
  handle_ : Z;
  owner_id_ : Z;
  rec_lock_count_ : Z;
  mark_ : Z
}.

(** What [vm/oop.hpp] declares and the sources do not show: the two
    constants that lay a thin lock out in the auxiliary word, and the
    inflated mutex's lock operation ([lock_mutex], [lock_mutex_timed]),
    which [contend_for_lock] ends with. *)
Class Oop := {
  cAuxLockTIDShift : Z;
  cAuxLockRecCountMask : Z;
  lock_mutex :
    Z → bool → bool → InflatedHeader → LockStatus * InflatedHeader
}.

(** Modelled from the spec: [InflatedHeader::clear]; a cleared record holds
    nothing. *)
Definition clear (ih : InflatedHeader) : InflatedHeader :=
  mkInflatedHeader 0 0 0 0 0.

(** Modelled from the spec: [InflatedHeader::set_object_id]. *)
Definition set_object_id (id : Z) (ih : InflatedHeader) : InflatedHeader :=
  mkInflatedHeader id (handle_ ih) (owner_id_ ih) (rec_lock_count_ ih) (mark_ ih).

(** Modelled from the spec: [InflatedHeader::set_handle]. *)
Definition set_handle (handle : Z) (ih : InflatedHeader) : InflatedHeader :=
  mkInflatedHeader (object_id_ ih) handle (owner_id_ ih) (rec_lock_count_ ih) (mark_ ih).

(** Modelled from the spec: [InflatedHeader::initialize_mutex]; the mutex
    starts out owned by [thread_id], [count] times over. *)
Definition initialize_mutex (thread_id count : Z) (ih : InflatedHeader) : InflatedHeader :=
  mkInflatedHeader (object_id_ ih) (handle_ ih) thread_id count (mark_ ih).

(** Modelled from the spec: [InflatedHeader::mark]. *)
Definition mark (which : Z) (ih : InflatedHeader) : InflatedHeader :=
  mkInflatedHeader (object_id_ ih) (handle_ ih) (owner_id_ ih) (rec_lock_count_ ih) which.

(** *** Programs over the shared header

    The header of the object is shared with the other threads, so a function
    of the source is embedded as the tree of its atomic actions; what the
    other threads do between two of them is the interpreter's business. *)

Inductive Lock := inflation_lock_ | contention_lock_.

#[global] Instance Lock_eq_dec : EqDecision Lock.
Proof. solve_decision. Defined.

Inductive Prog (A : Type) : Type :=
| Ret (a : A)
| Spin                                                 (* the loop goes on *)
| Load (k : HeaderWord → Prog A)                       (* obj->header *)
| Cas (expected new : HeaderWord) (k : bool → Prog A)  (* header.atomic_set *)
| Allocate (k : nat → Prog A)               (* inflated_headers_->allocate *)
| Lookup (index : nat) (k : option InflatedHeader → Prog A)
| Modify (index : nat) (f : InflatedHeader → InflatedHeader) (k : Prog A)
| Acquire (l : Lock) (k : Prog A)
| Release (l : Lock) (k : Prog A)
| LockMutex (index : nat) (thread_id : Z) (timed interrupt : bool)
    (k : LockStatus → Prog A).

Arguments Ret {A} a.
Arguments Spin {A}.
Arguments Load {A} k.
Arguments Cas {A} expected new k.
Arguments Allocate {A} k.
Arguments Lookup {A} index k.
Arguments Modify {A} index f k.
Arguments Acquire {A} l k.
Arguments Release {A} l k.
Arguments LockMutex {A} index thread_id timed interrupt k.

Fixpoint bind {A B} (p : Prog A) (k : A → Prog B) : Prog B :=
  match p with
  | Ret a => k a
  | Spin => Spin
  | Load c => Load (λ h, bind (c h) k)
  | Cas e n c => Cas e n (λ ok, bind (c ok) k)
  | Allocate c => Allocate (λ i, bind (c i) k)
  | Lookup i c => Lookup i (λ r, bind (c r) k)
  | Modify i f c => Modify i f (bind c k)
  | Acquire l c => Acquire l (bind c k)
  | Release l c => Release l (bind c k)
  | LockMutex i t timed intr c => LockMutex i t timed intr (λ s, bind (c s) k)
  end.

Declare Scope prog_scope.
Delimit Scope prog_scope with prog.
Notation "x ← y ; z" := (bind y (λ x, z))
  (at level 20, y at level 100, z at level 200, only parsing) : prog_scope.
Notation "x ;; z" := (bind x (λ _, z))
  (at level 100, z at level 200, only parsing, right associativity) : prog_scope.
Local Open Scope prog_scope.

Section Inflation.
Context `{OOP : Oop}.

(** The owner and the recursion count a thin lock's auxiliary word encodes:
    [aux_word >> cAuxLockTIDShift] and [aux_word & cAuxLockRecCountMask]. *)
Definition lock_owner (h : HeaderWord) : Z := Z.shiftr (aux_word h) cAuxLockTIDShift.

Definition lock_count (h : HeaderWord) : Z := Z.land (aux_word h) cAuxLockRecCountMask.

(** Modelled from the spec: [InflatedHeader::update]; the record absorbs the
    meaning the header had: the id of an Identity header, the owner and the
    recursion count of a thin lock, the handle of a Handle header. *)
Definition update (h : HeaderWord) (ih : InflatedHeader) : InflatedHeader :=
  match meaning h with
  | eAuxWordEmpty => mkInflatedHeader 0 0 0 0 (mark_ ih)
  | eAuxWordObjID => mkInflatedHeader (aux_word h) 0 0 0 (mark_ ih)
  | eAuxWordLock => mkInflatedHeader 0 0 (lock_owner h) (lock_count h) (mark_ ih)
  | eAuxWordHandle => mkInflatedHeader 0 (aux_word h) 0 0 (mark_ ih)
  | eAuxWordInflated => ih
  end.

Definition load : Prog HeaderWord := Load Ret.
Definition atomic_set (expected new : HeaderWord) : Prog bool := Cas expected new Ret.
Definition allocate : Prog nat := Allocate Ret.
Definition lookup_header (index : nat) : Prog (option InflatedHeader) := Lookup index Ret.
Definition modify (index : nat) (f : InflatedHeader → InflatedHeader) : Prog unit :=
  Modify index f (Ret tt).
Definition acquire (l : Lock) : Prog unit := Acquire l (Ret tt).
Definition release (l : Lock) : Prog unit := Release l (Ret tt).

(** A [LockGuard] (or [GCLockGuard]) over the rest of the function: the lock
    is released on every path out of [body]. *)
Definition guarded {A} (l : Lock) (body : Prog A) : Prog A :=
  acquire l;; r ← body; release l;; Ret r.

(** The index a header's auxiliary word holds, as
    [header_to_inflated_header] reads it. *)
Definition index_of (h : HeaderWord) : nat := Z.to_nat (aux_word h).

(** Modelled from the spec: [ObjectHeader::set_inflated_header] ([vm/oop.cpp])
    is not among the sources.  The installer swaps the whole word for the
    same word with the Inflated meaning and the record's index, so that a
    change to any other bit makes it fail. *)
Definition set_inflated_header (ih_index : nat) (orig : HeaderWord) : Prog bool :=
  if inflated orig then Ret false
  else atomic_set orig (set_aux_word (Z.of_nat ih_index) (set_meaning eAuxWordInflated orig)).

(** Modelled from the spec: [ObjectHeader::handle] ([vm/oop.hpp]) is not
    among the sources.  It reads the header: a Handle header carries the
    handle in its auxiliary word, an Inflated one in its side record, any
    other has none. *)
Definition handle : Prog Z :=
  h ← load;
  match meaning h with
  | eAuxWordHandle => Ret (aux_word h)
  | eAuxWordInflated =>
      r ← lookup_header (index_of h);
      Ret (from_option handle_ 0 r)
  | _ => Ret 0
  end.

(** Modelled from the spec: [ObjectHeader::clear_lock_contended]
    ([vm/oop.hpp]) is not among the sources.  Like every change of the
    header it is a compare-and-swap of the whole word, retried until it
    takes. *)
Fixpoint clear_lock_contended (fuel : nat) : Prog unit :=
  match fuel with
  | O => Spin
  | S fuel =>
      orig ← load;
      ok ← atomic_set orig (set_LockContended false orig);
      if ok then Ret tt else clear_lock_contended fuel
  end.

(** *** [ObjectMemory::inflate_lock_count_overflow] *)

(** The loop [while(!obj->set_inflated_header(state, ih_header, orig))]. *)
Fixpoint inflate_lock_count_overflow_loop (fuel : nat) (thread_id count : Z)
    (ih : nat) (orig : HeaderWord) : Prog bool :=
  match fuel with
  | O => Spin
  | S fuel =>
      ok ← set_inflated_header ih orig;
      if ok then Ret true
      else
        orig ← load;
        if inflated orig then Ret false
        else
          modify ih (update orig);;
          modify ih (initialize_mutex thread_id count);;
          inflate_lock_count_overflow_loop fuel thread_id count ih orig
  end.

Definition inflate_lock_count_overflow (fuel : nat) (thread_id which_mark : Z)
    (count : Z) : Prog bool :=
  guarded inflation_lock_ (
    orig ← load;
    if inflated orig then Ret false
    else
      ih ← allocate;
      modify ih (update orig);;
      modify ih (initialize_mutex thread_id count);;
      modify ih (mark which_mark);;
      inflate_lock_count_overflow_loop fuel thread_id count ih orig).

(** *** [ObjectMemory::inflate_and_lock] *)

(** The loop [while(!obj->set_inflated_header(state, ih_index, orig))]. *)
Fixpoint inflate_and_lock_loop (fuel : nat) (ih : nat) (orig : HeaderWord) : Prog bool :=
  match fuel with
  | O => Spin
  | S fuel =>
      ok ← set_inflated_header ih orig;
      if ok then Ret true
      else
        now ← load;                       (* obj->header.f.meaning *)
        if bool_decide (meaning orig ≠ meaning now) then Ret false
        else
          orig ← load;
          if inflated orig then Ret false
          else inflate_and_lock_loop fuel ih orig
  end.

(** What follows the [switch]: the mutex is initialized, the record marked,
    and the record installed. *)
Definition inflate_and_lock_install (fuel : nat) (thread_id which_mark : Z)
    (ih : nat) (initial_count : Z) (orig : HeaderWord) : Prog bool :=
  modify ih (initialize_mutex thread_id initial_count);;
  modify ih (mark which_mark);;
  inflate_and_lock_loop fuel ih orig.

Definition inflate_and_lock (fuel : nat) (thread_id which_mark : Z) : Prog bool :=
  guarded inflation_lock_ (
    orig ← load;
    match meaning orig with
    | eAuxWordEmpty => Ret false
    | eAuxWordObjID =>
        ih ← allocate;
        modify ih (set_object_id (aux_word orig));;
        inflate_and_lock_install fuel thread_id which_mark ih 0 orig
    | eAuxWordLock =>
        if bool_decide (lock_owner orig ≠ thread_id) then Ret false
        else
          ih ← allocate;
          inflate_and_lock_install fuel thread_id which_mark ih (lock_count orig) orig
    | eAuxWordHandle =>
        ih ← allocate;
        hd ← handle;
        modify ih (set_handle hd);;
        inflate_and_lock_install fuel thread_id which_mark ih 0 orig
    | eAuxWordInflated => Ret false
    end).

(** *** [ObjectMemory::inflate_for_contention] *)

(** The [for(;;)] loop; [retries] bounds [clear_lock_contended]. *)
Fixpoint inflate_for_contention_loop (fuel retries : nat) (thread_id which_mark : Z)
    : Prog bool :=
  match fuel with
  | O => Spin
  | S fuel =>
      let install (ih : nat) (orig : HeaderWord) : Prog bool :=
        modify ih (mark which_mark);;
        ok ← set_inflated_header ih orig;
        if negb ok then
          modify ih clear;;
          inflate_for_contention_loop fuel retries thread_id which_mark
        else
          clear_lock_contended retries;;
          Ret true in
      orig ← load;
      match meaning orig with
      | eAuxWordEmpty =>
          ih ← allocate;
          install ih orig
      | eAuxWordObjID =>
          ih ← allocate;
          modify ih (set_object_id (aux_word orig));;
          install ih orig
      | eAuxWordHandle =>
          ih ← allocate;
          hd ← handle;
          modify ih (set_handle hd);;
          install ih orig
      | eAuxWordLock =>
          if bool_decide (lock_owner orig ≠ thread_id) then Ret false
          else
            ih ← allocate;
            install ih orig
      | eAuxWordInflated => Ret false
      end
  end.

Definition inflate_for_contention (fuel : nat) (thread_id which_mark : Z) : Prog bool :=
  guarded inflation_lock_ (inflate_for_contention_loop fuel fuel thread_id which_mark).

(** *** [ObjectMemory::inflate_for_id] and [ObjectMemory::inflate_for_handle]

    The two functions differ in the setter only: [set_object_id(id)] in the
    one, [set_handle(state, handle)] in the other. *)

(** [obj->inflated_header(state)->set(...)]: the header is read again for the
    record's index. *)
Definition set_in_inflated_header (set : InflatedHeader → InflatedHeader) : Prog unit :=
  h ← load;
  modify (index_of h) set.

Fixpoint inflate_for_loop (fuel : nat) (set : InflatedHeader → InflatedHeader)
    (ih : nat) (orig : HeaderWord) : Prog unit :=
  match fuel with
  | O => Spin
  | S fuel =>
      ok ← set_inflated_header ih orig;
      if ok then Ret tt
      else
        orig ← load;
        if inflated orig then
          set_in_inflated_header set;;
          modify ih clear
        else
          modify ih (update orig);;
          modify ih set;;
          inflate_for_loop fuel set ih orig
  end.

Definition inflate_for (fuel : nat) (set : InflatedHeader → InflatedHeader)
    (which_mark : Z) : Prog unit :=
  guarded inflation_lock_ (
    orig ← load;
    if inflated orig then set_in_inflated_header set
    else
      ih ← allocate;
      modify ih (update orig);;
      modify ih set;;
      modify ih (mark which_mark);;
      inflate_for_loop fuel set ih orig).

Definition inflate_for_id (fuel : nat) (which_mark : Z) (id : Z) : Prog unit :=
  inflate_for fuel (set_object_id id) which_mark.

Definition inflate_for_handle (fuel : nat) (which_mark : Z) (handle : Z) : Prog unit :=
  inflate_for fuel (set_handle handle) which_mark.

(** *** [ObjectMemory::contend_for_lock] *)

(** The label [step1]: the contention is registered in the header. *)
Fixpoint register_contention (fuel : nat) : Prog (option LockStatus) :=
  match fuel with
  | O => Spin
  | S fuel =>
      read ← load;
      let new_val := set_LockContended true read in
      let orig := set_meaning eAuxWordLock read in
      ok ← atomic_set orig new_val;
      if ok then Ret None
      else
        now ← load;                            (* obj->inflated_header_p() *)
        if inflated now then Ret (Some eLockError)
        else if bool_decide (meaning new_val ≠ eAuxWordLock) then Ret (Some eLockError)
        else register_contention fuel          (* goto step1 *)
  end.

(** One return of the thread from [contention_var_.wait] or [wait_until]:
    whether the wait timed out, and what the interrupt checks see then. *)
Record Wakeup := mkWakeup {
  timed_out : bool;                 (* wait_until(...) == cTimedOut *)
  check_local_interrupts : bool;    (* state->check_local_interrupts() *)
  interrupted_exception : bool      (* !interrupted_exception()->nil_p() *)
}.

Inductive Waited := Broken | TimedOut | Interrupted.

(** The loop [while(!obj->inflated_header_p())].  [wakeups] lists the returns
    from the condition variable, in order.  When it is used up nobody wakes
    the thread any more: a timed wait runs into its timeout, an untimed one
    goes on. *)
Fixpoint wait_for_inflation (wakeups : list Wakeup) (timed interrupt : bool)
    : Prog Waited :=
  now ← load;
  if inflated now then Ret Broken
  else
    match wakeups with
    | [] => if timed then Ret TimedOut else Spin
    | w :: wakeups =>
        if timed && timed_out w then Ret TimedOut
        else if interrupt && check_local_interrupts w && interrupted_exception w
             then Ret Interrupted
        else wait_for_inflation wakeups timed interrupt
    end.

(** The body under [GCLockGuard lg(..., contention_lock_)]; [None] stands for
    leaving the block at its end. *)
Definition contend_under_lock (fuel : nat) (us : Z) (interrupt : bool)
    (wakeups : list Wakeup) : Prog (option LockStatus) :=
  registered ← register_contention fuel;
  match registered with
  | Some status => Ret (Some status)
  | None =>
      let timed := bool_decide (0 < us) in
      waited ← wait_for_inflation wakeups timed interrupt;
      match waited with
      | Interrupted => Ret (Some eLockInterrupted)
      | TimedOut => Ret (Some eLockTimeout)
      | Broken => Ret None
      end
  end.

Definition contend_for_lock (fuel : nat) (thread_id : Z) (us : Z) (interrupt : bool)
    (wakeups : list Wakeup) : Prog LockStatus :=
  left ← guarded contention_lock_ (contend_under_lock fuel us interrupt wakeups);
  match left with
  | Some status => Ret status
  | None =>
      h ← load;                                 (* obj->inflated_header(state) *)
      LockMutex (index_of h) thread_id (bool_decide (0 < us)) interrupt Ret
  end.

(** *** One thread against the others

    The memory the functions work on: the object's header, the table of
    inflated headers, and what the other threads do to the header, one entry
    for each time this thread reads or swaps it (an absent entry: nothing).
    [log] records the thread's actions, the latest first. *)

Inductive Event :=
| Acquired (l : Lock)
| Released (l : Lock)
| Loaded (h : HeaderWord)
| Swapped (expected new : HeaderWord) (ok : bool)
| Allocated (index : nat)
| Modified (index : nat).

Record Memory := mkMemory {
  header : HeaderWord;
  inflated_headers_ : list InflatedHeader;
  others : list (HeaderWord → HeaderWord);
  log : list Event
}.

(** The others take their turn. *)
Definition interfered (m : Memory) : Memory :=
  match others m with
  | [] => m
  | f :: rest => mkMemory (f (header m)) (inflated_headers_ m) rest (log m)
  end.

Definition logged (e : Event) (m : Memory) : Memory :=
  mkMemory (header m) (inflated_headers_ m) (others m) (e :: log m).

Definition set_header (h : HeaderWord) (m : Memory) : Memory :=
  mkMemory h (inflated_headers_ m) (others m) (log m).

Definition set_inflated_headers (t : list InflatedHeader) (m : Memory) : Memory :=
  mkMemory (header m) t (others m) (log m).

(** Modelled from the spec: [InflatedHeaders::allocate]
    ([vm/gc/inflated_headers.cpp]) is not among the sources.  The table
    grows by one cleared record, whose index is returned. *)
Definition allocated (m : Memory) : nat * Memory :=
  (length (inflated_headers_ m),
   set_inflated_headers (inflated_headers_ m ++ [mkInflatedHeader 0 0 0 0 0]) m).

(** The run of a program by one thread; [None] when the program goes on
    looping.  A record that is not in the table is not written. *)
Fixpoint run {A} (p : Prog A) (m : Memory) : option (A * Memory) :=
  match p with
  | Ret a => Some (a, m)
  | Spin => None
  | Load k =>
      let m := interfered m in
      run (k (header m)) (logged (Loaded (header m)) m)
  | Cas expected new k =>
      let m := interfered m in
      if decide (header m = expected)
      then run (k true) (logged (Swapped expected new true) (set_header new m))
      else run (k false) (logged (Swapped expected new false) m)
  | Allocate k =>
      let '(index, m) := allocated m in
      run (k index) (logged (Allocated index) m)
  | Lookup index k => run (k (inflated_headers_ m !! index)) m
  | Modify index f k =>
      run k (logged (Modified index)
               (set_inflated_headers (alter f index (inflated_headers_ m)) m))
  | Acquire l k => run k (logged (Acquired l) m)
  | Release l k => run k (logged (Released l) m)
  | LockMutex index thread_id timed interrupt k =>
      match inflated_headers_ m !! index with
      | Some ih =>
          let '(status, ih) := lock_mutex thread_id timed interrupt ih in
          run (k status)
              (logged (Modified index)
                 (set_inflated_headers (<[index := ih]> (inflated_headers_ m)) m))
      | None => run (k eLockError) m
      end
  end.

(** The thread's own writes to the header, the latest first: the swaps that
    took, each with the word it replaced and the word it put. *)
Fixpoint writes (l : list Event) : list (HeaderWord * HeaderWord) :=
  match l with
  | [] => []
  | Swapped expected new true :: l => (expected, new) :: writes l
  | _ :: l => writes l
  end.

(** *** Several threads at once

    The threads of the pool run the functions above, one atomic action at a
    time, in any order; [Other] is a turn of a thread that runs something
    else and changes the header.  A thread that finds a lock taken spins. *)

Record World := mkWorld {
  shared_header : HeaderWord;
  shared_inflated_headers : list InflatedHeader;
  holder : Lock → option nat;          (* who holds the lock *)
  history : list (nat * Event)         (* who did what, the latest first *)
}.

Definition noted (i : nat) (e : Event) (w : World) : World :=
  mkWorld (shared_header w) (shared_inflated_headers w) (holder w) ((i, e) :: history w).

Definition with_header (h : HeaderWord) (w : World) : World :=
  mkWorld h (shared_inflated_headers w) (holder w) (history w).

Definition with_inflated_headers (t : list InflatedHeader) (w : World) : World :=
  mkWorld (shared_header w) t (holder w) (history w).

Definition with_holder (l : Lock) (who : option nat) (w : World) : World :=
  mkWorld (shared_header w) (shared_inflated_headers w)
          (λ l', if decide (l' = l) then who else holder w l') (history w).

(** One atomic action of thread [i], whose program is [p]. *)
Definition step {A} (i : nat) (p : Prog A) (w : World) : Prog A * World :=
  match p with
  | Ret _ => (p, w)
  | Spin => (p, w)
  | Load k => (k (shared_header w), noted i (Loaded (shared_header w)) w)
  | Cas expected new k =>
      if decide (shared_header w = expected)
      then (k true, noted i (Swapped expected new true) (with_header new w))
      else (k false, noted i (Swapped expected new false) w)
  | Allocate k =>
      let index := length (shared_inflated_headers w) in
      (k index,
       noted i (Allocated index)
         (with_inflated_headers
            (shared_inflated_headers w ++ [mkInflatedHeader 0 0 0 0 0]) w))
  | Lookup index k => (k (shared_inflated_headers w !! index), w)
  | Modify index f k =>
      (k, noted i (Modified index)
            (with_inflated_headers (alter f index (shared_inflated_headers w)) w))
  | Acquire l k =>
      match holder w l with
      | None => (k, noted i (Acquired l) (with_holder l (Some i) w))
      | Some _ => (p, w)
      end
  | Release l k => (k, noted i (Released l) (with_holder l None w))
  | LockMutex index thread_id timed interrupt k =>
      match shared_inflated_headers w !! index with
      | Some ih =>
          let '(status, ih) := lock_mutex thread_id timed interrupt ih in
          (k status,
           noted i (Modified index)
             (with_inflated_headers (<[index := ih]> (shared_inflated_headers w)) w))
      | None => (k eLockError, w)
      end
  end.

Inductive Turn :=
| Thread (i : nat)
| Other (f : HeaderWord → HeaderWord).

Definition take_turn {A} (state : list (Prog A) * World) (t : Turn)
    : list (Prog A) * World :=
  let '(pool, w) := state in
  match t with
  | Thread i =>
      match pool !! i with
      | Some p => let '(p, w) := step i p w in (<[i := p]> pool, w)
      | None => (pool, w)
      end
  | Other f => (pool, with_header (f (shared_header w)) w)
  end.

Definition exec {A} (turns : list Turn) (pool : list (Prog A)) (w : World)
    : list (Prog A) * World :=
  foldl take_turn (pool, w) turns.

(** A function call as a thread of the pool: its result is dropped. *)
Definition thread {A} (p : Prog A) : Prog unit := p;; Ret tt.

(** What a swap under the inflation lock may do: install a side record,
    which changes the meaning and the auxiliary word of a header that is not
    inflated and no other bit; or leave meaning and auxiliary word as they
    are. *)
Definition installs_or_keeps (expected new : HeaderWord) : Prop :=
  (inflated expected = false
   ∧ new = set_aux_word (aux_word new) (set_meaning eAuxWordInflated expected))
  ∨ (meaning new = meaning expected ∧ aux_word new = aux_word expected).

(** A program fit to run under the inflation lock: it takes and releases no
    lock itself, and each of its swaps installs or keeps. *)
Inductive critical {A} : Prog A → Prop :=
| critical_ret a : critical (Ret a)
| critical_spin : critical Spin
| critical_load k : (∀ h, critical (k h)) → critical (Load k)
| critical_cas expected new k :
    installs_or_keeps expected new → (∀ ok, critical (k ok)) →
    critical (Cas expected new k)
| critical_allocate k : (∀ i, critical (k i)) → critical (Allocate k)
| critical_lookup i k : (∀ r, critical (k r)) → critical (Lookup i k)
| critical_modify i f k : critical k → critical (Modify i f k).

(** Where a thread of the pool that runs an inflating call can be: between
    taking the inflation lock and releasing it, with the rest of a critical
    program before it; or outside, about to take the lock or done. *)
Inductive inside : Prog unit → Prop :=
| inside_spin : inside Spin
| inside_load k : (∀ h, inside (k h)) → inside (Load k)
| inside_cas expected new k :
    installs_or_keeps expected new → (∀ ok, inside (k ok)) →
    inside (Cas expected new k)
| inside_allocate k : (∀ i, inside (k i)) → inside (Allocate k)
| inside_lookup i k : (∀ r, inside (k r)) → inside (Lookup i k)
| inside_modify i f k : inside k → inside (Modify i f k)
| inside_release : inside (Release inflation_lock_ (Ret tt)).

Inductive outside : Prog unit → Prop :=
| outside_done : outside (Ret tt)
| outside_acquire k : inside k → outside (Acquire inflation_lock_ k).

(** A write that keeps an inflated header inflated, with its index. *)
Definition keeps (write : HeaderWord * HeaderWord) : Prop :=
  inflated write.1 = true →
  inflated write.2 = true ∧ aux_word write.2 = aux_word write.1.

(** A program none of whose swaps could take an inflated header back,
    whatever else it does. *)
Inductive harmless {A} : Prog A → Prop :=
| harmless_ret a : harmless (Ret a)
| harmless_spin : harmless Spin
| harmless_load k : (∀ h, harmless (k h)) → harmless (Load k)
| harmless_cas expected new k :
    keeps (expected, new) → (∀ ok, harmless (k ok)) →
    harmless (Cas expected new k)
| harmless_allocate k : (∀ i, harmless (k i)) → harmless (Allocate k)
| harmless_lookup i k : (∀ r, harmless (k r)) → harmless (Lookup i k)
| harmless_modify i f k : harmless k → harmless (Modify i f k)
| harmless_acquire l k : harmless k → harmless (Acquire l k)
| harmless_release l k : harmless k → harmless (Release l k)
| harmless_lock_mutex i thread_id timed interrupt k :
    (∀ status, harmless (k status)) →
    harmless (LockMutex i thread_id timed interrupt k).

(** The calls that inflate a header. *)
Inductive InflationCall :=
| CallInflateLockCountOverflow (fuel : nat) (thread_id which_mark count : Z)
| CallInflateAndLock (fuel : nat) (thread_id which_mark : Z)
| CallInflateForContention (fuel : nat) (thread_id which_mark : Z)
| CallInflateForId (fuel : nat) (which_mark id : Z)
| CallInflateForHandle (fuel : nat) (which_mark handle : Z).

Definition inflation_thread (c : InflationCall) : Prog unit :=
  match c with
  | CallInflateLockCountOverflow fuel thread_id which_mark count =>
      thread (inflate_lock_count_overflow fuel thread_id which_mark count)
  | CallInflateAndLock fuel thread_id which_mark =>
      thread (inflate_and_lock fuel thread_id which_mark)
  | CallInflateForContention fuel thread_id which_mark =>
      thread (inflate_for_contention fuel thread_id which_mark)
  | CallInflateForId fuel which_mark id =>
      thread (inflate_for_id fuel which_mark id)
  | CallInflateForHandle fuel which_mark handle =>
      thread (inflate_for_handle fuel which_mark handle)
  end.

(** The call with its result: [Some] of the boolean, or [None] for the two
    functions that return nothing. *)
Definition inflation_call (c : InflationCall) : Prog (option bool) :=
  match c with
  | CallInflateLockCountOverflow fuel thread_id which_mark count =>
      r ← inflate_lock_count_overflow fuel thread_id which_mark count; Ret (Some r)
  | CallInflateAndLock fuel thread_id which_mark =>
      r ← inflate_and_lock fuel thread_id which_mark; Ret (Some r)
  | CallInflateForContention fuel thread_id which_mark =>
      r ← inflate_for_contention fuel thread_id which_mark; Ret (Some r)
  | CallInflateForId fuel which_mark id =>
      inflate_for_id fuel which_mark id;; Ret None
  | CallInflateForHandle fuel which_mark handle =>
      inflate_for_handle fuel which_mark handle;; Ret None
  end.

Definition fuel_of (c : InflationCall) : nat :=
  match c with
  | CallInflateLockCountOverflow fuel _ _ _ => fuel
  | CallInflateAndLock fuel _ _ => fuel
  | CallInflateForContention fuel _ _ => fuel
  | CallInflateForId fuel _ _ => fuel
  | CallInflateForHandle fuel _ _ => fuel
  end.

(** What a call answers when it finds the header inflated already: the three
    that return a boolean return false. *)
Definition refusal (c : InflationCall) : option bool :=
  match c with
  | CallInflateForId _ _ _ | CallInflateForHandle _ _ _ => None
  | _ => Some false
  end.

(** What a call then does to the side record the header has: [inflate_for_id]
    and [inflate_for_handle] store what they were called for. *)
Definition stores (c : InflationCall) : InflatedHeader → InflatedHeader :=
  match c with
  | CallInflateForId _ _ id => set_object_id id
  | CallInflateForHandle _ _ handle => set_handle handle
  | _ => λ ih, ih
  end.

(** A swap that installs a side record: the header was not inflated and is
    inflated afterwards. *)
Definition installs (e : Event) : bool :=
  match e with
  | Swapped expected new true => negb (inflated expected) && inflated new
  | _ => false
  end.

(** Whether a history, read from its oldest event on, keeps the discipline of
    the inflation lock: it is taken only when free, released only by its
    holder, and a side record is allocated or installed only by its holder.
    The answer is the holder at the end, when the discipline is kept. *)
Fixpoint replay (events : list (nat * Event)) (held : option nat) : option (option nat) :=
  match events with
  | [] => Some held
  | (i, e) :: events =>
      match e with
      | Acquired inflation_lock_ =>
          if held is None then replay events (Some i) else None
      | Released inflation_lock_ =>
          if decide (held = Some i) then replay events None else None
      | Allocated _ =>
          if decide (held = Some i) then replay events held else None
      | Swapped _ _ _ =>
          if installs e && negb (bool_decide (held = Some i)) then None
          else replay events held
      | _ => replay events held
      end
  end.

(** What a thread of another kind may do to the header: it leaves an inflated
    header inflated, with its index. *)
Definition keeps_inflated (f : HeaderWord → HeaderWord) : Prop :=
  ∀ h, inflated h = true →
    inflated (f h) = true ∧ aux_word (f h) = aux_word h.

(** A schedule in which the threads outside the pool keep to that. *)
Definition others_keep_inflated (turns : list Turn) : Prop :=
  Forall (λ turn, match turn with
                  | Thread _ => True
                  | Other f => keeps_inflated f
                  end) turns.

(** The number of side records the threads of the pool have installed. *)
Definition installed (w : World) : nat :=
  length (filter (λ entry, installs entry.2 = true) (history w)).

(** What holds of a pool of inflating calls and their world at every moment;
    [initial] is the header the execution started from. *)
Definition disciplined (initial : HeaderWord) (pool : list (Prog unit)) (w : World)
    : Prop :=
  (∀ i p, pool !! i = Some p →
     if decide (holder w inflation_lock_ = Some i) then inside p else outside p)
  ∧ replay (reverse (history w)) None = Some (holder w inflation_lock_)
  ∧ Forall (λ entry, ∀ expected new,
              entry.2 = Swapped expected new true → installs_or_keeps expected new)
           (history w)
  ∧ (installed w ≤ 1)%nat
  ∧ (installed w = 1%nat → inflated (shared_header w) = true)
  ∧ (inflated initial = true →
       inflated (shared_header w) = true
       ∧ aux_word (shared_header w) = aux_word initial).

(** *** Deferring to an inflated header

    The shape of a call that inflates, as far as an inflated header goes.
    [store] is what the call stores in a side record, [refused] what it
    returns when it does not install one, [needs] whether it has anything to
    store, and [base] the number of side records there were when it
    began: the records it allocates are beyond them. *)
Section Deference.
Context {A : Type} (store : InflatedHeader → InflatedHeader) (refused : A)
  (needs : bool) (base : nat).

(** The call has read an inflated header and is on its way out: it stores in
    the record of the header, when that is not done yet, may write to the
    records it allocated, and returns [refused]; it swaps nothing. *)
Inductive settles : bool → Prog A → Prop :=
| settles_ret : settles true (Ret refused)
| settles_store k :
    settles true k → settles false (Load (λ h, Modify (index_of h) store k))
| settles_clear stored i f k :
    (base ≤ i)%nat → settles stored k → settles stored (Modify i f k).

(** The call runs on while the header is inflated: each header that decides
    what it does next makes it settle, and a swap expects a header that is
    not inflated. *)
Inductive barred : Prog A → Prop :=
| barred_settles p : settles (negb needs) p → barred p
| barred_spin : barred Spin
| barred_load k : (∀ h, inflated h = true → barred (k h)) → barred (Load k)
| barred_cas expected new k :
    inflated expected = false → barred (k false) → barred (Cas expected new k)
| barred_allocate k : (∀ i, (base ≤ i)%nat → barred (k i)) → barred (Allocate k)
| barred_lookup i k : (∀ r, barred (k r)) → barred (Lookup i k)
| barred_modify i f k : (base ≤ i)%nat → barred k → barred (Modify i f k).

(** The call before it has installed a side record: it returns only
    [refused], and only when it has nothing to store; a swap installs, and
    what follows a swap that took is free; every write to a side record is
    to one it allocated. *)
Inductive seeks : Prog A → Prop :=
| seeks_ret : needs = false → seeks (Ret refused)
| seeks_spin : seeks Spin
| seeks_load k :
    (∀ h, inflated h = false → seeks (k h)) →
    (∀ h, inflated h = true → barred (k h)) →
    seeks (Load k)
| seeks_cas expected new k :
    inflated expected = false → inflated new = true → seeks (k false) →
    seeks (Cas expected new k)
| seeks_allocate k : (∀ i, (base ≤ i)%nat → seeks (k i)) → seeks (Allocate k)
| seeks_lookup i k : (∀ r, seeks (k r)) → seeks (Lookup i k)
| seeks_modify i f k : (base ≤ i)%nat → seeks k → seeks (Modify i f k).

End Deference.

(** Whether a call has something to store in the side record of a header it
    finds inflated. *)
Definition needs_store (c : InflationCall) : bool :=
  match c with
  | CallInflateForId _ _ _ | CallInflateForHandle _ _ _ => true
  | _ => false
  end.

(** A thread that only changes bits beside the meaning and the auxiliary
    word: the contended flag, the collectors' bits. *)
Definition keeps_meaning (f : HeaderWord → HeaderWord) : Prop :=
  ∀ h, meaning (f h) = meaning h ∧ aux_word (f h) = aux_word h.

(** What the side record gets of a header that is not inflated when
    [inflate_for_contention] installs it. *)
Definition carried_over (h : HeaderWord) (r : InflatedHeader) : Prop :=
  owner_id_ r = 0 ∧ rec_lock_count_ r = 0
  ∧ (meaning h = eAuxWordObjID → object_id_ r = aux_word h)
  ∧ (meaning h = eAuxWordHandle → handle_ r = aux_word h).

End Inflation.

(** A layout to run the functions on: the owner's id above eight bits of
    recursion count, and a mutex that is taken when it is free or already
    the caller's. *)
#[global] Instance byte_count_layout : Oop := {|
  cAuxLockTIDShift := 8;
  cAuxLockRecCountMask := 255;
  lock_mutex thread_id timed interrupt ih :=
    if bool_decide (owner_id_ ih = 0 ∨ owner_id_ ih = thread_id)
    then (eLocked, initialize_mutex thread_id (rec_lock_count_ ih + 1) ih)
    else (if timed then eLockTimeout else eLockError, ih)
|}.

(** A header thin-locked by [thread_id], [count] times over. *)
Definition thin_locked (thread_id count : Z) (contended : bool) : HeaderWord :=
  mkHeaderWord eAuxWordLock (Z.lor (Z.shiftl thread_id 8) count) contended 0.

(** A memory with that header, an empty table, and no other thread about. *)
Definition quiet_memory (h : HeaderWord) : Memory := mkMemory h [] [] [].

(** A side record as the table allocates it, and a header that is inflated
    and has the record at index [i]. *)
Definition blank : InflatedHeader := mkInflatedHeader 0 0 0 0 0.

Definition inflated_at (i : nat) : HeaderWord :=
  mkHeaderWord eAuxWordInflated (Z.of_nat i) false 0.

(** Another thread's inflation: a header that is not inflated yet gets the
    side record at index [i]. *)
Definition inflated_by_other (i : nat) (h : HeaderWord) : HeaderWord :=
  if inflated h then h
  else set_aux_word (Z.of_nat i) (set_meaning eAuxWordInflated h).

(** A thread that inflates the thin lock of thread 3 among others: it reads
    the header undisturbed; another thread sets the contended flag before
    its swap; it reads the meaning again, undisturbed; and a third thread
    inflates the header before it reads the header anew. *)
Definition overtaken_memory : Memory :=
  mkMemory (thin_locked 3 5 false) [blank]
    [λ h, h; set_LockContended true; λ h, h; inflated_by_other 0] [].

(** Two calls on one thin-locked object: the first takes the lock; the second
    spins on it; the first's swap fails, since a thread outside the pool has
    set the contended flag, and takes at its second attempt; the second call
    then finds the header inflated. *)
Definition racing_calls : list InflationCall :=
  [CallInflateForId 2 2 77; CallInflateAndLock 2 3 2].

Definition racing_turns : list Turn :=
  [Thread 0; Thread 1; Thread 0; Other (set_LockContended true)]
  ++ replicate 10 (Thread 0) ++ replicate 8 (Thread 1).

Definition racing_world : World :=
  (exec racing_turns (inflation_thread <$> racing_calls)
     (mkWorld (thin_locked 3 5 false) [] (λ _, None) [])).2.

End Header.

(** ** Registered locations of C-API handles:
    [add_global_capi_handle_location], [del_global_capi_handle_location] *)

Module Handles.

(** [capi::GlobalHandle]: the location of a handle ([capi::Handle**]) and
    where it was registered. *)
Record GlobalHandle := mkGlobalHandle {
  handle : Z;
  file : string;
  line : Z
}.

(** [rubinius::bug(message)]: the VM halts. *)
Inductive Bug := bug (message : string).

(** [ObjectMemory::add_global_capi_handle_location].  [stored] is [*loc];
    [reference_p] is what [REFERENCE_P] and [valid] what
    [capi_handles_->validate] answers for it (neither is among the
    sources). *)
Definition add_global_capi_handle_location
    (global_capi_handle_locations_ : list GlobalHandle)
    (loc : Z) (file : string) (line : Z)
    (stored : Z) (reference_p valid : bool) : Bug + list GlobalHandle :=
  if negb (stored =? 0) && reference_p && negb valid
  then inl (bug "Halting due to invalid handle")
  else inr (global_capi_handle_locations_ ++ [mkGlobalHandle loc file line]).

(** [ObjectMemory::del_global_capi_handle_location]: the first entry with
    the location is erased. *)
Fixpoint del_global_capi_handle_location
    (global_capi_handle_locations_ : list GlobalHandle) (loc : Z)
    : Bug + list GlobalHandle :=
  match global_capi_handle_locations_ with
  | [] => inl (bug "Removing handle not in the list")
  | g :: rest =>
      if decide (handle g = loc) then inr rest
      else match del_global_capi_handle_location rest loc with
           | inl b => inl b
           | inr rest => inr (g :: rest)
           end
  end.

(** How often a location is registered. *)
Definition registrations (locations : list GlobalHandle) (loc : Z) : nat :=
  length (filter (λ g, handle g = loc) locations).

End Handles.

(** ** [SharedState]: the locks of the C-API libraries *)

Module SharedState.

(** [int]: 32 bits, two's complement. *)
Definition to_int (z : Z) : Z :=
  let u := z mod 2 ^ 32 in
  if u <? 2 ^ 31 then u else u - 2 ^ 32.

Section CApiLocks.

(** [utilities::thread::Mutex] is not among the sources: the embedding is
    over any type of mutexes, with the mutex [new Mutex(true)] makes and what
    [lock()] does to one. *)
Context {Mutex : Type} (new_mutex : Mutex) (lock : Mutex → Mutex).

(** The fields of [SharedState] that [capi_lock_index], [enter_capi] and
    [leave_capi] work on. *)
Record CApiLocks := mkCApiLocks {
  capi_lock_map_ : gmap string Z;          (* std::map<std::string, int> *)
  capi_locks_ : list Mutex;                (* std::vector<Mutex*> *)
  capi_black_list_ : gset string;
  use_capi_lock_ : bool
}.

(** [capi_lock_map_[name]] as a read: [std::map::operator[]] enters the name
    with the value 0 when it is not in the map. *)
Definition read_capi_lock_map (name : string) (s : CApiLocks) : Z * CApiLocks :=
  match capi_lock_map_ s !! name with
  | Some index => (index, s)
  | None =>
      (0, mkCApiLocks (<[name := 0]> (capi_lock_map_ s)) (capi_locks_ s)
            (capi_black_list_ s) (use_capi_lock_ s))
  end.

(** [capi_lock_map_[name] = index] *)
Definition write_capi_lock_map (name : string) (index : Z) (s : CApiLocks) : CApiLocks :=
  mkCApiLocks (<[name := index]> (capi_lock_map_ s)) (capi_locks_ s)
    (capi_black_list_ s) (use_capi_lock_ s).

(** [SharedState::capi_lock_index] *)
Definition capi_lock_index (name : string) (s : CApiLocks) : Z * CApiLocks :=
  let '(existing, s) := read_capi_lock_map name s in
  if negb (existing =? 0) then (existing, s)
  else if negb (use_capi_lock_ s) && bool_decide (name ∉ capi_black_list_ s)
  then (0, write_capi_lock_map name 0 s)
  else
    let s := mkCApiLocks (capi_lock_map_ s) (capi_locks_ s ++ [new_mutex])
               (capi_black_list_ s) (use_capi_lock_ s) in
    let lock_index := to_int (Z.of_nat (length (capi_locks_ s))) in
    (lock_index, write_capi_lock_map name lock_index s).

(** [SharedState::enter_capi], for the lock index of the current native
    frame: [capi_locks_[lock_index - 1]->lock()].  [std::vector::operator[]]
    does not check its index; [None] stands for an index outside the
    vector. *)
Definition enter_capi (lock_index : Z) (s : CApiLocks) : option CApiLocks :=
  if lock_index =? 0 then Some s
  else if lock_index - 1 <? 0 then None
  else
    match capi_locks_ s !! Z.to_nat (lock_index - 1) with
    | Some mutex =>
        Some (mkCApiLocks (capi_lock_map_ s)
                (<[Z.to_nat (lock_index - 1) := lock mutex]> (capi_locks_ s))
                (capi_black_list_ s) (use_capi_lock_ s))
    | None => None
    end.

(** The state the constructor and [initialize_capi_black_list] leave. *)
Definition initial_capi_locks : CApiLocks :=
  mkCApiLocks ∅ [] {["Init_nkf"; "Init_nokogiri"]} false.

(** [set_use_capi_lock(flag)], then [capi_lock_index(name)]: the
    libraries are loaded one after the other, under whatever the
    configuration says of the lock at the time. *)
Definition load_library (s : CApiLocks) (library : bool * string) : CApiLocks :=
  (capi_lock_index library.2
     (mkCApiLocks (capi_lock_map_ s) (capi_locks_ s) (capi_black_list_ s) library.1)).2.

(** The indices the map holds are 0 or positions in the vector, counted
    from 1, and no position is held by two names. *)
Definition well_indexed (s : CApiLocks) : Prop :=
  (∀ name index, capi_lock_map_ s !! name = Some index →
     0 ≤ index ≤ Z.of_nat (length (capi_locks_ s)))
  ∧ (∀ name1 name2 index,
       capi_lock_map_ s !! name1 = Some index →
       capi_lock_map_ s !! name2 = Some index →
       index ≠ 0 → name1 = name2).

End CApiLocks.

Arguments CApiLocks : clear implicits.

End SharedState.

(** ** [SharedState]: the thread ids *)

Module Threads.

(** [uint32_t] *)
Definition to_uint32 (z : Z) : Z := z mod 2 ^ 32.

(** A [VM*]: where the object is, and the two arguments of the constructor
    that tell the VMs apart.  [new VM] gives the [n]th VM the address [n]:
    no VM is deleted here, so no address comes back. *)
Record VM := mkVM {
  address : nat;
  thread_id : Z;            (* uint32_t *)
  name : string
}.

#[global] Instance VM_eq_dec : EqDecision VM.
Proof. solve_decision. Defined.

(** The fields of [SharedState] that [new_thread_id], [new_vm] and
    [remove_vm] work on. *)
Record ThreadFields := mkThreadFields {
  thread_ids_ : Z;          (* 32 bits; the constructor starts it at 1 *)
  threads_ : list VM;       (* ThreadList, a std::list *)
  root_vm_ : option VM;
  vms_created : nat
}.

(** [SharedState::new_thread_id]: [atomic::fetch_and_add(&thread_ids_, 1)]
    gives the old value. *)
Definition new_thread_id (s : ThreadFields) : Z * ThreadFields :=
  (to_uint32 (thread_ids_ s),
   mkThreadFields (to_uint32 (thread_ids_ s + 1)) (threads_ s) (root_vm_ s)
     (vms_created s)).

(** [SharedState::new_vm] *)
Definition new_vm (name : string) (s : ThreadFields) : VM * ThreadFields :=
  let '(id, s) := new_thread_id s in
  let vm := mkVM (vms_created s) id name in
  let s := mkThreadFields (thread_ids_ s) (threads_ s ++ [vm]) (root_vm_ s)
             (S (vms_created s)) in
  (vm,
   if root_vm_ s is None
   then mkThreadFields (thread_ids_ s) (threads_ s) (Some vm) (vms_created s)
   else s).

(** [SharedState::remove_vm]: [threads_.remove(vm)] erases every entry
    equal to [vm]; the VM is not deleted. *)
Definition remove_vm (vm : VM) (s : ThreadFields) : ThreadFields :=
  mkThreadFields (thread_ids_ s) (filter (λ other, other ≠ vm) (threads_ s))
    (root_vm_ s) (vms_created s).

(** What the constructor leaves: [thread_ids_(1)], [root_vm_(0)]. *)
Definition initial : ThreadFields := mkThreadFields 1 [] None 0.

(** The threads of a process come and go. *)
Inductive Op :=
| NewVM (name : string)
| RemoveVM (vm : VM).

Definition apply_op (s : ThreadFields) (op : Op) : ThreadFields :=
  match op with
  | NewVM name => (new_vm name s).2
  | RemoveVM vm => remove_vm vm s
  end.

Definition created (ops : list Op) : list string :=
  omap (λ op, if op is NewVM name then Some name else None) ops.

End Threads.


(** ** Strings

    A [std::string], and a C string, is the list of its characters, without
    the terminator.  The members of [std::string] that the sources use are
    the standard library's, embedded here after the standard; [None] is
    [std::string::npos]. *)

Module StdString.

(** A string literal of the source. *)
Definition chars (s : string) : list ascii := String.list_ascii_of_string s.

(** [s.find(c)]: the first position of the character. *)
Fixpoint find_char (c : ascii) (s : list ascii) : option nat :=
  match s with
  | [] => None
  | a :: s => if decide (a = c) then Some O else S <$> find_char c s
  end.

(** [s.rfind(c, pos)]: the last position of the character that is not
    after [pos]. *)
Fixpoint rfind_char (c : ascii) (pos : nat) (s : list ascii) {struct s} : option nat :=
  match s with
  | [] => None
  | a :: s =>
      match (match pos with O => None | S pos => rfind_char c pos s end) with
      | Some i => Some (S i)
      | None => if decide (a = c) then Some O else None
      end
  end.

(** [s.find(sub)]: the first position where [sub] starts. *)
Fixpoint find (sub s : list ascii) : option nat :=
  if bool_decide (sub `prefix_of` s) then Some O
  else match s with
       | [] => None
       | _ :: s => S <$> find sub s
       end.

(** [s.substr(pos, n)], for [pos] within the string. *)
Definition substr (pos n : nat) (s : list ascii) : list ascii := take n (drop pos s).

(** [s.replace(pos, len, value)], for [pos] within the string. *)
Definition replace (pos len : nat) (value s : list ascii) : list ascii :=
  take pos s ++ value ++ drop (pos + len) s.

End StdString.

(** ** The metrics emitters: [StatsDEmitter::StatsDEmitter] *)

Module StatsD.
Import StdString.

(** The first lines of the constructor: the server is split at its first
    colon into host and port. *)
Definition parse_server (server : list ascii) : list ascii * list ascii :=
  match find_char ":" server with
  | None =>
      (chars "localhost",
       if (0 <? length server)%nat then server else chars "8125")
  | Some colon => (substr 0 colon server, drop (colon + 1) server)
  end.

(** The loop
<<
  for(size_t p = n.size(), i = p; i != 0; p = i - 1) {
    if((i = n.rfind('.', p)) == std::string::npos) {
      parts << n.substr(0, p + 1);
      break;
    } else {
      parts << n.substr(i + 1, p - i) << ".";
    }
  }
>>
    from the test of [i] on.  [p = i - 1] goes round when [i] is 0, and the
    loop ends before [p] is read again; [fuel] bounds the turns. *)
Fixpoint nodename_loop (fuel : nat) (n : list ascii) (p i : nat) (parts : list ascii)
    : list ascii :=
  if (i =? 0)%nat then parts
  else
    match fuel with
    | O => parts
    | S fuel =>
        match rfind_char "." p n with
        | None => parts ++ substr 0 (p + 1) n
        | Some i =>
            nodename_loop fuel n (i - 1) i (parts ++ substr (i + 1) (p - i) n ++ chars ".")
        end
    end.

(** What the loop leaves in [parts] for the node name [n]. *)
Definition nodename_parts (n : list ascii) : list ascii :=
  nodename_loop (S (length n)) n (length n) (length n) [].

(** [if(prefix_.size() > 0) prefix_ += ".";] *)
Definition add_dot (prefix_ : list ascii) : list ascii :=
  if (0 <? length prefix_)%nat then prefix_ ++ chars "." else prefix_.

(** The rest of the constructor: [prefix_] from the configured prefix.
    [nodename] is [name.nodename], or [None] when [uname] fails; [pid] is
    the text [pid << getpid()] writes. *)
Definition make_prefix (prefix : list ascii) (nodename : option (list ascii))
    (pid : list ascii) : list ascii :=
  let prefix_ :=
    match find (chars "$nodename") prefix with
    | Some index =>
        match nodename with
        | None => []
        | Some n => replace index (length (chars "$nodename")) (nodename_parts n) prefix
        end
    | None => prefix
    end in
  let prefix_ :=
    match find (chars "$pid") prefix_ with
    | Some index => replace index (length (chars "$pid")) pid prefix_
    | None => prefix_
    end in
  add_dot prefix_.

(** The labels of a name, the parts between its dots; and the name of given
    labels. *)
Fixpoint labels (s : list ascii) : list (list ascii) :=
  match s with
  | [] => [[]]
  | a :: s =>
      if decide (a = "."%char) then [] :: labels s
      else match labels s with
           | label :: rest => (a :: label) :: rest
           | [] => [[a]]
           end
  end.

Fixpoint dotted (ls : list (list ascii)) : list ascii :=
  match ls with
  | [] => []
  | [label] => label
  | label :: ls => label ++ "."%char :: dotted ls
  end.

End StatsD.


(** ** [Environment]: the configuration values and the command line *)

Module Environment.
Import StdString.

(** [Environment::expand_config_value] *)
Definition expand_config_value (cvar var value : list ascii) : list ascii :=
  match find var cvar with
  | Some index => replace index (length var) value cvar
  | None => cvar
  end.

(** [Environment::set_tmp_path], on [config.system_tmp.value]; [tmpdir] is
    [getenv("TMPDIR")].  [tmp[strlen(tmp)-1]] of an empty [TMPDIR] is read
    before the string: [None]. *)
Definition set_tmp_path (tmpdir : option (list ascii)) (system_tmp : list ascii)
    : option (list ascii) :=
  if decide (system_tmp = chars "$TMPDIR") then
    match tmpdir with
    | Some tmp =>
        match last tmp with
        | Some c => Some (if decide (c ≠ "/"%char) then tmp ++ chars "/" else tmp)
        | None => None
        end
    | None => Some (chars "/tmp/")
    end
  else Some system_tmp.

(** [Environment::set_console_path], on [config.system_console_path.value];
    [program_name] is [RBX_PROGRAM_NAME] and [username] is
    [shared->username]. *)
Definition set_console_path (program_name system_tmp username : list ascii)
    (system_console_path : list ascii) : list ascii :=
  let path := system_console_path in
  let path := expand_config_value path (chars "$TMPDIR") system_tmp in
  let path := expand_config_value path (chars "$PROGRAM_NAME") program_name in
  let path := expand_config_value path (chars "$USER") username in
  path.

(** [strncmp(arg, "-X", 2) == 0] *)
Definition is_xflag (arg : list ascii) : bool :=
  bool_decide (chars "-X" `prefix_of` arg).

(** [arg[0]] and [arg[1]] of a C string: the terminator is the character
    after the last, and what is after the terminator is not the string's. *)
Definition first_char (arg : list ascii) : ascii := default zero (head arg).

Definition second_char (arg : list ascii) : option ascii :=
  match arg with
  | [] => None
  | [_] => Some zero
  | _ :: c :: _ => Some c
  end.

(** The last loop of [Environment::load_vm_options], over [argv[1]],
    [argv[2]], ...: the lines it hands to [config_parser.import_line], in
    order. *)
Fixpoint command_line_options (args : list (list ascii)) : list (list ascii) :=
  match args with
  | [] => []
  | arg :: args =>
      if decide (arg = chars "--") then []
      else if is_xflag arg then drop 2 arg :: command_line_options args
      else if decide (first_char arg ≠ "-"%char) then []
      else command_line_options args
  end.

(** The loop of [Environment::load_argv] that fills [ARGV], over [argv[1]],
    [argv[2]], ...; [None] when it reads [arg[1]] of an empty argument. *)
Fixpoint program_arguments (skip_xflags : bool) (args : list (list ascii))
    : option (list (list ascii)) :=
  match args with
  | [] => Some []
  | arg :: args =>
      if decide (arg = chars "--") then (arg ::.) <$> program_arguments false args
      else if is_xflag arg then
        if skip_xflags then program_arguments skip_xflags args
        else (arg ::.) <$> program_arguments skip_xflags args
      else
        match second_char arg with
        | None => None
        | Some c =>
            let skip_xflags := if decide (c ≠ "-"%char) then false else skip_xflags in
            (arg ::.) <$> program_arguments skip_xflags args
        end
  end.

(** *** The options of [RBXOPT] and of the configuration files *)

(** [isspace], in the C locale: space, and the controls from tab to
    carriage return. *)
Definition isspace (c : ascii) : bool :=
  let n := nat_of_ascii c in
  ((n =? 32) || ((9 <=? n) && (n <=? 13)))%nat.

(** [while( *b && isspace( *b)) b++;] *)
Fixpoint skip_spaces (b : list ascii) : list ascii :=
  match b with
  | c :: rest => if isspace c then skip_spaces rest else b
  | [] => []
  end.

(** [e = b; while( *e && !isspace( *e)) e++;]: the characters from [b] up to
    [e]. *)
Fixpoint word_at (b : list ascii) : list ascii :=
  match b with
  | c :: rest => if isspace c then [] else c :: word_at rest
  | [] => []
  end.

(** The loop of [Environment::load_vm_options] over [RBXOPT],
<<
  while(b < s) {
    while( *b && isspace( *b)) b++;
    e = b;
    while( *e && !isspace( *e)) e++;
    if(e - b > 0) {
      if(strncmp(b, "-X", 2) == 0) {
        *e = 0;
        config_parser.import_line(b + 2);
      }
      b = e + 1;
    }
  }
>>
    on the characters from [b] to [s]: the lines it hands to
    [config_parser.import_line], in order.  [b = e + 1] is one after [s]
    when the word ends the string.  [fuel] bounds the turns. *)
Fixpoint rbxopt_loop (fuel : nat) (b : list ascii) : list (list ascii) :=
  match fuel with
  | O => []
  | S fuel =>
      if (0 <? length b)%nat then
        let b := skip_spaces b in
        let word := word_at b in
        if (0 <? length word)%nat then
          (if is_xflag word then [drop 2 word] else [])
          ++ rbxopt_loop fuel (drop (length word + 1) b)
        else rbxopt_loop fuel b
      else []
  end.

(** The options of [getenv("RBXOPT")]. *)
Definition rbxopt_options (rbxopt : option (list ascii)) : list (list ascii) :=
  match rbxopt with
  | Some s => rbxopt_loop (S (length s)) s
  | None => []
  end.

(** [fgets(buf, n, fp)] on what is left of the file: the characters up to
    the first newline, with it, and at most [n - 1] of them; and what is
    left then. *)
Fixpoint fgets_line (room : nat) (stream : list ascii) : list ascii * list ascii :=
  match room, stream with
  | S room, c :: rest =>
      if decide (c = "010"%char) then ([c], rest)
      else let '(line, rest) := fgets_line room rest in (c :: line, rest)
  | _, _ => ([], stream)
  end.

(** [buf] as a C string: what is before its first zero character. *)
Fixpoint c_str (buf : list ascii) : list ascii :=
  match buf with
  | c :: rest => if decide (c = zero) then [] else c :: c_str rest
  | [] => []
  end.

(** [RBX_CONFIG_FILE_LINE_MAX] *)
Definition RBX_CONFIG_FILE_LINE_MAX : nat := 256.

(** [read_config_file], on what is left of the file: the lines it hands to
    [config_parser.import_line], in order; [None] when it reads
    [buf[size-1]] of an empty [buf].  [fgets] returns null at the end of
    the file.  [fuel] bounds the turns. *)
Fixpoint read_config_loop (fuel : nat) (stream : list ascii) : option (list (list ascii)) :=
  match fuel with
  | O => Some []
  | S fuel =>
      if (0 <? length stream)%nat then
        let '(line, rest) := fgets_line (RBX_CONFIG_FILE_LINE_MAX - 1) stream in
        let buf := c_str line in
        match last buf with
        | None => None
        | Some c =>
            let buf := if decide (c = "010"%char) then removelast buf else buf in
            (λ options, (if is_xflag buf then [drop 2 buf] else []) ++ options)
              <$> read_config_loop fuel rest
        end
      else Some []
  end.

Definition read_config_file (file : list ascii) : option (list (list ascii)) :=
  read_config_loop (length file) file.

End Environment.

(* ===================================================================== *)
(** * Part II: the theorems                                               *)
(* ===================================================================== *)

(** ** Machine integers *)

Section MachineFacts.
Import Machine.

Lemma to_long_range z : - 2 ^ 63 ≤ to_long z < 2 ^ 63.
Proof.
  unfold to_long. pose proof (Z.mod_pos_bound z (2 ^ 64) ltac:(lia)).
  case_match; lia.
Qed.

Lemma to_long_congruent z : (to_long z - z) mod 2 ^ 64 = 0.
Proof.
  unfold to_long. case_match.
  - rewrite Zminus_mod_idemp_l, Z.sub_diag. done.
  - replace (z mod 2 ^ 64 - 2 ^ 64 - z) with (z mod 2 ^ 64 - z + (-1) * 2 ^ 64) by lia.
    rewrite Z.mod_add by lia. rewrite Zminus_mod_idemp_l, Z.sub_diag. done.
Qed.

Lemma to_long_representable z : - 2 ^ 63 ≤ z < 2 ^ 63 → to_long z = z.
Proof.
  intros Hz. pose proof (to_long_range z) as Hr.
  pose proof (to_long_congruent z) as Hc.
  apply Z.mod_divide in Hc; [|lia]. destruct Hc as [k Hk]. lia.
Qed.

Lemma to_long_of_ulong_difference a b :
  to_long (to_ulong a - to_ulong b) = to_long (a - b).
Proof.
  unfold to_long, to_ulong. rewrite <- Zminus_mod. done.
Qed.

Lemma to_ulong_small z : 0 ≤ z < 2 ^ 64 → to_ulong z = z.
Proof. intros. unfold to_ulong. apply Z.mod_small. lia. Qed.

End MachineFacts.

(** ** Raw allocation accounting *)

Section MallocFacts.
Import Machine Malloc.

Lemma decrement_spec counter bytes :
  decrement counter bytes = to_long (counter - bytes).
Proof. apply to_long_of_ulong_difference. Qed.

Lemma call_keeps_threshold (g : Globals) (c : Call) :
  gc_malloc_threshold (call g c) = gc_malloc_threshold g
  ∧ (0 < gc_malloc_threshold g → 0 < bytes_until_collection (call g c)).
Proof.
  assert (Hcall : call g c = account g (requested c)) by (by destruct c).
  rewrite Hcall. unfold account. cbn.
  destruct (Z.leb_spec (decrement (bytes_until_collection g) (requested c)) 0);
    cbn; split; try done; lia.
Qed.

(** C6.  Each call of [XMALLOC], [XREALLOC] or [XCALLOC] takes the requested
    byte count off [bytes_until_collection] (in 64-bit arithmetic: the new
    value is congruent to the difference and is the difference itself
    whenever that is a [long]); [run_gc_soon] is called, and with it the
    mature collection requested, exactly when the decremented counter is not
    positive, and the counter is then reset to [gc_malloc_threshold]; so the
    counter is positive after the call whenever the threshold is. *)
Theorem xmalloc_keeps_counter_positive (g : Globals) (c : Call) :
  let before := bytes_until_collection g in
  let decremented := decrement before (requested c) in
  let g' := call g c in
  (decremented - (before - requested c)) mod 2 ^ 64 = 0
  ∧ (- 2 ^ 63 ≤ before - requested c < 2 ^ 63 → decremented = before - requested c)
  ∧ (run_gc_soon_calls g' =
       if decremented <=? 0 then S (run_gc_soon_calls g) else run_gc_soon_calls g)
  ∧ (decremented ≤ 0 →
       collect_mature_now g' = true
       ∧ bytes_until_collection g' = gc_malloc_threshold g)
  ∧ (0 < decremented →
       collect_mature_now g' = collect_mature_now g
       ∧ bytes_until_collection g' = decremented)
  ∧ gc_malloc_threshold g' = gc_malloc_threshold g
  ∧ (0 < gc_malloc_threshold g → 0 < bytes_until_collection g').
Proof.
  intros before decremented g'.
  assert (Hcall : g' = account g (requested c)) by (by destruct c).
  split_and!.
  - unfold decremented. rewrite decrement_spec. apply to_long_congruent.
  - intros Hfits. unfold decremented. rewrite decrement_spec.
    by apply to_long_representable.
  - rewrite Hcall. unfold account. cbn. fold before. fold decremented.
    by destruct (decremented <=? 0).
  - intros Hle. rewrite Hcall. unfold account. cbn. fold before. fold decremented.
    by destruct (Z.leb_spec decremented 0); [|lia].
  - intros Hlt. rewrite Hcall. unfold account. cbn. fold before. fold decremented.
    by destruct (Z.leb_spec decremented 0); [lia|].
  - rewrite Hcall. unfold account. cbn. by case_match.
  - intros Hthr. rewrite Hcall. unfold account. cbn. fold before. fold decremented.
    by destruct (Z.leb_spec decremented 0).
Qed.

(** The counter stays positive along any sequence of calls. *)
Lemma calls_keep_counter_positive (g : Globals) (cs : list Call) :
  0 < gc_malloc_threshold g → cs ≠ [] →
  0 < bytes_until_collection (calls g cs)
  ∧ gc_malloc_threshold (calls g cs) = gc_malloc_threshold g.
Proof.
  intros Hthr Hne. induction cs as [|c cs IH] using rev_ind; [done|].
  unfold calls in *. rewrite foldl_snoc.
  assert (Hsame : gc_malloc_threshold (foldl call g cs) = gc_malloc_threshold g).
  { destruct cs as [|c0 cs0]; [done|]. by apply IH. }
  destruct (call_keeps_threshold (foldl call g cs) c) as (Hkeep & Hpos).
  split; [apply Hpos; lia | congruence].
Qed.

End MallocFacts.

(** ** The Immix sweep phase *)

Section ImmixFacts.
Import Machine Immix.

Lemma count_blocks_spec cBlockSize d bs :
  let d' := foldl (count_block cBlockSize) d bs in
  bytes_ d' = bytes_ d + foldr Z.add 0 (object_bytes <$> bs)
  ∧ total_bytes_ d' = total_bytes_ d + cBlockSize * Z.of_nat (length bs)
  ∧ collections_ d' = collections_ d.
Proof.
  revert d. induction bs as [|b bs IH]; intros d; cbn.
  - split_and!; lia.
  - destruct (IH (count_block cBlockSize d b)) as (Hb & Ht & Hc).
    cbn in *. split_and!; lia.
Qed.

(** C7, as the code has it.  After the sweep has counted the live object
    bytes and the block bytes over all blocks, [percentage_] is their
    quotient as a [double], and one chunk is added exactly when that
    quotient is at least [0.90]: the comparison of the source is [>=]. *)
Theorem sweep_extends_from_ninety_percent
    (cBlockSize : Z) (sweep_blocks : list Chunk → list Chunk)
    (new_chunk : Chunk) (gc : ImmixGC) :
  let gc' := sweep cBlockSize sweep_blocks new_chunk gc in
  let swept := sweep_blocks (chunks gc) in
  let d := diagnostics_ gc' in
  bytes_ d = foldr Z.add 0 (object_bytes <$> all_blocks swept)
  ∧ total_bytes_ d = cBlockSize * Z.of_nat (length (all_blocks swept))
  ∧ percentage_ d = (to_double (bytes_ d) / to_double (total_bytes_ d))%float
  ∧ (chunk_added cBlockSize sweep_blocks new_chunk gc = true
     ↔ PrimFloat.leb ninety_percent (percentage_ d) = true)
  ∧ chunks gc' =
      if PrimFloat.leb ninety_percent (percentage_ d) then swept ++ [new_chunk]
      else swept.
Proof.
  intros gc' swept d.
  assert (Hd : d = measure cBlockSize (collections_ (diagnostics_ gc)) swept).
  { unfold d, gc', sweep. fold swept. by case_match. }
  pose proof (count_blocks_spec cBlockSize
    (mkDiagnostics (collections_ (diagnostics_ gc)) (Z.of_nat (length swept)) 0 0 0 0 0%float)
    (all_blocks swept)) as Hcount.
  cbn zeta in Hcount. cbn in Hcount. destruct Hcount as (Hb & Ht & _).
  assert (Hwants : wants_chunk d = PrimFloat.leb ninety_percent (percentage_ d)) by done.
  split_and!.
  - rewrite Hd. unfold measure, fresh_diagnostics. cbn. lia.
  - rewrite Hd. unfold measure, fresh_diagnostics. cbn. lia.
  - rewrite Hd. done.
  - rewrite <- Hwants, Hd. unfold chunk_added, sweep. fold swept.
    generalize (measure cBlockSize (collections_ (diagnostics_ gc)) swept).
    intros m. destruct (wants_chunk m); cbn [chunks].
    + split; [done|]. intros _. rewrite length_app. apply Nat.ltb_lt. cbn. lia.
    + split; [|done]. rewrite Nat.ltb_irrefl. done.
  - rewrite <- Hwants, Hd. unfold gc', sweep. fold swept.
    generalize (measure cBlockSize (collections_ (diagnostics_ gc)) swept).
    intros m. by destruct (wants_chunk m).
Qed.

(** C7, as stated, fails on a heap that is live to exactly nine tenths: the
    fraction does not exceed 90%, and the sweep adds a chunk. *)
Lemma sweep_extends_at_exactly_ninety_percent :
  let d := diagnostics_ (sweep 32768 id [] nine_tenths_heap) in
  10 * bytes_ d = 9 * total_bytes_ d
  ∧ ¬ (chunk_added 32768 id [] nine_tenths_heap = true
       ↔ exceeds_ninety_percent (bytes_ d) (total_bytes_ d)).
Proof.
  vm_compute. split; [done|]. intros [Hadded _].
  specialize (Hadded eq_refl). discriminate Hadded.
Qed.

End ImmixFacts.

(** ** Object identity *)

Section IdentityFacts.
Import Machine Identity.
Context (id_bits : Z).

Local Abbreviation assign_object_id := (Identity.assign_object_id id_bits).
Local Abbreviation assign_object_ids := (Identity.assign_object_ids id_bits).

Lemma to_id_small z : 0 ≤ z < 2 ^ id_bits → to_id id_bits z = z.
Proof. intros Hz. unfold to_id. by apply Z.mod_small. Qed.

Lemma assign_object_id_keeps om obj :
  0 < object_id om obj → assign_object_id om obj = om.
Proof.
  intros Hid. unfold assign_object_id.
  by destruct (Z.ltb_spec 0 (object_id om obj)); [|lia].
Qed.

Lemma assign_object_id_fresh om obj :
  object_id om obj ≤ 0 →
  object_id (assign_object_id om obj) obj = to_id id_bits (last_object_id om)
  ∧ last_object_id (assign_object_id om obj) = to_ulong (last_object_id om + 1)
  ∧ ∀ other, other ≠ obj →
      object_id (assign_object_id om obj) other = object_id om other.
Proof.
  intros Hid. unfold assign_object_id.
  destruct (Z.ltb_spec 0 (object_id om obj)); [lia|].
  unfold object_id. cbn. split_and!; [|done|].
  - by rewrite lookup_insert_eq.
  - intros other Hother. by rewrite lookup_insert_ne.
Qed.

(** What a run of assignments does, by induction on the run. *)
Lemma assign_object_ids_spec objs : ∀ om,
  id_bits ≤ 64 →
  ids_below_counter om → 0 < last_object_id om →
  last_object_id om + Z.of_nat (length objs) < 2 ^ id_bits →
  let om' := (assign_object_ids om objs).1 in
  let log := (assign_object_ids om objs).2 in
  ids_below_counter om'
  ∧ last_object_id om ≤ last_object_id om'
  ∧ StronglySorted Z.lt log.*2
  ∧ Forall (λ entry, last_object_id om ≤ entry.2 < last_object_id om') log
  ∧ (∀ o, 0 < object_id om o → object_id om' o = object_id om o)
  ∧ (∀ o i, (o, i) ∈ log → object_id om' o = i ∧ object_id om o ≤ 0)
  ∧ (∀ o, object_id om' o = object_id om o ∨ (o, object_id om' o) ∈ log).
Proof.
  induction objs as [|obj rest IH]; intros om Hbits Hbelow Hpos Hroom.
  { cbn. split_and!.
    - done.
    - lia.
    - constructor.
    - constructor.
    - done.
    - intros ? ? Hin. by apply elem_of_nil in Hin.
    - by left. }
  cbn [assign_object_ids].
  destruct (assign_object_ids (assign_object_id om obj) rest) as [om2 log2] eqn:Hrun.
  cbn [length] in Hroom.
  destruct (Z.ltb_spec 0 (object_id om obj)) as [Hhas|Hnone].
  - rewrite assign_object_id_keeps in Hrun by done.
    specialize (IH om Hbits Hbelow Hpos ltac:(lia)). rewrite Hrun in IH. exact IH.
  - destruct (assign_object_id_fresh om obj Hnone) as (Hnew & Hlast & Hothers).
    assert (Hwide : 2 ^ id_bits ≤ 2 ^ 64).
    { destruct (Z.le_gt_cases 0 id_bits); [by apply Z.pow_le_mono_r|].
      rewrite Z.pow_neg_r by done. lia. }
    rewrite to_ulong_small in Hlast by lia.
    rewrite to_id_small in Hnew |- * by lia.
    set (om1 := assign_object_id om obj) in *.
    assert (Hbelow1 : ids_below_counter om1).
    { intros o. rewrite Hlast. destruct (decide (o = obj)) as [->|Hne].
      - rewrite Hnew. lia.
      - rewrite Hothers by done. specialize (Hbelow o). lia. }
    specialize (IH om1 Hbits Hbelow1 ltac:(lia) ltac:(lia)). rewrite Hrun in IH.
    cbn [fst snd] in IH |- *.
    destruct IH as (Hb2 & Hmono & Hsorted & Hrange & Hstay & Hlog & Hall).
    split_and!.
    + done.
    + lia.
    + cbn. constructor; [done|]. rewrite Forall_fmap.
      eapply Forall_impl; [exact Hrange|]. cbn. intros entry. lia.
    + constructor; [cbn; lia|]. eapply Forall_impl; [exact Hrange|]. cbn. intros entry. lia.
    + intros o Ho. assert (o ≠ obj) by (intros ->; lia).
      rewrite Hstay; rewrite Hothers; done.
    + intros o i Hin. apply elem_of_cons in Hin as [[= -> ->]|Hin].
      * split; [|done]. rewrite Hstay; [done|]. rewrite Hnew. lia.
      * destruct (Hlog o i Hin) as [Hi Hfree]. split; [done|].
        assert (o ≠ obj) by (intros ->; rewrite Hnew in Hfree; lia).
        by rewrite <- Hothers.
    + intros o. destruct (Hall o) as [Hsame|Hin].
      * destruct (decide (o = obj)) as [->|Hne].
        -- right. rewrite Hsame, Hnew. apply elem_of_cons. by left.
        -- left. by rewrite Hsame, Hothers.
      * right. apply elem_of_cons. by right.
Qed.

(** In a list of pairs that is strictly increasing in its second
    components, a second component determines the pair. *)
Lemma sorted_ids_determine_object (log : list (Z * Z)) o1 o2 i :
  StronglySorted Z.lt log.*2 → (o1, i) ∈ log → (o2, i) ∈ log → o1 = o2.
Proof.
  induction log as [|[o j] log IH]; intros Hsorted H1 H2.
  { by apply elem_of_nil in H1. }
  cbn in Hsorted. apply StronglySorted_inv in Hsorted as [Hsorted Hhead].
  rewrite Forall_fmap in Hhead. rewrite Forall_forall in Hhead.
  apply elem_of_cons in H1 as [[= -> ->]|H1]; apply elem_of_cons in H2 as [[= ->]|H2].
  - done.
  - specialize (Hhead _ H2). cbn in Hhead. lia.
  - subst. specialize (Hhead _ H1). cbn in Hhead. lia.
  - by apply IH.
Qed.


End IdentityFacts.

Section IdentityExamples.
Import Machine Identity.


End IdentityExamples.

(** ** The allocator facade *)

Section FacadeFacts.
Import Machine Facade.
Context {Young Immix MarkSweep : Type}.
Context `{GC : Collectors Young Immix MarkSweep}.

Local Abbreviation OM := (ObjectMemory Young Immix MarkSweep).

(** C1.  A request above [large_object_threshold] goes to the mark-sweep
    space alone.  Any other request tries the young allocator; when that
    returns null, [collect_young_now] is set and Immix is tried, and when
    that returns null too, mark-sweep.  Immix is asked for the low 32 bits of
    the byte count, [ImmixGC::allocate] taking a [uint32_t]: the whole count
    when the threshold is below 2^32.  [collect_mature_now] is raised when
    the Immix allocator reaches its last block; apart from that it is what
    the mark-sweep allocator leaves in it, and is untouched when neither is
    asked.  The result is null exactly when every collector on the route
    returned null. *)
Theorem allocate_object_routing (om : OM) (bytes : Z) :
  let r := allocate_object om bytes in
  let y := young_allocate (young_ om) bytes (collect_young_now om) in
  let i := immix_allocate (immix_ om) (to_uint32 bytes) in
  let raised := collect_mature_now om || i.2 in
  let m := mark_sweep_allocate (mark_sweep_ om) bytes (collect_mature_now om) in
  let overflow := mark_sweep_allocate (mark_sweep_ om) bytes raised in
  (large_object_threshold om < bytes →
     r.1 = m.1.1
     ∧ young_ r.2 = young_ om ∧ immix_ r.2 = immix_ om ∧ mark_sweep_ r.2 = m.1.2
     ∧ collect_young_now r.2 = collect_young_now om
     ∧ collect_mature_now r.2 = m.2)
  ∧ (bytes ≤ large_object_threshold om →
     young_ r.2 = y.1.2
     ∧ (0 ≤ bytes → large_object_threshold om < 2 ^ 32 → to_uint32 bytes = bytes)
     ∧ match y.1.1 with
       | Some obj =>
           r.1 = Some obj
           ∧ immix_ r.2 = immix_ om ∧ mark_sweep_ r.2 = mark_sweep_ om
           ∧ collect_young_now r.2 = y.2
           ∧ collect_mature_now r.2 = collect_mature_now om
       | None =>
           collect_young_now r.2 = true
           ∧ immix_ r.2 = i.1.2
           ∧ match i.1.1 with
             | Some obj =>
                 r.1 = Some obj
                 ∧ mark_sweep_ r.2 = mark_sweep_ om
                 ∧ collect_mature_now r.2 = raised
             | None =>
                 r.1 = overflow.1.1
                 ∧ mark_sweep_ r.2 = overflow.1.2
                 ∧ collect_mature_now r.2 = overflow.2
             end
       end)
  ∧ (r.1 = None ↔
       if large_object_threshold om <? bytes then m.1.1 = None
       else y.1.1 = None ∧ i.1.1 = None ∧ overflow.1.1 = None).
Proof.
  intros r y i raised m overflow. unfold r, allocate_object.
  unfold call_mark_sweep_allocate, call_young_allocate, call_immix_allocate,
    gc_soon_if_mature, last_block.
  assert (Hwhole : 0 ≤ bytes → large_object_threshold om < 2 ^ 32 →
                   bytes ≤ large_object_threshold om → to_uint32 bytes = bytes).
  { intros ? ? ?. unfold to_uint32. apply Z.mod_small. lia. }
  destruct (Z.ltb_spec (large_object_threshold om) bytes) as [Hlarge|Hsmall].
  - fold m. destruct m as [[[obj|] ms] flag]; cbn.
    + split_and!; [intros _ | intros; lia | split; intros; discriminate].
      destruct flag; (split_and!; reflexivity).
    + split_and!; [intros _ | intros; lia | done].
      split_and!; reflexivity.
  - fold y. destruct y as [[[obj|] yn] yflag]; cbn.
    + split_and!; [intros; lia | intros _; split_and!; try reflexivity; auto | ].
      split; [intros; discriminate | intros [? _]; discriminate].
    + fold i. subst raised overflow. destruct i as [[[obj|] im] last]; cbn.
      * split_and!; [intros; lia | intros _ | ].
        -- destruct last, (collect_mature_now om) eqn:Hmature; split_and!;
             try reflexivity; auto; cbn; by rewrite ?Hmature.
        -- split; [intros; discriminate | intros (_ & ? & _); discriminate].
      * destruct last; cbn.
        -- rewrite orb_true_r.
           destruct (mark_sweep_allocate (mark_sweep_ om) bytes true)
             as [[mobj ms] mflag]; cbn.
           split_and!; [intros; lia | intros _ | ].
           ++ destruct mflag; split_and!; try reflexivity; auto.
           ++ destruct mflag; cbn; (split; [intros ->; done | intros (_ & _ & ->); done]).
        -- rewrite orb_false_r.
           destruct (mark_sweep_allocate (mark_sweep_ om) bytes (collect_mature_now om))
             as [[mobj ms] mflag]; cbn.
           split_and!; [intros; lia | intros _ | ].
           ++ destruct mflag; split_and!; try reflexivity; auto.
           ++ destruct mflag; cbn; (split; [intros ->; done | intros (_ & _ & ->); done]).
Qed.

(** ** The collection driver *)

Lemma collect_young_events (om : OM) :
  events (collect_young om) = events om ++ [CollectYoung; FinishCollection]
  ∧ collect_young_now (collect_young om) = false.
Proof.
  unfold collect_young. destruct (young_collect _ _) as [h flag]. cbn.
  split; [by rewrite <- app_assoc | done].
Qed.

Lemma collect_mature_events (om : OM) :
  events (collect_mature om) =
    events om ++
      (if mature_gc_in_progress_ om then []
       else if mature_mark_concurrent_ om then [CollectMatureStart]
       else [CollectMature])
  ∧ collect_mature_now (collect_mature om) = false
  ∧ mature_mark_concurrent_ (collect_mature om) = mature_mark_concurrent_ om.
Proof.
  unfold collect_mature. cbn.
  destruct (mature_gc_in_progress_ om) eqn:Hprogress,
    (mature_mark_concurrent_ om) eqn:Hconcurrent; cbn;
    rewrite ?app_nil_r, ?Hconcurrent; done.
Qed.

Lemma collect_mature_finish_events (om : OM) :
  events (collect_mature_finish om) =
    events om ++ [CollectMatureFinish; FinishCollection].
Proof. unfold collect_mature_finish. cbn. rewrite <- app_assoc. done. Qed.

(** With the world stopped: the finalizer cycle starts, the young collection
    runs if its flag is up, then the mature collection if its flag is up by
    then, and the world restarts. *)
Lemma collect_stopped_events (om : OM) :
  let after_young :=
    if collect_young_now om then collect_young (emit StartCollection om)
    else emit StartCollection om in
  events (collect_stopped om) =
    events om ++ [StartCollection]
      ++ (if collect_young_now om then [CollectYoung; FinishCollection] else [])
      ++ (if collect_mature_now after_young then
            (if mature_gc_in_progress_ after_young then []
             else if mature_mark_concurrent_ after_young then [CollectMatureStart]
             else [CollectMature])
            ++ (if mature_mark_concurrent_ after_young then []
                else [CollectMatureFinish; FinishCollection])
          else [])
      ++ [RestartWorld].
Proof.
  intros after_young. unfold collect_stopped. cbn [emit events].
  change (collect_young_now (emit StartCollection om)) with (collect_young_now om).
  fold after_young.
  assert (Hyoung : events after_young =
    events om ++ [StartCollection]
      ++ (if collect_young_now om then [CollectYoung; FinishCollection] else [])).
  { unfold after_young. destruct (collect_young_now om).
    - destruct (collect_young_events (emit StartCollection om)) as [-> _].
      cbn. by rewrite <- app_assoc.
    - cbn. done. }
  destruct (collect_mature_now after_young).
  - destruct (collect_mature_events after_young) as (Hev & _ & Hconc).
    rewrite Hconc. destruct (mature_mark_concurrent_ after_young).
    + rewrite Hev, Hyoung. rewrite app_nil_r. by rewrite <- !app_assoc.
    + rewrite collect_mature_finish_events, Hev, Hyoung. by rewrite <- !app_assoc.
  - rewrite Hyoung. cbn. by rewrite <- !app_assoc.
Qed.

(** How the loop over [stop_the_world] ends: at the first checkpoint that
    returns with nothing pending the call returns; when there is none, the
    world is stopped after the last failed attempt and the collection
    runs. *)
Lemma stop_and_collect_outcome (peers : list (OM → OM)) : ∀ om : OM,
  ∃ k : nat,
    let after (j : nat) := foldl failed_attempt om (take j peers) in
    (k ≤ length peers)%nat
    ∧ (∀ j, (0 < j < k)%nat → nothing_pending (after j) = false)
    ∧ ((0 < k)%nat ∧ nothing_pending (after k) = true
         ∧ stop_and_collect peers om = after k
       ∨ k = length peers
         ∧ ((0 < k)%nat → nothing_pending (after k) = false)
         ∧ stop_and_collect peers om = collect_stopped (emit (StopTheWorld true) (after k))).
Proof.
  induction peers as [|peer peers IH]; intros om.
  - exists 0%nat. cbn. split; [done|]. split; [intros; lia|]. right.
    split_and!; [done|intros; lia|done].
  - cbn [stop_and_collect].
    destruct (nothing_pending (failed_attempt om peer)) eqn:Hpending.
    + exists 1%nat. cbn. split; [lia|]. split; [intros; lia|].
      left. split_and!; [lia|done|done].
    + destruct (IH (failed_attempt om peer)) as (k & Hk & Hbefore & Hcases).
      exists (S k). cbn zeta in *. cbn [length take foldl]. split; [lia|].
      assert (Hstep : ∀ j, (0 < j)%nat → (j ≤ S k)%nat →
        foldl failed_attempt om (take j (peer :: peers))
        = foldl failed_attempt (failed_attempt om peer) (take (j - 1) peers)).
      { intros [|j] ? ?; [lia|]. cbn. by rewrite Nat.sub_0_r. }
      split.
      * intros j Hj. rewrite Hstep by lia.
        destruct (decide (j = 1%nat)) as [->|Hne]; [done|].
        apply Hbefore. lia.
      * destruct Hcases as [(? & ? & ?)|(-> & Hlast & ?)].
        -- left. split_and!; [lia|done|done].
        -- right. split_and!; [done| |done].
           intros _. destruct (decide (length peers = 0%nat)) as [Hnil|Hsome].
           ++ rewrite Hnil. done.
           ++ apply Hlast. lia.
Qed.

(** C2, as the code has it.  [collect_maybe] returns at once, changing
    nothing, when GC is not allowed or neither flag is up.  Otherwise it
    tries to stop the world, and checkpoints after each failed attempt; at
    the first checkpoint after which neither flag is up any more (a peer
    driver did the collection) it returns, without collecting and without
    restarting the world.  When after every checkpoint a flag is still up,
    the world is stopped in the end: the call starts the finalizer cycle,
    runs the young collection if [collect_young_now] is up, then the mature
    collection if [collect_mature_now] is up, and restarts the world.
    [k] is the number of attempts that failed. *)
Theorem collect_maybe_driver (peers : list (OM → OM)) (om : OM) :
  (allow_gc_ om = false ∨ collect_young_now om = false ∧ collect_mature_now om = false →
     collect_maybe peers om = om)
  ∧ (allow_gc_ om = true →
     collect_young_now om = true ∨ collect_mature_now om = true →
     ∃ k : nat,
       let after (j : nat) := foldl failed_attempt om (take j peers) in
       let om_k := after k in
       (k ≤ length peers)%nat
       ∧ (∀ j, (0 < j < k)%nat → nothing_pending (after j) = false)
       ∧ ((0 < k)%nat
            ∧ collect_young_now om_k = false ∧ collect_mature_now om_k = false
            ∧ collect_maybe peers om = om_k
          ∨ k = length peers
            ∧ ((0 < k)%nat → nothing_pending om_k = false)
            ∧ let stopped := emit (StopTheWorld true) om_k in
              let after_young :=
                if collect_young_now stopped
                then collect_young (emit StartCollection stopped)
                else emit StartCollection stopped in
              collect_maybe peers om = collect_stopped stopped
              ∧ events (collect_maybe peers om) =
                  events om_k ++ [StopTheWorld true; StartCollection]
                    ++ (if collect_young_now om_k
                        then [CollectYoung; FinishCollection] else [])
                    ++ (if collect_mature_now after_young then
                          (if mature_gc_in_progress_ after_young then []
                           else if mature_mark_concurrent_ after_young
                                then [CollectMatureStart]
                           else [CollectMature])
                          ++ (if mature_mark_concurrent_ after_young then []
                              else [CollectMatureFinish; FinishCollection])
                        else [])
                    ++ [RestartWorld])).
Proof.
  split.
  - intros [Hgc|[Hy Hm]]; unfold collect_maybe, nothing_pending.
    + by rewrite Hgc.
    + rewrite Hy, Hm. by destruct (allow_gc_ om).
  - intros Hgc Hflag. unfold collect_maybe. rewrite Hgc. cbn.
    assert (Hpending : nothing_pending om = false).
    { unfold nothing_pending. destruct Hflag as [-> | ->]; [done|].
      by destruct (collect_young_now om). }
    rewrite Hpending.
    destruct (stop_and_collect_outcome peers om) as (k & Hk & Hbefore & Hcases).
    exists k. cbn zeta in *. split; [done|]. split; [done|].
    destruct Hcases as [(Hpos & Hnone & Hres)|(-> & Hlast & Hres)].
    + left. unfold nothing_pending in Hnone.
      apply andb_true_iff in Hnone as [Hy Hm].
      apply negb_true_iff in Hy, Hm. done.
    + right. split; [done|]. split; [done|]. split; [done|]. rewrite Hres.
      rewrite collect_stopped_events. cbn [emit events collect_young_now].
      by rewrite <- !app_assoc.
Qed.

End FacadeFacts.

(** C2, as stated, fails when a peer is already driving a collection: GC is
    allowed and the young flag is up, and yet the call neither stops the
    world, nor runs the young collection, nor restarts the world. *)
Lemma collect_maybe_yields_to_peer_driver :
  let om' := Facade.collect_maybe [Facade.peer_collects] Facade.pending_young in
  Facade.allow_gc_ Facade.pending_young = true
  ∧ Facade.collect_young_now Facade.pending_young = true
  ∧ (Facade.StopTheWorld true ∉ Facade.events om')
  ∧ (Facade.CollectYoung ∉ Facade.events om')
  ∧ (Facade.RestartWorld ∉ Facade.events om').
Proof.
  vm_compute. split_and!; try done; intros Hin;
    repeat (apply elem_of_cons in Hin as [Hin|Hin]; [discriminate Hin|]);
    by apply elem_of_nil in Hin.
Qed.

(** ** The header word and its inflation *)

Section HeaderFacts.
Import Machine Header.
Context `{OOP : Oop}.
Local Open Scope prog_scope.

(** *** Running programs *)

(** One step of symbolic execution: the interpreter, the atomic actions and
    the memory's setters are unfolded, the loops are not. *)
Ltac run_step :=
  cbn [run bind load allocate modify acquire release atomic_set lookup_header
       allocated logged set_header set_inflated_headers
       header inflated_headers_ others log fst snd negb].

Lemma run_bind {A B} (p : Prog A) (k : A → Prog B) : ∀ m,
  run (bind p k) m =
    match run p m with
    | Some (a, m') => run (k a) m'
    | None => None
    end.
Proof.
  induction p as [a| |c IH|e n c IH|c IH|i c IH|i f c IH|l c IH|l c IH|i t timed intr c IH];
    intros m; cbn; try done.
  - case_decide; apply IH.
  - destruct (inflated_headers_ m !! i); [|apply IH].
    destruct (lock_mutex _ _ _ _). apply IH.
Qed.

(** What a turn of the others leaves alone when they only change the bits
    beside the meaning and the auxiliary word. *)
Lemma interfered_keeps_meaning m :
  Forall keeps_meaning (others m) →
  meaning (header (interfered m)) = meaning (header m)
  ∧ aux_word (header (interfered m)) = aux_word (header m)
  ∧ Forall keeps_meaning (others (interfered m)).
Proof.
  intros Hquiet. unfold interfered. destruct (others m) as [|f rest] eqn:Hothers.
  - rewrite Hothers. done.
  - apply Forall_cons in Hquiet as [Hf Hrest]. cbn. destruct (Hf (header m)). done.
Qed.

Lemma interfered_frame m :
  inflated_headers_ (interfered m) = inflated_headers_ m
  ∧ log (interfered m) = log m
  ∧ (length (others (interfered m)) ≤ length (others m))%nat.
Proof.
  unfold interfered. destruct (others m) as [|f rest] eqn:Hothers; cbn.
  - rewrite Hothers. done.
  - split_and!; [done|done|lia].
Qed.

(** A turn that changes the header has used up one entry of [others]. *)
Lemma interfered_progress m :
  header (interfered m) ≠ header m →
  (length (others (interfered m)) < length (others m))%nat.
Proof.
  unfold interfered. destruct (others m) as [|f rest] eqn:Hothers; cbn.
  - done.
  - lia.
Qed.

Lemma interfered_alone m : others m = [] → interfered m = m.
Proof. intros Hnone. unfold interfered. by rewrite Hnone. Qed.

Lemma inflated_by_meaning h h' :
  meaning h' = meaning h → inflated h' = inflated h.
Proof. unfold inflated. by intros ->. Qed.

(** *** Inflation of a thin lock by its owner *)

(** The loop of [inflate_and_lock] installs the record as soon as the others
    leave the header alone for one swap. *)
Lemma inflate_and_lock_loop_installs fuel : ∀ m ih orig,
  header m = orig → inflated orig = false →
  Forall keeps_meaning (others m) → (length (others m) < fuel)%nat →
  ∃ m', run (inflate_and_lock_loop fuel ih orig) m = Some (true, m')
    ∧ inflated_headers_ m' = inflated_headers_ m
    ∧ meaning (header m') = eAuxWordInflated
    ∧ aux_word (header m') = Z.of_nat ih.
Proof.
  induction fuel as [|fuel IH]; intros m ih orig Hhdr Hthin Hquiet Hfuel; [lia|].
  cbn [inflate_and_lock_loop]. rewrite run_bind.
  unfold set_inflated_header. rewrite Hthin. cbn [atomic_set run].
  destruct (interfered_keeps_meaning m Hquiet) as (Hm1 & Ha1 & Hq1).
  destruct (interfered_frame m) as (Ht1 & _ & Hl1).
  set (m1 := interfered m) in *.
  destruct (decide (header m1 = orig)) as [Hsame|Hchanged].
  - cbn. eexists. split; [done|]. cbn. done.
  - assert (Hshort : (length (others m1) < length (others m))%nat).
    { apply interfered_progress. fold m1. congruence. }
    cbn [run]. cbn [load bind run].
    set (m2 := logged _ m1).
    assert (Hq2 : Forall keeps_meaning (others m2)) by done.
    destruct (interfered_keeps_meaning m2 Hq2) as (Hm3 & Ha3 & Hq3).
    destruct (interfered_frame m2) as (Ht3 & _ & Hl3).
    set (m3 := interfered m2) in *.
    assert (Hmeaning : meaning (header m3) = meaning orig).
    { rewrite Hm3. cbn. rewrite Hm1. by rewrite Hhdr. }
    rewrite bool_decide_eq_false_2 by (intros Hne; by apply Hne).
    cbn [load bind run].
    set (m4 := logged _ m3).
    assert (Hq4 : Forall keeps_meaning (others m4)) by done.
    destruct (interfered_keeps_meaning m4 Hq4) as (Hm5 & Ha5 & Hq5).
    destruct (interfered_frame m4) as (Ht5 & _ & Hl5).
    set (m5 := interfered m4) in *.
    assert (Hthin5 : inflated (header m5) = false).
    { rewrite <- Hthin. apply inflated_by_meaning. rewrite Hm5. done. }
    rewrite Hthin5.
    destruct (IH (logged (Loaded (header m5)) m5) ih (header m5)) as (m' & Hrun & Ht & Hmn & Hax).
    + done.
    + done.
    + done.
    + cbn. cbn in Hl3, Hl5. lia.
    + exists m'. split; [done|]. split_and!; [|done|done].
      rewrite Ht. cbn. rewrite Ht5. cbn. rewrite Ht3. cbn. done.
Qed.

(** The same for the loop of [inflate_lock_count_overflow], which
    re-initializes the record's mutex on every turn. *)
Lemma inflate_lock_count_overflow_loop_installs fuel : ∀ m thread_id count ih orig r,
  header m = orig → inflated orig = false →
  Forall keeps_meaning (others m) → (length (others m) < fuel)%nat →
  inflated_headers_ m !! ih = Some r →
  owner_id_ r = thread_id → rec_lock_count_ r = count →
  ∃ m' r',
    run (inflate_lock_count_overflow_loop fuel thread_id count ih orig) m = Some (true, m')
    ∧ meaning (header m') = eAuxWordInflated
    ∧ aux_word (header m') = Z.of_nat ih
    ∧ inflated_headers_ m' !! ih = Some r'
    ∧ owner_id_ r' = thread_id ∧ rec_lock_count_ r' = count.
Proof.
  induction fuel as [|fuel IH];
    intros m thread_id count ih orig r Hhdr Hthin Hquiet Hfuel Hr Howner Hcount; [lia|].
  cbn [inflate_lock_count_overflow_loop]. rewrite run_bind.
  unfold set_inflated_header. rewrite Hthin. cbn [atomic_set run].
  destruct (interfered_keeps_meaning m Hquiet) as (Hm1 & Ha1 & Hq1).
  destruct (interfered_frame m) as (Ht1 & _ & Hl1).
  set (m1 := interfered m) in *.
  destruct (decide (header m1 = orig)) as [Hsame|Hchanged].
  - cbn. exists (logged (Swapped orig
      (set_aux_word (Z.of_nat ih) (set_meaning eAuxWordInflated orig)) true)
      (set_header (set_aux_word (Z.of_nat ih) (set_meaning eAuxWordInflated orig)) m1)), r.
    cbn. rewrite Ht1. split_and!; done.
  - assert (Hshort : (length (others m1) < length (others m))%nat).
    { apply interfered_progress. fold m1. congruence. }
    cbn [run]. cbn [load bind run].
    set (m2 := logged _ m1).
    assert (Hq2 : Forall keeps_meaning (others m2)) by done.
    destruct (interfered_keeps_meaning m2 Hq2) as (Hm3 & Ha3 & Hq3).
    destruct (interfered_frame m2) as (Ht3 & _ & Hl3).
    set (m3 := interfered m2) in *.
    assert (Hthin3 : inflated (header m3) = false).
    { rewrite <- Hthin. apply inflated_by_meaning. rewrite Hm3. cbn. rewrite Hm1.
      by rewrite Hhdr. }
    rewrite Hthin3. cbn [modify bind run].
    match goal with |- context [run _ ?m4] => set (m5 := m4) end.
    assert (Hlookup : inflated_headers_ m5 !! ih
      = Some (initialize_mutex thread_id count (update (header m3) r))).
    { unfold m5. cbn. rewrite !list_lookup_alter_eq. rewrite Ht3. cbn. rewrite Ht1.
      rewrite Hr. done. }
    destruct (IH m5 thread_id count ih (header m3)
                (initialize_mutex thread_id count (update (header m3) r)))
      as (m' & r' & Hrun & Hrest); try done.
    + unfold m5. cbn. cbn in Hl3. lia.
    + exists m', r'. split; [exact Hrun | exact Hrest].
Qed.

(** C5, as the code has it.  A thin lock held by the calling thread survives
    inflation with its owner.  [inflate_and_lock] gives the inflated mutex
    the recursion count the thin lock's auxiliary word encodes;
    [inflate_lock_count_overflow] gives it the count its caller passes. *)
Theorem thin_lock_survives_inflation
    (m : Memory) (fuel : nat) (thread_id which_mark count : Z) :
  meaning (header m) = eAuxWordLock →
  lock_owner (header m) = thread_id →
  Forall keeps_meaning (others m) → (length (others m) < fuel)%nat →
  let ih := length (inflated_headers_ m) in
  (∃ m' r,
     run (inflate_and_lock fuel thread_id which_mark) m = Some (true, m')
     ∧ meaning (header m') = eAuxWordInflated ∧ index_of (header m') = ih
     ∧ inflated_headers_ m' !! ih = Some r
     ∧ owner_id_ r = thread_id
     ∧ rec_lock_count_ r = lock_count (header m))
  ∧ (∃ m' r,
     run (inflate_lock_count_overflow fuel thread_id which_mark count) m = Some (true, m')
     ∧ meaning (header m') = eAuxWordInflated ∧ index_of (header m') = ih
     ∧ inflated_headers_ m' !! ih = Some r
     ∧ owner_id_ r = thread_id
     ∧ rec_lock_count_ r = count).
Proof.
  intros Hlock Howner Hquiet Hfuel ih.
  destruct (interfered_keeps_meaning (logged (Acquired inflation_lock_) m) Hquiet)
    as (Hm1 & Ha1 & Hq1).
  destruct (interfered_frame (logged (Acquired inflation_lock_) m)) as (Ht1 & _ & Hl1).
  cbn in Hm1, Ha1, Ht1, Hl1.
  assert (Hthin : inflated (header (interfered (logged (Acquired inflation_lock_) m))) = false).
  { unfold inflated. rewrite Hm1, Hlock. done. }
  assert (Howner1 :
    lock_owner (header (interfered (logged (Acquired inflation_lock_) m))) = thread_id).
  { unfold lock_owner in *. by rewrite Ha1. }
  split.
  - unfold inflate_and_lock, guarded. run_step.
    set (m1 := interfered _) in *.
    rewrite Hm1, Hlock. rewrite bool_decide_eq_false_2 by (intros Hne; by apply Hne).
    unfold inflate_and_lock_install. run_step. rewrite run_bind.
    rewrite Ht1. fold ih.
    match goal with |- context [run (inflate_and_lock_loop _ _ _) ?m2] => set (m3 := m2) end.
    destruct (inflate_and_lock_loop_installs fuel m3 ih (header m1))
      as (m' & Hrun & Ht & Hmn & Hax); try done.
    { unfold m3. cbn. lia. }
    rewrite Hrun. run_step.
    eexists _, _. split; [done|]. run_step. rewrite Hmn. split; [done|].
    unfold index_of. rewrite Hax, Nat2Z.id. split; [done|].
    rewrite Ht. unfold m3. run_step. rewrite !list_lookup_alter_eq.
    rewrite lookup_app_r by done. rewrite Nat.sub_diag. cbn.
    split_and!; [done|done|]. unfold lock_count. by rewrite Ha1.
  - unfold inflate_lock_count_overflow, guarded. run_step.
    set (m1 := interfered _) in *.
    rewrite Hthin. run_step. rewrite run_bind.
    rewrite Ht1. fold ih.
    match goal with |- context [run (inflate_lock_count_overflow_loop _ _ _ _ _) ?m2] =>
      set (m3 := m2) end.
    destruct (inflate_lock_count_overflow_loop_installs fuel m3 thread_id count ih (header m1)
                (mark which_mark (initialize_mutex thread_id count
                   (update (header m1) (mkInflatedHeader 0 0 0 0 0)))))
      as (m' & r' & Hrun & Hmn & Hax & Hr' & Ho' & Hc'); try done.
    { unfold m3. cbn. lia. }
    { unfold m3. run_step. rewrite !list_lookup_alter_eq.
      rewrite lookup_app_r by done. rewrite Nat.sub_diag. done. }
    rewrite Hrun. run_step.
    exists (logged (Released inflation_lock_) m'), r'. run_step.
    unfold index_of. rewrite Hax, Nat2Z.id. split_and!; done.
Qed.

(** *** Inflation for contention *)

Lemma clear_lock_contended_clears retries : ∀ m,
  Forall keeps_meaning (others m) → (length (others m) < retries)%nat →
  ∃ m', run (clear_lock_contended retries) m = Some (tt, m')
    ∧ meaning (header m') = meaning (header m)
    ∧ aux_word (header m') = aux_word (header m)
    ∧ LockContended (header m') = false
    ∧ inflated_headers_ m' = inflated_headers_ m.
Proof.
  induction retries as [|retries IH]; intros m Hquiet Hfuel; [lia|].
  cbn [clear_lock_contended]. run_step.
  destruct (interfered_keeps_meaning m Hquiet) as (Hm1 & Ha1 & Hq1).
  destruct (interfered_frame m) as (Ht1 & _ & Hl1).
  set (m1 := interfered m) in *.
  set (m2 := mkMemory (header m1) (inflated_headers_ m1) (others m1)
                      (Loaded (header m1) :: log m1)).
  assert (Hq2 : Forall keeps_meaning (others m2)) by done.
  destruct (interfered_keeps_meaning m2 Hq2) as (Hm3 & Ha3 & Hq3).
  destruct (interfered_frame m2) as (Ht3 & _ & Hl3).
  change (interfered _) with (interfered m2).
  set (m3 := interfered m2) in *.
  destruct (decide (header m3 = header m1)) as [Hsame|Hchanged].
  - run_step. eexists. split; [done|]. run_step. cbn. rewrite Ht3. cbn.
    split_and!; done.
  - assert (Hshort : (length (others m3) < length (others m2))%nat).
    { apply interfered_progress. fold m3. done. }
    run_step.
    match goal with |- context [run _ ?m4] => set (m5 := m4) end.
    destruct (IH m5) as (m' & Hrun & Hmn & Hax & Hc & Ht).
    + done.
    + unfold m5. cbn. cbn in Hshort, Hl1. lia.
    + exists m'. split; [done|]. rewrite Hmn, Hax, Ht. unfold m5. cbn.
      rewrite Hm3, Ha3, Ht3. cbn. split_and!; done.
Qed.

Lemma inflate_for_contention_loop_unlocks fuel : ∀ m retries thread_id which_mark,
  meaning (header m) = eAuxWordLock → lock_owner (header m) = thread_id →
  Forall keeps_meaning (others m) →
  (length (others m) < fuel)%nat → (length (others m) < retries)%nat →
  ∃ m' r,
    run (inflate_for_contention_loop fuel retries thread_id which_mark) m = Some (true, m')
    ∧ meaning (header m') = eAuxWordInflated
    ∧ LockContended (header m') = false
    ∧ inflated_headers_ m' !! index_of (header m') = Some r
    ∧ owner_id_ r = 0 ∧ rec_lock_count_ r = 0 ∧ mark_ r = which_mark.
Proof.
  induction fuel as [|fuel IH];
    intros m retries thread_id which_mark Hlock Howner Hquiet Hfuel Hretries; [lia|].
  cbn [inflate_for_contention_loop]. run_step.
  destruct (interfered_keeps_meaning m Hquiet) as (Hm1 & Ha1 & Hq1).
  destruct (interfered_frame m) as (Ht1 & _ & Hl1).
  set (m1 := interfered m) in *.
  rewrite Hm1, Hlock.
  assert (Howner1 : lock_owner (header m1) = thread_id).
  { unfold lock_owner in *. by rewrite Ha1. }
  rewrite bool_decide_eq_false_2 by (intros Hne; by apply Hne).
  run_step. unfold set_inflated_header.
  assert (Hthin : inflated (header m1) = false).
  { unfold inflated. rewrite Hm1, Hlock. done. }
  rewrite Hthin. run_step.
  set (ih := length (inflated_headers_ m1)).
  match goal with |- context [interfered ?m2'] => set (m2 := m2') end.
  assert (Hq2 : Forall keeps_meaning (others m2)) by done.
  destruct (interfered_keeps_meaning m2 Hq2) as (Hm3 & Ha3 & Hq3).
  destruct (interfered_frame m2) as (Ht3 & _ & Hl3).
  set (m3 := interfered m2) in *.
  destruct (decide (header m3 = header m1)) as [Hsame|Hchanged].
  - run_step. rewrite run_bind.
    match goal with |- context [run (clear_lock_contended _) ?m4] => set (m5 := m4) end.
    destruct (clear_lock_contended_clears retries m5) as (m' & Hrun & Hmn & Hax & Hc & Ht).
    + done.
    + unfold m5. cbn. cbn in Hl3. lia.
    + rewrite Hrun. run_step. eexists _, _. split; [done|].
      rewrite Hmn, Hc. unfold index_of. rewrite Hax, Ht. unfold m5. cbn.
      rewrite Nat2Z.id. rewrite Ht3. unfold m2. cbn. fold ih.
      rewrite list_lookup_alter_eq. rewrite lookup_app_r by done.
      rewrite Nat.sub_diag. cbn. split_and!; done.
  - assert (Hshort : (length (others m3) < length (others m2))%nat).
    { apply interfered_progress. fold m3. done. }
    run_step.
    match goal with |- context [run _ ?m4] => set (m5 := m4) end.
    destruct (IH m5 retries thread_id which_mark) as (m' & r & Hrun & Hrest).
    + unfold m5. cbn. rewrite Hm3. cbn. by rewrite Hm1.
    + unfold m5, lock_owner. cbn. rewrite Ha3. cbn. done.
    + done.
    + unfold m5. cbn. cbn in Hshort, Hl1. lia.
    + unfold m5. cbn. cbn in Hshort, Hl1. lia.
    + exists m', r. split; [exact Hrun | exact Hrest].
Qed.

(** C10.  Called on a header thin-locked by the calling thread, while the
    other threads leave meaning and auxiliary word alone,
    [inflate_for_contention] returns true; the header is then inflated, its
    contended bit is clear, and the mutex of its side record has neither
    owner nor recursion count: the lock is released with the inflation.
    When the thin lock is another thread's, the call returns false and has
    done nothing but read the header. *)
Theorem inflate_for_contention_unlocks
    (m : Memory) (fuel : nat) (thread_id which_mark : Z) :
  meaning (header m) = eAuxWordLock →
  Forall keeps_meaning (others m) → (length (others m) < fuel)%nat →
  (lock_owner (header m) = thread_id →
     ∃ m' r,
       run (inflate_for_contention fuel thread_id which_mark) m = Some (true, m')
       ∧ meaning (header m') = eAuxWordInflated
       ∧ LockContended (header m') = false
       ∧ inflated_headers_ m' !! index_of (header m') = Some r
       ∧ owner_id_ r = 0 ∧ rec_lock_count_ r = 0)
  ∧ (lock_owner (header m) ≠ thread_id →
     ∃ m',
       run (inflate_for_contention fuel thread_id which_mark) m = Some (false, m')
       ∧ header m' = header (interfered m)
       ∧ inflated_headers_ m' = inflated_headers_ m
       ∧ log m' = Released inflation_lock_ :: Loaded (header m')
                    :: Acquired inflation_lock_ :: log m).
Proof.
  intros Hlock Hquiet Hfuel. split; intros Howner.
  - unfold inflate_for_contention, guarded. run_step. rewrite run_bind.
    destruct (inflate_for_contention_loop_unlocks fuel
                (logged (Acquired inflation_lock_) m) fuel thread_id which_mark)
      as (m' & r & Hrun & Hmn & Hc & Hr & Ho & Hcount & _); try done.
    rewrite Hrun. run_step. eexists _, _. split; [done|]. run_step.
    split_and!; done.
  - unfold inflate_for_contention, guarded. run_step.
    destruct fuel as [|fuel]; [lia|]. cbn [inflate_for_contention_loop]. run_step.
    destruct (interfered_keeps_meaning (logged (Acquired inflation_lock_) m) Hquiet)
      as (Hm1 & Ha1 & _).
    destruct (interfered_frame (logged (Acquired inflation_lock_) m)) as (Ht1 & Hlog1 & _).
    change (mkMemory (header m) (inflated_headers_ m) (others m)
              (Acquired inflation_lock_ :: log m))
      with (logged (Acquired inflation_lock_) m).
    set (m1 := interfered _) in *.
    rewrite Hm1. cbn. rewrite Hlock.
    rewrite bool_decide_eq_true_2 by (unfold lock_owner in *; by rewrite Ha1).
    run_step. eexists. split; [done|]. run_step.
    split_and!; [|done|by rewrite Hlog1].
    unfold m1, interfered. cbn. by destruct (others m).
Qed.

(** *** Contending for a thin lock *)

Lemma set_meaning_same h x : meaning h = x → set_meaning x h = h.
Proof. intros <-. by destruct h. Qed.

Lemma register_contention_registers fuel : ∀ m,
  meaning (header m) = eAuxWordLock →
  Forall keeps_meaning (others m) → (length (others m) < fuel)%nat →
  ∃ m' read,
    run (register_contention fuel) m = Some (None, m')
    ∧ meaning read = eAuxWordLock ∧ aux_word read = aux_word (header m)
    ∧ header m' = set_LockContended true read
    ∧ writes (log m') = (read, set_LockContended true read) :: writes (log m)
    ∧ inflated_headers_ m' = inflated_headers_ m
    ∧ Forall keeps_meaning (others m')
    ∧ (others m = [] → read = header m ∧ others m' = []).
Proof.
  induction fuel as [|fuel IH]; intros m Hlock Hquiet Hfuel; [lia|].
  cbn [register_contention]. run_step.
  destruct (interfered_keeps_meaning m Hquiet) as (Hm1 & Ha1 & Hq1).
  destruct (interfered_frame m) as (Ht1 & Hlog1 & Hl1).
  set (m1 := interfered m) in *.
  rewrite (set_meaning_same (header m1)) by (by rewrite Hm1).
  match goal with |- context [interfered ?m2'] => set (m2 := m2') end.
  assert (Hq2 : Forall keeps_meaning (others m2)) by done.
  destruct (interfered_keeps_meaning m2 Hq2) as (Hm3 & Ha3 & Hq3).
  destruct (interfered_frame m2) as (Ht3 & Hlog3 & Hl3).
  set (m3 := interfered m2) in *.
  destruct (decide (header m3 = header m1)) as [Hsame|Hchanged].
  - run_step. eexists _, (header m1). split; [done|]. run_step.
    rewrite Hlog3, Ht3. unfold m2. cbn. rewrite Hlog1, Hm1, Hlock.
    split_and!; try done.
    intros Hnone. unfold m3, m2, m1. rewrite (interfered_alone m Hnone).
    rewrite interfered_alone by done. done.
  - assert (Hshort : (length (others m3) < length (others m2))%nat).
    { apply interfered_progress. fold m3. done. }
    run_step.
    match goal with |- context [interfered ?m4'] => set (m4 := m4') end.
    assert (Hq4 : Forall keeps_meaning (others m4)) by done.
    destruct (interfered_keeps_meaning m4 Hq4) as (Hm5 & Ha5 & Hq5).
    destruct (interfered_frame m4) as (Ht5 & Hlog5 & Hl5).
    set (m5 := interfered m4) in *.
    assert (Hlock5 : meaning (header m5) = eAuxWordLock).
    { rewrite Hm5. unfold m4. cbn. rewrite Hm3. unfold m2. cbn. by rewrite Hm1. }
    unfold inflated at 1. rewrite Hlock5.
    rewrite bool_decide_eq_false_2 by done.
    rewrite bool_decide_eq_false_2
      by (intros Hne; apply Hne; cbn; by rewrite Hm1).
    match goal with |- context [run _ ?m6'] => set (m6 := m6') end.
    destruct (IH m6) as (m' & read & Hrun & Hr1 & Hr2 & Hh & Hw & Ht & Hq & _).
    + done.
    + done.
    + unfold m6. cbn. cbn in Hl5, Hshort, Hl1. lia.
    + exists m', read. split; [done|]. rewrite Hr2, Hw, Ht. unfold m6. cbn.
      rewrite Ha5, Hlog5, Ht5. unfold m4. cbn. rewrite Ha3, Hlog3, Ht3. unfold m2. cbn.
      rewrite Hlog1. split_and!; try done.
      intros Hnone. exfalso. cbn in Hshort.
      assert (others m1 = []) by (unfold m1; by rewrite interfered_alone).
      destruct (others m1); [cbn in Hshort; lia | done].
Qed.

Lemma wait_for_inflation_times_out wakeups : ∀ m interrupt,
  meaning (header m) = eAuxWordLock →
  Forall keeps_meaning (others m) →
  interrupt = false
    ∨ Forall (λ w, check_local_interrupts w && interrupted_exception w = false) wakeups →
  ∃ m',
    run (wait_for_inflation wakeups true interrupt) m = Some (TimedOut, m')
    ∧ meaning (header m') = eAuxWordLock
    ∧ aux_word (header m') = aux_word (header m)
    ∧ writes (log m') = writes (log m)
    ∧ inflated_headers_ m' = inflated_headers_ m
    ∧ (others m = [] → header m' = header m).
Proof.
  induction wakeups as [|w wakeups IH]; intros m interrupt Hlock Hquiet Hcalm;
    destruct (interfered_keeps_meaning m Hquiet) as (Hm1 & Ha1 & Hq1);
    destruct (interfered_frame m) as (Ht1 & Hlog1 & Hl1);
    cbn [wait_for_inflation]; run_step; set (m1 := interfered m) in *;
    (assert (Hthin : inflated (header m1) = false)
       by (unfold inflated; by rewrite Hm1, Hlock));
    rewrite Hthin.
  - run_step. eexists. split; [done|]. run_step. rewrite Hm1, Hlog1.
    split_and!; try done. intros Hnone. unfold m1. by rewrite interfered_alone.
  - cbn [andb]. destruct (timed_out w).
    + run_step. eexists. split; [done|]. run_step. rewrite Hm1, Hlog1.
      split_and!; try done. intros Hnone. unfold m1. by rewrite interfered_alone.
    + assert (Hno : interrupt && check_local_interrupts w && interrupted_exception w = false).
      { destruct Hcalm as [->|Hcalm]; [done|].
        apply Forall_cons in Hcalm as [Hw _]. rewrite <- andb_assoc, Hw.
        by destruct interrupt. }
      rewrite Hno.
      match goal with |- context [run _ ?m2'] => set (m2 := m2') end.
      destruct (IH m2 interrupt) as (m' & Hrun & Hmn & Hax & Hw & Ht & Hsame).
      * unfold m2. cbn. by rewrite Hm1.
      * done.
      * destruct Hcalm as [->|Hcalm]; [by left|]. right.
        by apply Forall_cons in Hcalm as [_ ?].
      * exists m'. split; [done|]. rewrite Hmn, Hax, Hw, Ht. unfold m2. cbn.
        rewrite Hlog1. split_and!; try done.
        intros Hnone. rewrite Hsame.
        -- unfold m2, m1. cbn. by rewrite interfered_alone.
        -- unfold m2, m1. cbn. by rewrite interfered_alone.
Qed.

(** C3, as the code has it.  Called with a positive timeout on a thin-locked
    header that is not inflated while the thread waits (and with no
    interrupt delivered), [contend_for_lock] returns [eLockTimeout] and
    touches no inflated mutex.  It has written the header once: the swap at
    [step1], which sets the contended bit of the thin lock and nothing else;
    the header is left thin-locked with the auxiliary word it had. *)
Theorem contend_for_lock_times_out
    (m : Memory) (fuel : nat) (thread_id us : Z) (interrupt : bool)
    (wakeups : list Wakeup) :
  0 < us →
  meaning (header m) = eAuxWordLock →
  Forall keeps_meaning (others m) → (length (others m) < fuel)%nat →
  interrupt = false
    ∨ Forall (λ w, check_local_interrupts w && interrupted_exception w = false) wakeups →
  ∃ m' read,
    run (contend_for_lock fuel thread_id us interrupt wakeups) m = Some (eLockTimeout, m')
    ∧ meaning read = eAuxWordLock ∧ aux_word read = aux_word (header m)
    ∧ writes (log m') = (read, set_LockContended true read) :: writes (log m)
    ∧ meaning (header m') = eAuxWordLock
    ∧ aux_word (header m') = aux_word (header m)
    ∧ inflated_headers_ m' = inflated_headers_ m
    ∧ (others m = [] → header m' = set_LockContended true (header m)).
Proof.
  intros Hus Hlock Hquiet Hfuel Hcalm.
  unfold contend_for_lock. rewrite run_bind.
  unfold guarded. run_step. rewrite run_bind.
  unfold contend_under_lock. rewrite run_bind.
  change (mkMemory (header m) (inflated_headers_ m) (others m)
            (Acquired contention_lock_ :: log m))
    with (logged (Acquired contention_lock_) m).
  destruct (register_contention_registers fuel (logged (Acquired contention_lock_) m))
    as (m1 & read & Hrun1 & Hr1 & Hr2 & Hh1 & Hw1 & Ht1 & Hq1 & Halone1); try done.
  rewrite Hrun1. rewrite run_bind.
  rewrite bool_decide_eq_true_2 by done.
  destruct (wait_for_inflation_times_out wakeups m1 interrupt)
    as (m2 & Hrun2 & Hm2 & Ha2 & Hw2 & Ht2 & Halone2); try done.
  { rewrite Hh1. cbn. done. }
  rewrite Hrun2. run_step.
  eexists _, read. split; [done|]. run_step. cbn [writes].
  rewrite Hm2, Ha2, Hw2, Hw1, Ht2, Ht1, Hh1. cbn. rewrite Hr2.
  split_and!; try done.
  intros Hnone. destruct (Halone1 Hnone) as [-> Hnone1].
  rewrite Halone2 by done. by rewrite Hh1.
Qed.

(** *** Programs under the inflation lock *)

Lemma critical_bind {A B} (p : Prog A) (k : A → Prog B) :
  critical p → (∀ a, critical (k a)) → critical (bind p k).
Proof.
  intros Hp Hk. induction Hp; cbn; try (constructor; auto); auto.
Qed.

Lemma critical_set_inflated_header ih orig : critical (set_inflated_header ih orig).
Proof.
  unfold set_inflated_header. destruct (inflated orig) eqn:Hthin; [constructor|].
  constructor; [|constructor]. left. done.
Qed.

Lemma critical_handle : critical handle.
Proof.
  unfold handle. cbn. constructor. intros h.
  destruct (meaning h); repeat constructor.
Qed.

Lemma critical_clear_lock_contended retries : critical (clear_lock_contended retries).
Proof.
  induction retries as [|retries IH]; cbn; [constructor|].
  constructor. intros h. constructor; [by right|].
  intros [|]; [constructor|done].
Qed.

Lemma critical_modify_then {A} i f (p : Prog A) : critical p → critical (modify i f;; p).
Proof. intros Hp. cbn. by constructor. Qed.

Lemma critical_inflate_lock_count_overflow_loop fuel thread_id count ih : ∀ orig,
  critical (inflate_lock_count_overflow_loop fuel thread_id count ih orig).
Proof.
  induction fuel as [|fuel IH]; intros orig; cbn [inflate_lock_count_overflow_loop];
    [constructor|].
  apply critical_bind; [apply critical_set_inflated_header|].
  intros [|]; [constructor|]. cbn. constructor. intros h.
  destruct (inflated h); [constructor|]. repeat apply critical_modify_then. done.
Qed.

Lemma critical_inflate_and_lock_loop fuel ih : ∀ orig,
  critical (inflate_and_lock_loop fuel ih orig).
Proof.
  induction fuel as [|fuel IH]; intros orig; cbn [inflate_and_lock_loop]; [constructor|].
  apply critical_bind; [apply critical_set_inflated_header|].
  intros [|]; [constructor|]. cbn. constructor. intros now.
  case_bool_decide; [constructor|]. constructor. intros h.
  destruct (inflated h); [constructor|done].
Qed.

Lemma critical_inflate_for_contention_loop fuel retries thread_id which_mark :
  critical (inflate_for_contention_loop fuel retries thread_id which_mark).
Proof.
  induction fuel as [|fuel IH]; cbn [inflate_for_contention_loop]; [constructor|].
  assert (Hinstall : ∀ ih orig, critical (
    modify ih (mark which_mark);;
    ok ← set_inflated_header ih orig;
    if negb ok then
      modify ih clear;; inflate_for_contention_loop fuel retries thread_id which_mark
    else clear_lock_contended retries;; Ret true)).
  { intros ih orig. apply critical_modify_then.
    apply critical_bind; [apply critical_set_inflated_header|].
    intros [|]; cbn [negb].
    - apply critical_bind; [apply critical_clear_lock_contended|]. constructor.
    - by apply critical_modify_then. }
  cbn [load bind]. constructor. intros orig.
  destruct (meaning orig).
  - cbn [allocate bind]. constructor. intros ih. apply Hinstall.
  - cbn [allocate bind]. constructor. intros ih. apply critical_modify_then, Hinstall.
  - case_bool_decide; [constructor|].
    cbn [allocate bind]. constructor. intros ih. apply Hinstall.
  - cbn [allocate bind]. constructor. intros ih.
    apply critical_bind; [apply critical_handle|]. intros hd.
    apply critical_modify_then, Hinstall.
  - constructor.
Qed.

Lemma critical_set_in_inflated_header set : critical (set_in_inflated_header set).
Proof. unfold set_in_inflated_header. cbn. repeat constructor. Qed.

Lemma critical_inflate_for_loop fuel set ih : ∀ orig,
  critical (inflate_for_loop fuel set ih orig).
Proof.
  induction fuel as [|fuel IH]; intros orig; cbn [inflate_for_loop]; [constructor|].
  apply critical_bind; [apply critical_set_inflated_header|].
  intros [|]; [constructor|]. cbn [load bind]. constructor. intros h.
  destruct (inflated h).
  - apply critical_bind; [apply critical_set_in_inflated_header|].
    intros _. repeat constructor.
  - repeat apply critical_modify_then. done.
Qed.

(** Every call that inflates is a critical program under the inflation
    lock. *)
Lemma inflation_call_critical (c : InflationCall) :
  ∃ (B : Type) (body : Prog B) (g : B → option bool),
    inflation_call c = (r ← guarded inflation_lock_ body; Ret (g r))
    ∧ inflation_thread c = thread (guarded inflation_lock_ body)
    ∧ critical body.
Proof.
  destruct c as [fuel thread_id which_mark count|fuel thread_id which_mark
                |fuel thread_id which_mark|fuel which_mark id|fuel which_mark hd].
  - eexists bool, _, Some. split; [reflexivity|]. split; [reflexivity|].
    cbn [load bind]. constructor. intros orig.
    destruct (inflated orig); [constructor|].
    cbn [allocate bind]. constructor. intros ih.
    repeat apply critical_modify_then. apply critical_inflate_lock_count_overflow_loop.
  - eexists bool, _, Some. split; [reflexivity|]. split; [reflexivity|].
    cbn [load bind]. constructor. intros orig.
    unfold inflate_and_lock_install.
    destruct (meaning orig).
    + constructor.
    + cbn [allocate bind]. constructor. intros ih.
      repeat apply critical_modify_then. apply critical_inflate_and_lock_loop.
    + case_bool_decide; [constructor|]. cbn [allocate bind]. constructor. intros ih.
      repeat apply critical_modify_then. apply critical_inflate_and_lock_loop.
    + cbn [allocate bind]. constructor. intros ih.
      apply critical_bind; [apply critical_handle|]. intros h.
      repeat apply critical_modify_then. apply critical_inflate_and_lock_loop.
    + constructor.
  - eexists bool, _, Some. split; [reflexivity|]. split; [reflexivity|].
    apply critical_inflate_for_contention_loop.
  - eexists unit, _, (λ _, None). split; [reflexivity|]. split; [reflexivity|].
    cbn [load bind]. constructor. intros orig.
    destruct (inflated orig); [apply critical_set_in_inflated_header|].
    cbn [allocate bind]. constructor. intros ih.
    repeat apply critical_modify_then. apply critical_inflate_for_loop.
  - eexists unit, _, (λ _, None). split; [reflexivity|]. split; [reflexivity|].
    cbn [load bind]. constructor. intros orig.
    destruct (inflated orig); [apply critical_set_in_inflated_header|].
    cbn [allocate bind]. constructor. intros ih.
    repeat apply critical_modify_then. apply critical_inflate_for_loop.
Qed.

Lemma installs_or_keeps_keeps expected new :
  installs_or_keeps expected new → keeps (expected, new).
Proof.
  intros [[Hthin _]|[Hmeaning Haux]] Hinflated; cbn in *.
  - congruence.
  - split; [|done]. by rewrite (inflated_by_meaning expected new).
Qed.

(** None of the writes of a critical program takes an inflated header
    back. *)
Lemma critical_writes_keep {A} (p : Prog A) :
  critical p → ∀ m r m',
  run p m = Some (r, m') →
  Forall keeps (writes (log m)) → Forall keeps (writes (log m')).
Proof.
  induction 1 as [a| |k Hk IH|e n k Hcas Hk IH|k Hk IH|i k Hk IH|i f k Hk IH];
    intros m r m' Hrun Hlog; cbn in Hrun.
  - by injection Hrun as <- <-.
  - done.
  - eapply IH; [exact Hrun|]. cbn. by rewrite (proj1 (proj2 (interfered_frame m))).
  - destruct (interfered_frame m) as (_ & Hl & _).
    case_decide; (eapply IH; [exact Hrun|]); cbn; rewrite Hl; [|done].
    constructor; [|done]. by apply installs_or_keeps_keeps.
  - eapply IH; [exact Hrun|]. done.
  - eapply IH; [exact Hrun|]. done.
  - eapply IH; [exact Hrun|]. done.
Qed.

Lemma run_guarded {A} l (body : Prog A) m :
  run (guarded l body) m =
    match run body (logged (Acquired l) m) with
    | Some (r, m1) => Some (r, logged (Released l) m1)
    | None => None
    end.
Proof.
  unfold guarded. run_step. rewrite run_bind.
  by destruct (run body _) as [[r m1]|].
Qed.

Lemma inflation_call_writes_keep (c : InflationCall) m r m' :
  run (inflation_call c) m = Some (r, m') →
  Forall keeps (writes (log m)) → Forall keeps (writes (log m')).
Proof.
  destruct (inflation_call_critical c) as (B & body & g & -> & _ & Hcritical).
  rewrite run_bind, run_guarded.
  destruct (run body _) as [[b m1]|] eqn:Hbody; [|done].
  cbn. intros [= <- <-] Hlog. cbn.
  by eapply (critical_writes_keep body Hcritical _ _ _ Hbody).
Qed.

(** *** A header that is found inflated *)

Lemma inflated_meaning h : inflated h = true → meaning h = eAuxWordInflated.
Proof. unfold inflated. by intros ?%bool_decide_eq_true. Qed.

Lemma inflated_differs h orig : inflated h = true → inflated orig = false → h ≠ orig.
Proof. intros Hh Horig ->. congruence. Qed.

Lemma interfered_keeps_inflated m :
  inflated (header m) = true → Forall keeps_inflated (others m) →
  inflated (header (interfered m)) = true
  ∧ aux_word (header (interfered m)) = aux_word (header m)
  ∧ Forall keeps_inflated (others (interfered m)).
Proof.
  intros Hinflated Hrely. unfold interfered.
  destruct (others m) as [|f rest] eqn:Hothers.
  - rewrite Hothers. done.
  - apply Forall_cons in Hrely as [Hf Hrest]. cbn.
    destruct (Hf (header m) Hinflated). done.
Qed.

Lemma interfered_others {P : (HeaderWord → HeaderWord) → Prop} m :
  Forall P (others m) → Forall P (others (interfered m)).
Proof.
  intros Hall. unfold interfered. destruct (others m) as [|f rest] eqn:Hothers.
  - by rewrite Hothers.
  - by apply Forall_cons in Hall as [_ ?].
Qed.

(** The others take a turn on a header that is inflated: the facts about the
    memory that results are added to the context, and the memory is
    abstracted. *)
Ltac pop_inflated :=
  match goal with
  | |- context [interfered ?m0] =>
      lazymatch m0 with
      | context [interfered _] => fail
      | _ =>
          let Hinf := fresh "Hinf" in
          let Hrely := fresh "Hrely" in
          assert (Hinf : inflated (header m0) = true) by (cbn; done);
          assert (Hrely : Forall keeps_inflated (others m0)) by (cbn; done);
          let Hi := fresh "Hi" in
          let Ha := fresh "Ha" in
          let Hr := fresh "Hr" in
          destruct (interfered_keeps_inflated m0 Hinf Hrely) as (Hi & Ha & Hr);
          let Ht := fresh "Ht" in
          let Hl := fresh "Hl" in
          destruct (interfered_frame m0) as (Ht & Hl & _);
          cbn [header inflated_headers_ others log logged set_header
               set_inflated_headers] in Hi, Ha, Hr, Ht, Hl;
          clear Hinf Hrely;
          let m1 := fresh "m" in
          set (m1 := interfered m0) in *; clearbody m1
      end
  end.

(** The record of the header is the one that receives what the call stores;
    the candidate the call allocated is beyond the records that were
    there. *)
Lemma lookup_existing_alter (t : list InflatedHeader) (set : InflatedHeader → InflatedHeader)
    (index i : nat) r :
  t !! i = Some r →
  alter set index t !! i = Some (if decide (i = index) then set r else r).
Proof.
  intros Hr. rewrite list_lookup_alter. destruct (decide (index = i)) as [->|Hne].
  - rewrite Hr. cbn. by rewrite decide_True.
  - rewrite Hr. by rewrite decide_False.
Qed.

(** On entry.  A call that reads an inflated header first refuses, and has
    written nothing to the header; it has stored what it stores in the
    record the header has, and left the other records alone. *)
Lemma inflation_call_on_entry (c : InflationCall) (m : Memory) :
  (1 ≤ fuel_of c)%nat →
  inflated (header (interfered m)) = true →
  Forall keeps_inflated (others m) →
  ∃ m',
    run (inflation_call c) m = Some (refusal c, m')
    ∧ writes (log m') = writes (log m)
    ∧ inflated (header m') = true
    ∧ aux_word (header m') = aux_word (header (interfered m))
    ∧ ∀ i r, inflated_headers_ m !! i = Some r →
        inflated_headers_ m' !! i
        = Some (if decide (i = index_of (header (interfered m))) then stores c r else r).
Proof.
  intros Hfuel Hentry Hrely.
  apply (interfered_others m) in Hrely.
  destruct (interfered_frame m) as (Ht0 & Hl0 & _).
  assert (Hstart : ∀ e, interfered (logged e m) = logged e (interfered m)).
  { intros e. unfold interfered, logged. cbn. destruct m as [h t o l]. cbn.
    by destruct o. }
  destruct c as [fuel thread_id which_mark count|fuel thread_id which_mark
                |fuel thread_id which_mark|fuel which_mark id|fuel which_mark hd];
    cbn in Hfuel; cbn [inflation_call refusal stores]; rewrite run_bind.
  - unfold inflate_lock_count_overflow. rewrite run_guarded.
    cbn [run bind load]. rewrite Hstart. cbn [logged header]. rewrite Hentry.
    cbn. eexists. split; [done|]. cbn. rewrite Hl0, Ht0.
    split_and!; try done. intros i r Hr. by case_decide.
  - unfold inflate_and_lock. rewrite run_guarded.
    cbn [run bind load]. rewrite Hstart. cbn [logged header].
    rewrite (inflated_meaning _ Hentry).
    cbn. eexists. split; [done|]. cbn. rewrite Hl0, Ht0.
    split_and!; try done. intros i r Hr. by case_decide.
  - unfold inflate_for_contention. rewrite run_guarded.
    destruct fuel as [|fuel]; [lia|]. cbn [inflate_for_contention_loop].
    cbn [run bind load]. rewrite Hstart. cbn [logged header].
    rewrite (inflated_meaning _ Hentry).
    cbn. eexists. split; [done|]. cbn. rewrite Hl0, Ht0.
    split_and!; try done. intros i r Hr. by case_decide.
  - unfold inflate_for_id, inflate_for. rewrite run_guarded.
    cbn [run bind load]. rewrite Hstart. cbn [logged header]. rewrite Hentry.
    unfold set_in_inflated_header. run_step. clear Hstart.
    generalize dependent (interfered m). intros m0 Hentry Hrely Ht0 Hl0.
    pop_inflated. run_step. eexists. split; [done|]. run_step. cbn [writes].
    rewrite Hl. cbn [writes]. rewrite Ht, Ht0, Hl0. split_and!; try done.
    intros i r Hlookup. unfold index_of. rewrite Ha. by apply lookup_existing_alter.
  - unfold inflate_for_handle, inflate_for. rewrite run_guarded.
    cbn [run bind load]. rewrite Hstart. cbn [logged header]. rewrite Hentry.
    unfold set_in_inflated_header. run_step. clear Hstart.
    generalize dependent (interfered m). intros m0 Hentry Hrely Ht0 Hl0.
    pop_inflated. run_step. eexists. split; [done|]. run_step. cbn [writes].
    rewrite Hl. cbn [writes]. rewrite Ht, Ht0, Hl0. split_and!; try done.
    intros i r Hlookup. unfold index_of. rewrite Ha. by apply lookup_existing_alter.
Qed.

Lemma interfered_logged e m : interfered (logged e m) = logged e (interfered m).
Proof. destruct m as [h t o l]. unfold interfered, logged. cbn. by destruct o. Qed.

Lemma interfered_set_inflated_headers t m :
  interfered (set_inflated_headers t m) = set_inflated_headers t (interfered m).
Proof.
  destruct m as [h t0 o l]. unfold interfered, set_inflated_headers. cbn.
  by destruct o.
Qed.

Lemma interfered_cons h t f rest l :
  interfered (mkMemory h t (f :: rest) l) = mkMemory (f h) t rest l.
Proof. done. Qed.

Lemma not_inflated_meaning h : inflated h = false → meaning h ≠ eAuxWordInflated.
Proof. unfold inflated. by intros ?%bool_decide_eq_false. Qed.

(** *** A header that is found inflated, whenever that is

    What a call does is read off its log; the other threads may do to the
    header what they like as long as they keep an inflated header inflated,
    with its index. *)

Lemma writes_app l k : writes (l ++ k) = writes l ++ writes k.
Proof.
  induction l as [|e l IH]; [done|].
  destruct e as [| | |expected new [|]| |]; cbn; by rewrite ?IH.
Qed.

(** A run adds to the log. *)
Lemma run_extends {A} (p : Prog A) : ∀ m r m',
  run p m = Some (r, m') → ∃ post, log m' = post ++ log m.
Proof.
  induction p as [a| |c IH|e n c IH|c IH|i c IH|i f c IH|l c IH|l c IH|i t timed intr c IH];
    intros m r m' Hrun; cbn in Hrun.
  - injection Hrun as <- <-. by exists [].
  - done.
  - destruct (IH _ _ _ _ Hrun) as [post Hpost]. eexists (post ++ [_]).
    rewrite Hpost. cbn. rewrite (proj1 (proj2 (interfered_frame m))).
    by rewrite <- app_assoc.
  - destruct (interfered_frame m) as (_ & Hl & _).
    case_decide; destruct (IH _ _ _ _ Hrun) as [post Hpost]; eexists (post ++ [_]);
      rewrite Hpost; cbn; rewrite Hl; by rewrite <- app_assoc.
  - destruct (IH _ _ _ _ Hrun) as [post Hpost]. eexists (post ++ [_]).
    rewrite Hpost. cbn. by rewrite <- app_assoc.
  - by destruct (IH _ _ _ _ Hrun) as [post Hpost]; exists post.
  - destruct (IH _ _ _ Hrun) as [post Hpost]. eexists (post ++ [_]).
    rewrite Hpost. cbn. by rewrite <- app_assoc.
  - destruct (IH _ _ _ Hrun) as [post Hpost]. eexists (post ++ [_]).
    rewrite Hpost. cbn. by rewrite <- app_assoc.
  - destruct (IH _ _ _ Hrun) as [post Hpost]. eexists (post ++ [_]).
    rewrite Hpost. cbn. by rewrite <- app_assoc.
  - destruct (inflated_headers_ m !! i) as [ih|].
    + destruct (lock_mutex t timed intr ih) as [status ih'].
      destruct (IH _ _ _ _ Hrun) as [post Hpost]. eexists (post ++ [_]).
      rewrite Hpost. cbn. by rewrite <- app_assoc.
    + by destruct (IH _ _ _ _ Hrun) as [post Hpost]; exists post.
Qed.

Section DeferenceFacts.
Context {A : Type} (store : InflatedHeader → InflatedHeader) (refused : A)
  (needs : bool) (base : nat).

(** A call on its way out. *)
Lemma settles_run stored (p : Prog A) :
  settles store refused base stored p → ∀ m r m',
  run p m = Some (r, m') →
  inflated (header m) = true → Forall keeps_inflated (others m) →
  ∃ post,
    log m' = post ++ log m ∧ r = refused ∧ writes post = []
    ∧ inflated (header m') = true ∧ aux_word (header m') = aux_word (header m)
    ∧ (∀ h, Loaded h ∈ post → inflated h = true ∧ aux_word h = aux_word (header m))
    ∧ ∀ i r0, (i < base)%nat → inflated_headers_ m !! i = Some r0 →
        inflated_headers_ m' !! i
        = Some (if stored then r0
                else if decide (i = index_of (header m)) then store r0 else r0).
Proof.
  induction 1 as [|k Hk IH|stored i f k Hi Hk IH]; intros m r m' Hrun Hinflated Hrely.
  - cbn in Hrun. injection Hrun as <- <-. exists []. split_and!; try done.
    intros h Hh. by apply elem_of_nil in Hh.
  - cbn in Hrun.
    destruct (interfered_keeps_inflated m Hinflated Hrely) as (Hi1 & Ha1 & Hr1).
    destruct (interfered_frame m) as (Ht1 & Hl1 & _).
    set (m1 := interfered m) in *.
    destruct (IH _ _ _ Hrun) as (post & Hlog & -> & Hw & Hi' & Ha' & Hloads & Hrec);
      [done|done|].
    cbn in Hlog, Ha', Hloads, Hrec.
    exists (post ++ [Modified (index_of (header m1)); Loaded (header m1)]).
    split_and!.
    + rewrite Hlog, Hl1. by rewrite <- app_assoc.
    + done.
    + by rewrite writes_app, Hw.
    + done.
    + congruence.
    + intros h [Hh|Hh]%elem_of_app.
      * destruct (Hloads h Hh). split; [done|congruence].
      * apply elem_of_cons in Hh as [?|Hh]; [done|].
        apply list_elem_of_singleton in Hh. injection Hh as ->. done.
    + intros i r0 Hlt Hr0.
      replace (index_of (header m)) with (index_of (header m1))
        by (unfold index_of; by rewrite Ha1).
      apply (Hrec i); [done|]. rewrite Ht1. by apply lookup_existing_alter.
  - cbn in Hrun.
    destruct (IH _ _ _ Hrun) as (post & Hlog & -> & Hw & Hi' & Ha' & Hloads & Hrec);
      [done|done|].
    cbn in Hlog, Ha', Hloads, Hrec.
    exists (post ++ [Modified i]). split_and!; try done.
    + rewrite Hlog. by rewrite <- app_assoc.
    + by rewrite writes_app, Hw.
    + intros h [Hh|Hh]%elem_of_app; [by apply Hloads|].
      by apply list_elem_of_singleton in Hh.
    + intros i0 r0 Hlt Hr0. apply Hrec; [done|].
      rewrite list_lookup_alter_ne by lia. done.
Qed.

(** A call that runs on an inflated header: it refuses, and has written
    nothing to the header. *)
Lemma barred_run (p : Prog A) :
  barred store refused needs base p → ∀ m r m',
  run p m = Some (r, m') →
  inflated (header m) = true → Forall keeps_inflated (others m) →
  (base ≤ length (inflated_headers_ m))%nat →
  ∃ post,
    log m' = post ++ log m ∧ r = refused ∧ writes post = []
    ∧ inflated (header m') = true ∧ aux_word (header m') = aux_word (header m)
    ∧ (∀ h, Loaded h ∈ post → inflated h = true ∧ aux_word h = aux_word (header m))
    ∧ ∀ i r0, (i < base)%nat → inflated_headers_ m !! i = Some r0 →
        inflated_headers_ m' !! i
        = Some (if negb needs then r0
                else if decide (i = index_of (header m)) then store r0 else r0).
Proof.
  induction 1 as [p Hp| |k Hk IH|e n k He Hk IH|k Hk IH|i k Hk IH|i f k Hi Hk IH];
    intros m r m' Hrun Hinflated Hrely Hbase.
  - by apply (settles_run _ p Hp).
  - done.
  - cbn in Hrun.
    destruct (interfered_keeps_inflated m Hinflated Hrely) as (Hi1 & Ha1 & Hr1).
    destruct (interfered_frame m) as (Ht1 & Hl1 & _).
    set (m1 := interfered m) in *.
    destruct (IH _ Hi1 _ _ _ Hrun) as (post & Hlog & -> & Hw & Hi' & Ha' & Hloads & Hrec);
      [done|done|by cbn; rewrite Ht1|].
    cbn in Hlog, Ha', Hloads, Hrec.
    exists (post ++ [Loaded (header m1)]). split_and!; try done.
    + rewrite Hlog, Hl1. by rewrite <- app_assoc.
    + by rewrite writes_app, Hw.
    + congruence.
    + intros h [Hh|Hh]%elem_of_app.
      * destruct (Hloads h Hh). split; [done|congruence].
      * apply list_elem_of_singleton in Hh. injection Hh as ->. done.
    + intros i r0 Hlt Hr0.
      replace (index_of (header m)) with (index_of (header m1))
        by (unfold index_of; by rewrite Ha1).
      apply (Hrec i); [done|]. by rewrite Ht1.
  - cbn in Hrun.
    destruct (interfered_keeps_inflated m Hinflated Hrely) as (Hi1 & Ha1 & Hr1).
    destruct (interfered_frame m) as (Ht1 & Hl1 & _).
    set (m1 := interfered m) in *.
    rewrite decide_False in Hrun by (by apply inflated_differs).
    destruct (IH _ _ _ Hrun) as (post & Hlog & -> & Hw & Hi' & Ha' & Hloads & Hrec);
      [done|done|by cbn; rewrite Ht1|].
    cbn in Hlog, Ha', Hloads, Hrec.
    exists (post ++ [Swapped e n false]). split_and!; try done.
    + rewrite Hlog, Hl1. by rewrite <- app_assoc.
    + by rewrite writes_app, Hw.
    + congruence.
    + intros h [Hh|Hh]%elem_of_app.
      * destruct (Hloads h Hh). split; [done|congruence].
      * by apply list_elem_of_singleton in Hh.
    + intros i r0 Hlt Hr0.
      replace (index_of (header m)) with (index_of (header m1))
        by (unfold index_of; by rewrite Ha1).
      apply (Hrec i); [done|]. by rewrite Ht1.
  - cbn in Hrun.
    destruct (IH _ Hbase _ _ _ Hrun) as (post & Hlog & -> & Hw & Hi' & Ha' & Hloads & Hrec);
      [done|done|by cbn; rewrite length_app; lia|].
    cbn in Hlog, Ha', Hloads, Hrec.
    exists (post ++ [Allocated (length (inflated_headers_ m))]). split_and!; try done.
    + rewrite Hlog. by rewrite <- app_assoc.
    + by rewrite writes_app, Hw.
    + intros h [Hh|Hh]%elem_of_app; [by apply Hloads|].
      by apply list_elem_of_singleton in Hh.
    + intros i r0 Hlt Hr0. apply Hrec; [done|]. rewrite lookup_app_l by lia. done.
  - cbn in Hrun. by apply (IH _ _ _ _ Hrun).
  - cbn in Hrun.
    destruct (IH _ _ _ Hrun) as (post & Hlog & -> & Hw & Hi' & Ha' & Hloads & Hrec);
      [done|done|by cbn; rewrite length_alter|].
    cbn in Hlog, Ha', Hloads, Hrec.
    exists (post ++ [Modified i]). split_and!; try done.
    + rewrite Hlog. by rewrite <- app_assoc.
    + by rewrite writes_app, Hw.
    + intros h [Hh|Hh]%elem_of_app; [by apply Hloads|].
      by apply list_elem_of_singleton in Hh.
    + intros i0 r0 Hlt Hr0. apply Hrec; [done|].
      rewrite list_lookup_alter_ne by lia. done.
Qed.

(** A call that inflates is barred once the header is inflated. *)
Lemma seeks_barred (p : Prog A) :
  seeks store refused needs base p → barred store refused needs base p.
Proof.
  induction 1 as [Hneeds| |k Hthin IH Hk|e n k He Hn Hk IH|k Hk IH|i k Hk IH|i f k Hi Hk IH].
  - apply barred_settles. rewrite Hneeds. constructor.
  - apply barred_spin.
  - by apply barred_load.
  - by apply barred_cas.
  - by apply barred_allocate.
  - by apply barred_lookup.
  - by apply barred_modify.
Qed.

(** A call that inflates, whatever the others do: either a swap of its own
    installs a side record, and every header it has read before was not
    inflated; or it refuses and has written nothing to the header, and a
    header it has read inflated is inflated at the end, with the index it
    had, and has received what the call stores. *)
Lemma seeks_run (p : Prog A) :
  seeks store refused needs base p → ∀ m r m',
  run p m = Some (r, m') →
  Forall keeps_inflated (others m) →
  (base ≤ length (inflated_headers_ m))%nat →
  ∃ post,
    log m' = post ++ log m
    ∧ ((∃ later expected new earlier,
          post = later ++ Swapped expected new true :: earlier
          ∧ inflated expected = false ∧ inflated new = true
          ∧ writes earlier = []
          ∧ ∀ h, Loaded h ∈ earlier → inflated h = false)
       ∨ (r = refused ∧ writes post = []
          ∧ (∀ h, Loaded h ∈ post → inflated h = true →
               inflated (header m') = true ∧ aux_word (header m') = aux_word h)
          ∧ ∀ i r0, (i < base)%nat → inflated_headers_ m !! i = Some r0 →
              inflated_headers_ m' !! i
              = Some (if negb needs then r0
                      else if decide (i = index_of (header m')) then store r0 else r0))).
Proof.
  induction 1 as [Hneeds| |k Hthin IH Hk|e n k He Hn Hk IH|k Hk IH|i k Hk IH|i f k Hi Hk IH];
    intros m r m' Hrun Hrely Hbase.
  - cbn in Hrun. injection Hrun as <- <-. exists []. split; [done|]. right.
    rewrite Hneeds. split_and!; try done. intros h Hh. by apply elem_of_nil in Hh.
  - done.
  - cbn in Hrun.
    destruct (interfered_frame m) as (Ht1 & Hl1 & _).
    pose proof (interfered_others m Hrely) as Hr1.
    set (m1 := interfered m) in *.
    destruct (inflated (header m1)) eqn:Hh1.
    + destruct (barred_run _ (Hk _ Hh1) _ _ _ Hrun)
        as (post & Hlog & -> & Hw & Hi' & Ha' & Hloads & Hrec);
        [done|done|by cbn; rewrite Ht1|].
      cbn in Hlog, Ha', Hloads, Hrec.
      exists (post ++ [Loaded (header m1)]). split.
      { rewrite Hlog, Hl1. by rewrite <- app_assoc. }
      right. split_and!; try done.
      * by rewrite writes_app, Hw.
      * intros h [Hh|Hh]%elem_of_app _.
        -- destruct (Hloads h Hh). split; [done|congruence].
        -- apply list_elem_of_singleton in Hh. injection Hh as ->. done.
      * intros i r0 Hlt Hr0.
        replace (index_of (header m')) with (index_of (header m1))
          by (unfold index_of; by rewrite Ha').
        apply (Hrec i); [done|]. by rewrite Ht1.
    + destruct (IH _ Hh1 _ _ _ Hrun) as (post & Hlog & Hcases);
        [done|by cbn; rewrite Ht1|].
      cbn in Hlog.
      exists (post ++ [Loaded (header m1)]). split.
      { rewrite Hlog, Hl1. by rewrite <- app_assoc. }
      destruct Hcases as [(later & e' & n' & earlier & -> & He' & Hn' & Hw & Hloads)
                         |(-> & Hw & Hloads & Hrec)].
      * left. exists later, e', n', (earlier ++ [Loaded (header m1)]).
        split; [by rewrite <- app_assoc|]. split; [done|]. split; [done|].
        split; [by rewrite writes_app, Hw|].
        intros h [Hh|Hh]%elem_of_app; [by apply Hloads|].
        apply list_elem_of_singleton in Hh. injection Hh as ->. done.
      * right. split_and!; try done.
        -- by rewrite writes_app, Hw.
        -- intros h [Hh|Hh]%elem_of_app Hinfl; [by apply Hloads|].
           apply list_elem_of_singleton in Hh. injection Hh as ->. congruence.
        -- intros i r0 Hlt Hr0. apply Hrec; [done|]. cbn. by rewrite Ht1.
  - cbn in Hrun.
    destruct (interfered_frame m) as (Ht1 & Hl1 & _).
    pose proof (interfered_others m Hrely) as Hr1.
    set (m1 := interfered m) in *.
    destruct (decide (header m1 = e)) as [Hsame|Hchanged].
    + destruct (run_extends _ _ _ _ Hrun) as [post Hlog]. cbn in Hlog.
      exists (post ++ [Swapped e n true]). split.
      { rewrite Hlog, Hl1. by rewrite <- app_assoc. }
      left. exists post, e, n, []. split_and!; try done.
      intros h Hh. by apply elem_of_nil in Hh.
    + destruct (IH _ _ _ Hrun) as (post & Hlog & Hcases);
        [done|by cbn; rewrite Ht1|].
      cbn in Hlog.
      exists (post ++ [Swapped e n false]). split.
      { rewrite Hlog, Hl1. by rewrite <- app_assoc. }
      destruct Hcases as [(later & e' & n' & earlier & -> & He' & Hn' & Hw & Hloads)
                         |(-> & Hw & Hloads & Hrec)].
      * left. exists later, e', n', (earlier ++ [Swapped e n false]).
        split; [by rewrite <- app_assoc|]. split; [done|]. split; [done|].
        split; [by rewrite writes_app, Hw|].
        intros h [Hh|Hh]%elem_of_app; [by apply Hloads|].
        by apply list_elem_of_singleton in Hh.
      * right. split_and!; try done.
        -- by rewrite writes_app, Hw.
        -- intros h [Hh|Hh]%elem_of_app Hinfl; [by apply Hloads|].
           by apply list_elem_of_singleton in Hh.
        -- intros i r0 Hlt Hr0. apply Hrec; [done|]. cbn. by rewrite Ht1.
  - cbn in Hrun.
    destruct (IH _ Hbase _ _ _ Hrun) as (post & Hlog & Hcases);
      [done|by cbn; rewrite length_app; lia|].
    cbn in Hlog.
    exists (post ++ [Allocated (length (inflated_headers_ m))]). split.
    { rewrite Hlog. by rewrite <- app_assoc. }
    destruct Hcases as [(later & e' & n' & earlier & -> & He' & Hn' & Hw & Hloads)
                       |(-> & Hw & Hloads & Hrec)].
    + left. exists later, e', n', (earlier ++ [Allocated (length (inflated_headers_ m))]).
      split; [by rewrite <- app_assoc|]. split; [done|]. split; [done|].
        split; [by rewrite writes_app, Hw|].
      intros h [Hh|Hh]%elem_of_app; [by apply Hloads|].
      by apply list_elem_of_singleton in Hh.
    + right. split_and!; try done.
      * by rewrite writes_app, Hw.
      * intros h [Hh|Hh]%elem_of_app Hinfl; [by apply Hloads|].
        by apply list_elem_of_singleton in Hh.
      * intros i r0 Hlt Hr0. apply Hrec; [done|]. cbn. rewrite lookup_app_l by lia. done.
  - cbn in Hrun. by apply (IH _ _ _ _ Hrun).
  - cbn in Hrun.
    destruct (IH _ _ _ Hrun) as (post & Hlog & Hcases);
      [done|by cbn; rewrite length_alter|].
    cbn in Hlog.
    exists (post ++ [Modified i]). split.
    { rewrite Hlog. by rewrite <- app_assoc. }
    destruct Hcases as [(later & e' & n' & earlier & -> & He' & Hn' & Hw & Hloads)
                       |(-> & Hw & Hloads & Hrec)].
    + left. exists later, e', n', (earlier ++ [Modified i]).
      split; [by rewrite <- app_assoc|]. split; [done|]. split; [done|].
        split; [by rewrite writes_app, Hw|].
      intros h [Hh|Hh]%elem_of_app; [by apply Hloads|].
      by apply list_elem_of_singleton in Hh.
    + right. split_and!; try done.
      * by rewrite writes_app, Hw.
      * intros h [Hh|Hh]%elem_of_app Hinfl; [by apply Hloads|].
        by apply list_elem_of_singleton in Hh.
      * intros i0 r0 Hlt Hr0. apply Hrec; [done|]. cbn.
        rewrite list_lookup_alter_ne by lia. done.
Qed.

Lemma seeks_set_inflated_header ih orig (k : bool → Prog A) :
  inflated orig = false →
  seeks store refused needs base (k false) →
  seeks store refused needs base (ok ← set_inflated_header ih orig; k ok).
Proof.
  intros Hthin Hk. unfold set_inflated_header. rewrite Hthin. cbn [atomic_set bind].
  by apply seeks_cas.
Qed.

Lemma seeks_handle (k : Z → Prog A) :
  (∀ hd, seeks store refused needs base (k hd)) →
  seeks store refused needs base (hd ← handle; k hd).
Proof.
  intros Hk. unfold handle. cbn [load bind]. apply seeks_load; intros h Hh.
  - destruct (meaning h) eqn:Hmeaning; cbn [bind lookup_header]; try apply Hk.
    by apply not_inflated_meaning in Hh.
  - rewrite (inflated_meaning h Hh). cbn [bind lookup_header].
    apply barred_lookup. intros r. apply seeks_barred, Hk.
Qed.

End DeferenceFacts.

(** *** The five calls, whatever the others do *)

Lemma seeks_modify_then {A} store (refused : A) needs base i f (p : Prog A) :
  (base ≤ i)%nat → seeks store refused needs base p →
  seeks store refused needs base (modify i f;; p).
Proof. intros Hi Hp. cbn. by constructor. Qed.

Lemma not_inflated_by_meaning h :
  meaning h ≠ eAuxWordInflated → inflated h = false.
Proof. intros Hne. unfold inflated. by apply bool_decide_eq_false. Qed.

Lemma seeks_inflate_lock_count_overflow_loop store base fuel thread_id count ih :
  (base ≤ ih)%nat → ∀ orig, inflated orig = false →
  seeks store false false base
    (inflate_lock_count_overflow_loop fuel thread_id count ih orig).
Proof.
  intros Hih. induction fuel as [|fuel IH]; intros orig Hthin;
    cbn [inflate_lock_count_overflow_loop]; [constructor|].
  apply seeks_set_inflated_header; [done|]. cbn [load bind].
  apply seeks_load; intros h Hh; rewrite Hh.
  - do 2 (apply seeks_modify_then; [done|]). by apply IH.
  - apply barred_settles. constructor.
Qed.

Lemma seeks_inflate_and_lock_loop store base fuel ih : ∀ orig,
  inflated orig = false →
  seeks store false false base (inflate_and_lock_loop fuel ih orig).
Proof.
  induction fuel as [|fuel IH]; intros orig Hthin; cbn [inflate_and_lock_loop];
    [constructor|].
  apply seeks_set_inflated_header; [done|]. cbn [load bind].
  apply seeks_load; intros now Hnow.
  - case_bool_decide; [by constructor|].
    apply seeks_load; intros h Hh; rewrite Hh.
    + by apply IH.
    + apply barred_settles. constructor.
  - rewrite bool_decide_eq_true_2.
    + apply barred_settles. constructor.
    + rewrite (inflated_meaning _ Hnow). by apply not_inflated_meaning.
Qed.

Lemma seeks_inflate_for_loop base fuel set ih :
  (base ≤ ih)%nat → ∀ orig, inflated orig = false →
  seeks set tt true base (inflate_for_loop fuel set ih orig).
Proof.
  intros Hih. induction fuel as [|fuel IH]; intros orig Hthin;
    cbn [inflate_for_loop]; [constructor|].
  apply seeks_set_inflated_header; [done|]. cbn [load bind].
  apply seeks_load; intros h Hh; rewrite Hh.
  - do 2 (apply seeks_modify_then; [done|]). by apply IH.
  - unfold set_in_inflated_header. cbn [load bind modify].
    apply barred_settles. cbn [negb]. apply settles_store.
    apply settles_clear; [done|]. constructor.
Qed.

Lemma seeks_inflate_for_contention_loop store base fuel retries thread_id which_mark :
  seeks store false false base
    (inflate_for_contention_loop fuel retries thread_id which_mark).
Proof.
  induction fuel as [|fuel IH]; cbn [inflate_for_contention_loop]; [constructor|].
  assert (Hinstall : ∀ ih orig, (base ≤ ih)%nat → inflated orig = false →
    seeks store false false base (
      modify ih (mark which_mark);;
      ok ← set_inflated_header ih orig;
      if negb ok then
        modify ih clear;; inflate_for_contention_loop fuel retries thread_id which_mark
      else clear_lock_contended retries;; Ret true)).
  { intros ih orig Hih Hthin. apply seeks_modify_then; [done|].
    apply seeks_set_inflated_header; [done|]. cbn [negb].
    by apply seeks_modify_then. }
  cbn [load bind]. apply seeks_load; intros orig Horig.
  - destruct (meaning orig) eqn:Hmeaning.
    + cbn [allocate bind]. apply seeks_allocate. intros ih Hih. by apply Hinstall.
    + cbn [allocate bind]. apply seeks_allocate. intros ih Hih.
      apply seeks_modify_then; [done|]. by apply Hinstall.
    + case_bool_decide; [by constructor|].
      cbn [allocate bind]. apply seeks_allocate. intros ih Hih. by apply Hinstall.
    + cbn [allocate bind]. apply seeks_allocate. intros ih Hih.
      apply seeks_handle. intros hd.
      apply seeks_modify_then; [done|]. by apply Hinstall.
    + by apply not_inflated_meaning in Horig.
  - rewrite (inflated_meaning _ Horig). apply barred_settles. constructor.
Qed.

(** Every call that inflates defers to an inflated header. *)
Lemma inflation_call_seeks (c : InflationCall) :
  ∃ (B : Type) (body : Prog B) (g : B → option bool) (refused : B),
    inflation_call c = (r ← guarded inflation_lock_ body; Ret (g r))
    ∧ g refused = refusal c
    ∧ ∀ base, seeks (stores c) refused (needs_store c) base body.
Proof.
  destruct c as [fuel thread_id which_mark count|fuel thread_id which_mark
                |fuel thread_id which_mark|fuel which_mark id|fuel which_mark hd].
  - eexists bool, _, Some, false. split; [reflexivity|]. split; [reflexivity|].
    intros base. cbn [load bind stores needs_store].
    apply seeks_load; intros orig Horig; rewrite Horig.
    + cbn [allocate bind]. apply seeks_allocate. intros ih Hih.
      do 3 (apply seeks_modify_then; [done|]).
      by apply seeks_inflate_lock_count_overflow_loop.
    + apply barred_settles. constructor.
  - eexists bool, _, Some, false. split; [reflexivity|]. split; [reflexivity|].
    intros base. cbn [load bind stores needs_store].
    apply seeks_load; intros orig Horig.
    + unfold inflate_and_lock_install. destruct (meaning orig) eqn:Hmeaning.
      * by constructor.
      * cbn [allocate bind]. apply seeks_allocate. intros ih Hih.
        do 3 (apply seeks_modify_then; [done|]).
        by apply seeks_inflate_and_lock_loop.
      * case_bool_decide; [by constructor|].
        cbn [allocate bind]. apply seeks_allocate. intros ih Hih.
        do 2 (apply seeks_modify_then; [done|]).
        by apply seeks_inflate_and_lock_loop.
      * cbn [allocate bind]. apply seeks_allocate. intros ih Hih.
        apply seeks_handle. intros h.
        do 3 (apply seeks_modify_then; [done|]).
        by apply seeks_inflate_and_lock_loop.
      * by apply not_inflated_meaning in Horig.
    + rewrite (inflated_meaning _ Horig). apply barred_settles. constructor.
  - eexists bool, _, Some, false. split; [reflexivity|]. split; [reflexivity|].
    intros base. apply seeks_inflate_for_contention_loop.
  - eexists unit, _, (λ _, None), tt. split; [reflexivity|]. split; [reflexivity|].
    intros base. cbn [load bind stores needs_store].
    apply seeks_load; intros orig Horig; rewrite Horig.
    + cbn [allocate bind]. apply seeks_allocate. intros ih Hih.
      do 3 (apply seeks_modify_then; [done|]).
      by apply seeks_inflate_for_loop.
    + unfold set_in_inflated_header. cbn [load bind modify].
      apply barred_settles. cbn [negb]. apply settles_store. constructor.
  - eexists unit, _, (λ _, None), tt. split; [reflexivity|]. split; [reflexivity|].
    intros base. cbn [load bind stores needs_store].
    apply seeks_load; intros orig Horig; rewrite Horig.
    + cbn [allocate bind]. apply seeks_allocate. intros ih Hih.
      do 3 (apply seeks_modify_then; [done|]).
      by apply seeks_inflate_for_loop.
    + unfold set_in_inflated_header. cbn [load bind modify].
      apply barred_settles. cbn [negb]. apply settles_store. constructor.
Qed.

(** *** The calls return

    A round of a loop is lost only to a change of the header, which uses up
    a turn of the others; the first round of a loop can be lost to a change
    that came before it. *)

(** The others' next turn: what it leaves alone, and that it is used up
    when it changes the header. *)
Ltac next_interfered Hl Hp :=
  match goal with
  | |- context [interfered ?m0] =>
      lazymatch m0 with
      | context [interfered _] => fail
      | _ =>
          pose proof (proj2 (proj2 (interfered_frame m0))) as Hl;
          pose proof (interfered_progress m0) as Hp;
          cbn [header inflated_headers_ others log logged set_header
               set_inflated_headers] in Hl, Hp;
          let m1 := fresh "m" in
          set (m1 := interfered m0) in *; clearbody m1
      end
  end.

Lemma inflate_and_lock_loop_returns fuel : ∀ m ih orig,
  inflated orig = false →
  (length (others m) + 1 < fuel)%nat
    ∨ (header m = orig ∧ (length (others m) < fuel)%nat) →
  is_Some (run (inflate_and_lock_loop fuel ih orig) m).
Proof.
  induction fuel as [|fuel IH]; intros m ih orig Hthin Hbudget; [lia|].
  cbn [inflate_and_lock_loop]. rewrite run_bind.
  unfold set_inflated_header. rewrite Hthin. run_step.
  next_interfered Hl1 Hp1.
  destruct (decide (header m0 = orig)) as [Hsame|Hchanged]; run_step; [done|].
  next_interfered Hl2 Hp2.
  case_bool_decide; run_step; [done|].
  next_interfered Hl3 Hp3.
  destruct (inflated (header m2)) eqn:Hthin3; run_step; [done|].
  apply IH; [done|]. right. split; [done|]. cbn.
  destruct Hbudget as [?|[Hh ?]]; [lia|].
  assert (length (others m0) < length (others m))%nat by (apply Hp1; congruence).
  lia.
Qed.

Lemma inflate_lock_count_overflow_loop_returns fuel : ∀ m thread_id count ih orig,
  inflated orig = false → header m = orig → (length (others m) < fuel)%nat →
  is_Some (run (inflate_lock_count_overflow_loop fuel thread_id count ih orig) m).
Proof.
  induction fuel as [|fuel IH]; intros m thread_id count ih orig Hthin Hh Hfuel; [lia|].
  cbn [inflate_lock_count_overflow_loop]. rewrite run_bind.
  unfold set_inflated_header. rewrite Hthin. run_step.
  next_interfered Hl1 Hp1.
  destruct (decide (header m0 = orig)) as [Hsame|Hchanged]; run_step; [done|].
  next_interfered Hl2 Hp2.
  destruct (inflated (header m1)) eqn:Hthin2; run_step; [done|].
  apply IH; [done|done|]. cbn.
  assert (length (others m0) < length (others m))%nat by (apply Hp1; congruence).
  lia.
Qed.

Lemma inflate_for_loop_returns fuel : ∀ m set ih orig,
  inflated orig = false → header m = orig → (length (others m) < fuel)%nat →
  is_Some (run (inflate_for_loop fuel set ih orig) m).
Proof.
  induction fuel as [|fuel IH]; intros m set ih orig Hthin Hh Hfuel; [lia|].
  cbn [inflate_for_loop]. rewrite run_bind.
  unfold set_inflated_header. rewrite Hthin. run_step.
  next_interfered Hl1 Hp1.
  destruct (decide (header m0 = orig)) as [Hsame|Hchanged]; run_step; [done|].
  next_interfered Hl2 Hp2.
  destruct (inflated (header m1)) eqn:Hthin2.
  - unfold set_in_inflated_header. run_step. done.
  - run_step. apply IH; [done|done|]. cbn.
    assert (length (others m0) < length (others m))%nat by (apply Hp1; congruence).
    lia.
Qed.

Lemma clear_lock_contended_returns retries : ∀ m,
  (length (others m) < retries)%nat →
  is_Some (run (clear_lock_contended retries) m).
Proof.
  induction retries as [|retries IH]; intros m Hfuel; [lia|].
  cbn [clear_lock_contended]. run_step.
  next_interfered Hl1 Hp1. next_interfered Hl2 Hp2.
  destruct (decide (header m1 = header m0)) as [Hsame|Hchanged]; run_step; [done|].
  apply IH. cbn. assert (length (others m1) < length (others m0))%nat by by apply Hp2.
  lia.
Qed.

Lemma inflate_for_contention_loop_returns fuel : ∀ m retries thread_id which_mark,
  (length (others m) < fuel)%nat → (length (others m) < retries)%nat →
  is_Some (run (inflate_for_contention_loop fuel retries thread_id which_mark) m).
Proof.
  induction fuel as [|fuel IH]; intros m retries thread_id which_mark Hfuel Hretries; [lia|].
  assert (Hinstall : ∀ m1 ih orig (n : nat),
    inflated orig = false →
    (length (others m1) ≤ n)%nat → (header m1 ≠ orig → (length (others m1) < n)%nat) →
    (n ≤ fuel)%nat → (n < retries)%nat →
    is_Some (run (
      ok ← set_inflated_header ih orig;
      if negb ok then
        modify ih clear;; inflate_for_contention_loop fuel retries thread_id which_mark
      else clear_lock_contended retries;; Ret true) m1)).
  { intros m1 ih orig n Hthin Hle Hlt Hn Hr. rewrite run_bind.
    unfold set_inflated_header. rewrite Hthin. run_step.
    next_interfered Hl1 Hp1.
    destruct (decide (header m0 = orig)) as [Hsame|Hchanged]; run_step.
    - rewrite run_bind.
      match goal with |- context [run (clear_lock_contended _) ?m2] =>
        destruct (clear_lock_contended_returns retries m2) as [[[] m3] ->] end.
      + cbn. lia.
      + done.
    - apply IH; cbn.
      + destruct (decide (header m1 = orig)) as [Heq|Hne]; [|specialize (Hlt Hne); lia].
        assert (length (others m0) < length (others m1))%nat by (apply Hp1; congruence).
        lia.
      + destruct (decide (header m1 = orig)) as [Heq|Hne]; [|specialize (Hlt Hne); lia].
        assert (length (others m0) < length (others m1))%nat by (apply Hp1; congruence).
        lia. }
  cbn [inflate_for_contention_loop]. run_step.
  next_interfered Hl1 Hp1.
  destruct (meaning (header m0)) eqn:Hmeaning.
  - run_step. apply (Hinstall _ _ _ (length (others m0))); cbn; try done; try lia.
    by apply not_inflated_by_meaning; rewrite Hmeaning.
  - run_step. apply (Hinstall _ _ _ (length (others m0))); cbn; try done; try lia.
    by apply not_inflated_by_meaning; rewrite Hmeaning.
  - case_bool_decide; [done|].
    run_step. apply (Hinstall _ _ _ (length (others m0))); cbn; try done; try lia.
    by apply not_inflated_by_meaning; rewrite Hmeaning.
  - run_step. unfold handle. run_step.
    next_interfered Hl2 Hp2.
    assert (Hthin : inflated (header m0) = false)
      by (by apply not_inflated_by_meaning; rewrite Hmeaning).
    destruct (meaning (header m1)); run_step;
      apply (Hinstall _ _ _ (length (others m0))); cbn; try done; try lia.
  - done.
Qed.

Lemma inflation_call_returns (c : InflationCall) (m : Memory) :
  (length (others m) + 1 < fuel_of c)%nat →
  is_Some (run (inflation_call c) m).
Proof.
  intros Hfuel.
  assert (Hcall : ∀ {B} (body : Prog B) (g : B → option bool),
    is_Some (run body (logged (Acquired inflation_lock_) m)) →
    is_Some (run (r ← guarded inflation_lock_ body; Ret (g r)) m)).
  { intros B body g [[b m1] Hbody]. rewrite run_bind, run_guarded, Hbody. done. }
  destruct c as [fuel thread_id which_mark count|fuel thread_id which_mark
                |fuel thread_id which_mark|fuel which_mark id|fuel which_mark hd];
    cbn in Hfuel; cbn [inflation_call].
  - apply (Hcall _ _ Some). run_step. next_interfered Hl1 Hp1.
    destruct (inflated (header m0)) eqn:Hthin; run_step; [done|].
    apply inflate_lock_count_overflow_loop_returns; [done|done|cbn; lia].
  - apply (Hcall _ _ Some). run_step. next_interfered Hl1 Hp1.
    unfold inflate_and_lock_install.
    destruct (meaning (header m0)) eqn:Hmeaning.
    + done.
    + run_step. apply inflate_and_lock_loop_returns.
      * by apply not_inflated_by_meaning; rewrite Hmeaning.
      * left. cbn. lia.
    + case_bool_decide; [done|].
      run_step. apply inflate_and_lock_loop_returns.
      * by apply not_inflated_by_meaning; rewrite Hmeaning.
      * left. cbn. lia.
    + run_step. unfold handle. run_step. next_interfered Hl2 Hp2.
      destruct (meaning (header m1)); run_step; apply inflate_and_lock_loop_returns;
        try (by apply not_inflated_by_meaning; rewrite Hmeaning);
        left; cbn; lia.
    + done.
  - apply (Hcall _ _ Some).
    apply inflate_for_contention_loop_returns; cbn; lia.
  - apply (Hcall _ _ (λ _, None)). run_step. next_interfered Hl1 Hp1.
    destruct (inflated (header m0)) eqn:Hthin.
    + unfold set_in_inflated_header. run_step. done.
    + run_step. apply inflate_for_loop_returns; [done|done|cbn; lia].
  - apply (Hcall _ _ (λ _, None)). run_step. next_interfered Hl1 Hp1.
    destruct (inflated (header m0)) eqn:Hthin.
    + unfold set_in_inflated_header. run_step. done.
    + run_step. apply inflate_for_loop_returns; [done|done|cbn; lia].
Qed.

(** A header read inflated before any write of the call's own was not
    installed by the call. *)
Lemma observed_before_install (later later' earlier earlier' : list Event) h e n :
  later ++ Loaded h :: earlier = later' ++ Swapped e n true :: earlier' →
  inflated h = true → writes earlier = [] →
  (∀ h, Loaded h ∈ earlier' → inflated h = false) → False.
Proof.
  intros Heq Hh Hw Hloads. apply app_eq_inv in Heq as [(k & -> & Hk)|(k & -> & Hk)].
  - destruct k as [|e0 k]; [done|]. injection Hk as <- ->.
    rewrite (Hloads h) in Hh; [done|].
    apply elem_of_app. right. apply list_elem_of_here.
  - destruct k as [|e0 k]; [done|]. injection Hk as <- ->.
    rewrite writes_app in Hw. cbn in Hw. by destruct (writes k).
Qed.

(** After a failed swap, or at any other time.  Whatever the other threads
    do, a call that reads an inflated header before it has written to the
    header itself refuses, writes nothing to the header, and stores what it
    stores in the record that header has. *)
Lemma inflation_call_defers (c : InflationCall) (m : Memory) :
  Forall keeps_inflated (others m) →
  (length (others m) + 1 < fuel_of c)%nat →
  ∃ r m' post,
    run (inflation_call c) m = Some (r, m')
    ∧ log m' = post ++ log m
    ∧ ∀ later h earlier,
        post = later ++ Loaded h :: earlier →
        inflated h = true → writes earlier = [] →
        r = refusal c
        ∧ writes post = []
        ∧ inflated (header m') = true
        ∧ aux_word (header m') = aux_word h
        ∧ ∀ i r0, inflated_headers_ m !! i = Some r0 →
            inflated_headers_ m' !! i
            = Some (if decide (i = index_of h) then stores c r0 else r0).
Proof.
  intros Hrely Hfuel.
  destruct (inflation_call_returns c m Hfuel) as [[r m'] Hrun].
  exists r, m'.
  destruct (inflation_call_seeks c) as (B & body & g & refused & Hcall & Hg & Hseeks).
  rewrite Hcall in *. rewrite run_bind, run_guarded in Hrun.
  rewrite run_bind, run_guarded.
  destruct (run body _) as [[b m1]|] eqn:Hbody; [|done].
  cbn in Hrun. injection Hrun as <- <-.
  destruct (seeks_run _ _ _ _ _ (Hseeks (length (inflated_headers_ m))) _ _ _ Hbody)
    as (post & Hlog & Hcases); [done|done|].
  cbn in Hlog.
  exists (Released inflation_lock_ :: post ++ [Acquired inflation_lock_]).
  split; [done|]. split; [cbn; rewrite Hlog; by rewrite <- app_assoc|].
  intros later h earlier Hpost Hh Hw.
  destruct Hcases as [(later' & e & n & earlier' & -> & He & Hn & Hw' & Hloads)
                     |(-> & Hw' & Hloads & Hrec)].
  - exfalso.
    apply (observed_before_install later (Released inflation_lock_ :: later')
             earlier (earlier' ++ [Acquired inflation_lock_]) h e n); try done.
    + rewrite <- Hpost. cbn. by rewrite <- app_assoc.
    + intros h' [?|?%list_elem_of_singleton]%elem_of_app; [by apply Hloads|done].
  - assert (Hin : Loaded h ∈ post).
    { assert (Hall : Loaded h ∈ Released inflation_lock_ :: post ++ [Acquired inflation_lock_]).
      { rewrite Hpost. apply elem_of_app. right. apply list_elem_of_here. }
      apply elem_of_cons in Hall as [?|Hall]; [done|].
      apply elem_of_app in Hall as [?|Hall]; [done|].
      by apply list_elem_of_singleton in Hall. }
    destruct (Hloads h Hin Hh) as [Hi' Ha']. cbn [header inflated_headers_ logged].
    split_and!; try done.
    + cbn. by rewrite writes_app, Hw'.
    + intros i r0 Hr0.
      rewrite (Hrec i r0); [|by eapply lookup_lt_Some|done].
      f_equal.
      replace (index_of (header m1)) with (index_of h)
        by (unfold index_of; by rewrite Ha').
      destruct c; cbn; try done; by case_decide.
Qed.

(** *** Several threads at once *)

Lemma critical_inside {B} (body : Prog B) :
  critical body →
  inside (bind (bind body (λ r, release inflation_lock_;; Ret r)) (λ _, Ret tt)).
Proof.
  induction 1; cbn; try (constructor; auto).
Qed.

Lemma inflation_thread_outside (c : InflationCall) : outside (inflation_thread c).
Proof.
  destruct (inflation_call_critical c) as (B & body & g & _ & -> & Hcritical).
  unfold thread, guarded. cbn [acquire bind]. constructor.
  by apply critical_inside.
Qed.

Lemma replay_snoc events entry : ∀ held,
  replay (events ++ [entry]) held =
    match replay events held with
    | Some held' => replay [entry] held'
    | None => None
    end.
Proof.
  induction events as [|[i e] events IH]; intros held.
  - cbn [app replay]. by destruct (replay [entry] held).
  - cbn [app replay].
    destruct e as [[|]|[|]|h|expected new ok|index|index]; try apply IH.
    + destruct held; [done|apply IH].
    + case_decide; [apply IH|done].
    + destruct (installs (Swapped expected new ok) && _); [done|apply IH].
    + case_decide; [apply IH|done].
Qed.

(** A step that leaves the lock and installs nothing keeps the history in
    order. *)
Lemma replay_noted i e w held :
  replay (reverse (history w)) None = Some held →
  replay [(i, e)] held = Some (holder (noted i e w) inflation_lock_) →
  replay (reverse (history (noted i e w))) None
  = Some (holder (noted i e w) inflation_lock_).
Proof.
  intros Hreplay Hlast. cbn [noted history]. rewrite reverse_cons, replay_snoc.
  by rewrite Hreplay.
Qed.

Lemma installed_noted i e w :
  installed (noted i e w) = if installs e then S (installed w) else installed w.
Proof.
  unfold installed. cbn [noted history]. rewrite filter_cons. cbn.
  destruct (installs e); by case_decide.
Qed.

Lemma installs_or_keeps_installs expected new :
  installs_or_keeps expected new →
  (installs (Swapped expected new true) = true
   ∧ inflated expected = false ∧ inflated new = true)
  ∨ (installs (Swapped expected new true) = false
     ∧ inflated new = inflated expected ∧ aux_word new = aux_word expected).
Proof.
  intros [[Hthin ->]|[Hmeaning Haux]].
  - left. cbn. rewrite Hthin. done.
  - right. cbn. rewrite (inflated_by_meaning expected new Hmeaning).
    split; [by destruct (inflated expected)|done].
Qed.

(** The threads' places after thread [i] has moved to [p'], the lock being
    held by [now]. *)
Lemma places_after_step (pool : list (Prog unit)) (was now : option nat) i p p' :
  (∀ j q, pool !! j = Some q → if decide (was = Some j) then inside q else outside q) →
  pool !! i = Some p →
  (if decide (now = Some i) then inside p' else outside p') →
  (∀ j, j ≠ i → (was = Some j ↔ now = Some j)) →
  ∀ j q, <[i := p']> pool !! j = Some q →
    if decide (now = Some j) then inside q else outside q.
Proof.
  intros Hpool Hp Hp' Hothers j q Hq.
  destruct (decide (j = i)) as [->|Hne].
  - rewrite list_lookup_insert_eq in Hq by (by eapply lookup_lt_Some).
    by injection Hq as <-.
  - rewrite list_lookup_insert_ne in Hq by done.
    specialize (Hpool j q Hq). specialize (Hothers j Hne).
    destruct (decide (was = Some j)), (decide (now = Some j)); tauto.
Qed.

(** A step that touches neither the lock nor the header. *)
Lemma disciplined_quiet_step initial pool w i p p' e :
  disciplined initial pool w →
  pool !! i = Some p →
  (if decide (holder w inflation_lock_ = Some i) then inside p' else outside p') →
  replay [(i, e)] (holder w inflation_lock_) = Some (holder w inflation_lock_) →
  installs e = false →
  (∀ expected new, e ≠ Swapped expected new true) →
  ∀ t, disciplined initial (<[i := p']> pool) (noted i e (with_inflated_headers t w)).
Proof.
  intros (Hpool & Hreplay & Hgood & Hcount & Hone & Hterminal) Hp Hp' Hlast Hno Hnot t.
  unfold disciplined. split_and!.
  - cbn. eapply places_after_step; try done.
  - apply (replay_noted i e (with_inflated_headers t w) (holder w inflation_lock_)); done.
  - cbn. constructor; [|done]. cbn. intros expected new ->. by destruct (Hnot expected new).
  - rewrite installed_noted, Hno. done.
  - rewrite installed_noted, Hno. done.
  - done.
Qed.

Lemma disciplined_read_step initial pool w i p p' e :
  disciplined initial pool w →
  pool !! i = Some p →
  (if decide (holder w inflation_lock_ = Some i) then inside p' else outside p') →
  replay [(i, e)] (holder w inflation_lock_) = Some (holder w inflation_lock_) →
  installs e = false →
  (∀ expected new, e ≠ Swapped expected new true) →
  disciplined initial (<[i := p']> pool) (noted i e w).
Proof.
  intros Hdisc Hp Hp' Hlast Hno Hnot.
  exact (disciplined_quiet_step initial pool w i p p' e Hdisc Hp Hp' Hlast Hno Hnot
           (shared_inflated_headers w)).
Qed.

(** Every turn keeps the pool disciplined. *)
Lemma take_turn_disciplined initial (pool : list (Prog unit)) w turn :
  match turn with Thread _ => True | Other f => keeps_inflated f end →
  disciplined initial pool w →
  disciplined initial (take_turn (pool, w) turn).1 (take_turn (pool, w) turn).2.
Proof.
  intros Hturn Hdisc. destruct turn as [i|f]; cbn [take_turn].
  2: { destruct Hdisc as (Hpool & Hreplay & Hgood & Hcount & Hone & Hterminal).
       unfold disciplined. cbn. split_and!; try done.
       - intros Hinstalled. by apply Hturn, Hone.
       - intros Hinitial. destruct (Hterminal Hinitial) as [Hnow Haux].
         destruct (Hturn _ Hnow) as [? ?]. split; [done|congruence]. }
  destruct (pool !! i) as [p|] eqn:Hp; [|done].
  pose proof Hdisc as (Hpool & Hreplay & Hgood & Hcount & Hone & Hterminal).
  pose proof (Hpool i p Hp) as Hwhere.
  destruct (decide (holder w inflation_lock_ = Some i)) as [Hmine|Hnot].
  - destruct Hwhere as [|k Hk|expected new k Hswap Hk|k Hk|index k Hk|index f k Hk|].
    + cbn. by rewrite list_insert_id.
    + cbn [step fst snd].
      apply (disciplined_read_step initial pool w i (Load k));
        [done | done | rewrite decide_True by done; apply Hk
        | cbn; by rewrite Hmine | done | done].
    + cbn [step]. destruct (decide (shared_header w = expected)) as [Hsame|Hdiff];
        cbn [fst snd].
      2: { apply (disciplined_read_step initial pool w i (Cas expected new k));
             [done | done | rewrite decide_True by done; apply Hk
             | cbn; by rewrite Hmine | done | done]. }
      unfold disciplined. split_and!.
      * cbn. eapply places_after_step; try done.
        rewrite decide_True by done. apply Hk.
      * apply (replay_noted i _ (with_header new w) (holder w inflation_lock_)); [done|].
        cbn [replay]. rewrite bool_decide_eq_true_2 by done. cbn [negb].
        rewrite andb_false_r. done.
      * cbn. constructor; [|done]. cbn. by intros ? ? [= <- <-].
      * rewrite installed_noted.
        change (installed (with_header new w)) with (installed w).
        destruct (installs_or_keeps_installs expected new Hswap)
          as [(-> & Hthin & _)|(-> & _)]; [|done].
        destruct (decide (installed w = 1%nat)) as [Hfull|]; [|lia].
        specialize (Hone Hfull). congruence.
      * rewrite installed_noted.
        change (installed (with_header new w)) with (installed w).
        change (shared_header (noted i (Swapped expected new true) (with_header new w)))
          with new.
        destruct (installs_or_keeps_installs expected new Hswap)
          as [(-> & _ & Hnew)|(-> & Hkeep & _)]; [done|].
        intros Hfull. rewrite Hkeep, <- Hsame. by apply Hone.
      * intros Hinitial. destruct (Hterminal Hinitial) as [Hnow Haux]. cbn.
        rewrite Hsame in Hnow, Haux.
        destruct (installs_or_keeps_installs expected new Hswap)
          as [(_ & Hthin & _)|(_ & Hkeep & Hidx)]; [congruence|].
        split; congruence.
    + cbn [step fst snd].
      apply (disciplined_quiet_step initial pool w i (Allocate k));
        [done | done | rewrite decide_True by done; apply Hk
        | cbn; by rewrite decide_True | done | done].
    + cbn [step fst snd].
      assert (Hsame : <[i := k (shared_inflated_headers w !! index)]> pool
                      = <[i := k (shared_inflated_headers w !! index)]> pool) by done.
      unfold disciplined. split_and!; try done.
      eapply places_after_step; try done.
      rewrite decide_True by done. apply Hk.
    + cbn [step fst snd].
      apply (disciplined_quiet_step initial pool w i (Modify index f k));
        [done | done | by rewrite decide_True
        | cbn; by rewrite Hmine | done | done].
    + cbn [step fst snd]. unfold disciplined. split_and!.
      * cbn. eapply places_after_step; try done.
        -- destruct (decide (inflation_lock_ = inflation_lock_)) as [_|?]; [|done].
           rewrite decide_False by done. constructor.
        -- intros j Hne.
           destruct (decide (inflation_lock_ = inflation_lock_)) as [_|?]; [|done].
           rewrite Hmine. split; [intros [= ->]; done|done].
      * apply (replay_noted i _ (with_holder inflation_lock_ None w)
                 (holder w inflation_lock_)); [done|].
        cbn. destruct (decide (inflation_lock_ = inflation_lock_)) as [_|?]; [|done].
        by rewrite decide_True.
      * cbn. constructor; [|done]. cbn. done.
      * by rewrite installed_noted.
      * by rewrite installed_noted.
      * done.
  - destruct Hwhere as [|k Hk].
    + cbn. by rewrite list_insert_id.
    + cbn [step]. destruct (holder w inflation_lock_) as [j|] eqn:Hholder; cbn [fst snd].
      { by rewrite list_insert_id. }
      unfold disciplined. split_and!.
      * cbn. destruct (decide (inflation_lock_ = inflation_lock_)) as [_|?]; [|done].
        eapply places_after_step; try done.
        -- by rewrite decide_True.
        -- intros j Hne. split; [done|]. intros [= ->]. done.
      * apply (replay_noted i _ (with_holder inflation_lock_ (Some i) w) None);
          [exact Hreplay|].
        cbn. by destruct (decide (inflation_lock_ = inflation_lock_)).
      * cbn. constructor; [|done]. cbn. done.
      * by rewrite installed_noted.
      * by rewrite installed_noted.
      * done.
Qed.

Lemma exec_disciplined (calls : list InflationCall) (turns : list Turn)
    (h : HeaderWord) (t : list InflatedHeader) :
  others_keep_inflated turns →
  disciplined h
    (exec turns (inflation_thread <$> calls) (mkWorld h t (λ _, None) [])).1
    (exec turns (inflation_thread <$> calls) (mkWorld h t (λ _, None) [])).2.
Proof.
  induction turns as [|turn turns IH] using rev_ind; intros Hothers.
  - unfold exec, disciplined. cbn. split_and!; try done; try lia; try constructor.
    intros i p Hp. rewrite list_lookup_fmap in Hp.
    destruct (calls !! i) as [c|]; [|done]. injection Hp as <-.
    apply inflation_thread_outside.
  - apply Forall_app in Hothers as [Hturns Hturn].
    apply Forall_cons in Hturn as [Hturn _].
    unfold exec in *. rewrite foldl_snoc.
    destruct (foldl take_turn _ turns) as [pool w].
    apply take_turn_disciplined; [done|]. by apply IH.
Qed.

(** C9.  Every call that inflates takes the inflation lock before it
    allocates a side record and installs it, and installs it by a swap of
    the whole header word, which changes the meaning and the auxiliary word
    and no other bit.  So in every interleaving of any such calls, with any
    turns of other threads that keep an inflated header inflated: the
    history keeps the discipline of the lock (it is taken only when free,
    released only by its holder, and records are allocated and installed
    only by its holder); every swap that took either installs in that way or
    keeps meaning and auxiliary word; and at most one record has been
    installed. *)
Theorem inflation_is_serialized (calls : list InflationCall) (turns : list Turn)
    (h : HeaderWord) (t : list InflatedHeader) :
  others_keep_inflated turns →
  let w := (exec turns (inflation_thread <$> calls) (mkWorld h t (λ _, None) [])).2 in
  replay (reverse (history w)) None = Some (holder w inflation_lock_)
  ∧ Forall (λ entry, ∀ expected new,
              entry.2 = Swapped expected new true → installs_or_keeps expected new)
           (history w)
  ∧ (installed w ≤ 1)%nat.
Proof.
  intros Hothers w.
  destruct (exec_disciplined calls turns h t Hothers) as (_ & Hreplay & Hgood & Hcount & _).
  done.
Qed.

(** *** No operation takes an inflated header back *)

Lemma harmless_bind {A B} (p : Prog A) (k : A → Prog B) :
  harmless p → (∀ a, harmless (k a)) → harmless (bind p k).
Proof.
  intros Hp Hk. induction Hp; cbn; try (constructor; auto); auto.
Qed.

Lemma critical_harmless {A} (p : Prog A) : critical p → harmless p.
Proof.
  induction 1; constructor; auto. by apply installs_or_keeps_keeps.
Qed.

Lemma harmless_guarded {A} l (body : Prog A) : harmless body → harmless (guarded l body).
Proof.
  intros Hbody. unfold guarded. cbn [acquire bind]. constructor.
  apply harmless_bind; [done|]. intros r. cbn. repeat constructor.
Qed.

Lemma harmless_register_contention fuel : harmless (register_contention fuel).
Proof.
  induction fuel as [|fuel IH]; cbn [register_contention]; [constructor|].
  cbn [load bind atomic_set]. constructor. intros read. constructor.
  - intros Hinflated. cbn in Hinflated. done.
  - intros [|]; [constructor|]. constructor. intros now.
    destruct (inflated now); [constructor|]. case_bool_decide; [constructor|done].
Qed.

Lemma harmless_wait_for_inflation wakeups timed interrupt :
  harmless (wait_for_inflation wakeups timed interrupt).
Proof.
  induction wakeups as [|w wakeups IH]; cbn [wait_for_inflation load bind];
    constructor; intros now; destruct (inflated now); try constructor.
  - destruct timed; constructor.
  - destruct (timed && timed_out w); [constructor|].
    destruct (interrupt && check_local_interrupts w && interrupted_exception w);
      [constructor|done].
Qed.

Lemma harmless_contend_for_lock fuel thread_id us interrupt wakeups :
  harmless (contend_for_lock fuel thread_id us interrupt wakeups).
Proof.
  unfold contend_for_lock. apply harmless_bind.
  - apply harmless_guarded. unfold contend_under_lock. apply harmless_bind.
    + apply harmless_register_contention.
    + intros [status|]; [constructor|].
      apply harmless_bind; [apply harmless_wait_for_inflation|].
      intros [| |]; constructor.
  - intros [status|]; [constructor|]. cbn. constructor. intros h.
    constructor. intros status. constructor.
Qed.

Lemma harmless_writes_keep {A} (p : Prog A) :
  harmless p → ∀ m r m',
  run p m = Some (r, m') →
  Forall keeps (writes (log m)) → Forall keeps (writes (log m')).
Proof.
  induction 1 as [a| |k Hk IH|e n k Hcas Hk IH|k Hk IH|i k Hk IH|i f k Hk IH
                 |l k Hk IH|l k Hk IH|i t timed intr k Hk IH];
    intros m r m' Hrun Hlog; cbn in Hrun.
  - by injection Hrun as <- <-.
  - done.
  - eapply IH; [exact Hrun|]. cbn. by rewrite (proj1 (proj2 (interfered_frame m))).
  - destruct (interfered_frame m) as (_ & Hl & _).
    case_decide; (eapply IH; [exact Hrun|]); cbn; rewrite Hl; [|done].
    by constructor.
  - eapply IH; [exact Hrun|]. done.
  - eapply IH; [exact Hrun|]. done.
  - eapply IH; [exact Hrun|]. done.
  - eapply IH; [exact Hrun|]. done.
  - eapply IH; [exact Hrun|]. done.
  - destruct (inflated_headers_ m !! i) as [ih|].
    + destruct (lock_mutex t timed intr ih) as [status ih']. eapply IH; [exact Hrun|]. done.
    + eapply IH; [exact Hrun|]. done.
Qed.

(** C4.  An inflated header is terminal.  A call that inflates and reads an
    inflated header on entry returns false, or, for [inflate_for_id] and
    [inflate_for_handle], stores the id or the handle in the side record the
    header has.  So does a call that reads an inflated header at any later
    time, before a swap of its own has taken: after a swap that failed, in
    whichever round of its loop, and whatever the other threads have done to
    the header until then, as long as they keep an inflated header inflated;
    the call returns as long as its loop has more rounds than the others
    take turns.  Either way the call writes nothing to the header and leaves
    the other side records alone.  No write of such a call, nor of
    [contend_for_lock], replaces an inflated header by one that is not
    inflated or has another index; and in every interleaving of such calls
    a header that is inflated stays so. *)
Theorem inflated_header_is_terminal (c : InflationCall) (m : Memory) :
  (2 ≤ fuel_of c)%nat →
  (inflated (header (interfered m)) = true →
   Forall keeps_inflated (others m) →
   ∃ m',
     run (inflation_call c) m = Some (refusal c, m')
     ∧ writes (log m') = writes (log m)
     ∧ inflated (header m') = true
     ∧ aux_word (header m') = aux_word (header (interfered m))
     ∧ ∀ i r, inflated_headers_ m !! i = Some r →
         inflated_headers_ m' !! i
         = Some (if decide (i = index_of (header (interfered m))) then stores c r else r))
  ∧ (Forall keeps_inflated (others m) →
     (length (others m) + 1 < fuel_of c)%nat →
     ∃ r m' post,
       run (inflation_call c) m = Some (r, m')
       ∧ log m' = post ++ log m
       ∧ ∀ later h earlier,
           post = later ++ Loaded h :: earlier →
           inflated h = true → writes earlier = [] →
           r = refusal c
           ∧ writes post = []
           ∧ inflated (header m') = true
           ∧ aux_word (header m') = aux_word h
           ∧ ∀ i r0, inflated_headers_ m !! i = Some r0 →
               inflated_headers_ m' !! i
               = Some (if decide (i = index_of h) then stores c r0 else r0))
  ∧ (∀ r m',
       run (inflation_call c) m = Some (r, m') →
       Forall keeps (writes (log m)) → Forall keeps (writes (log m')))
  ∧ (∀ fuel thread_id us interrupt wakeups status m',
       run (contend_for_lock fuel thread_id us interrupt wakeups) m = Some (status, m') →
       Forall keeps (writes (log m)) → Forall keeps (writes (log m')))
  ∧ (∀ calls turns t,
       others_keep_inflated turns →
       inflated (header m) = true →
       let w := (exec turns (inflation_thread <$> calls)
                   (mkWorld (header m) t (λ _, None) [])).2 in
       inflated (shared_header w) = true
       ∧ aux_word (shared_header w) = aux_word (header m)).
Proof.
  intros Hfuel. split_and!.
  - intros Hentry Hrely. apply inflation_call_on_entry; [lia|done|done].
  - apply inflation_call_defers.
  - intros r m'. apply inflation_call_writes_keep.
  - intros fuel thread_id us interrupt wakeups status m'.
    apply harmless_writes_keep, harmless_contend_for_lock.
  - intros calls turns t Hothers Hinflated w.
    destruct (exec_disciplined calls turns (header m) t Hothers) as (_ & _ & _ & _ & _ & Hterminal).
    by apply Hterminal.
Qed.

End HeaderFacts.

(** ** The theorems at work *)

Section Examples.
Import Machine Header.

(** C3, refuted as worded: a call that times out has set the contended
    flag of the header, which it does before it waits and never undoes. *)
Lemma contend_for_lock_marks_header_on_timeout :
  ∃ m',
    run (contend_for_lock 1 4 10000 false []) (quiet_memory (thin_locked 3 5 false))
    = Some (eLockTimeout, m')
    ∧ header m' = thin_locked 3 5 true
    ∧ header m' ≠ thin_locked 3 5 false.
Proof.
  eexists. split; [vm_compute; reflexivity|]. split; [reflexivity|]. discriminate.
Qed.

Lemma contend_for_lock_times_out_witness :
  ∃ m',
    run (contend_for_lock 1 4 10000 false []) (quiet_memory (thin_locked 3 5 false))
    = Some (eLockTimeout, m')
    ∧ header m' = set_LockContended true (thin_locked 3 5 false)
    ∧ inflated_headers_ m' = [].
Proof.
  destruct (contend_for_lock_times_out (quiet_memory (thin_locked 3 5 false))
              1 4 10000 false [])
    as (m' & read & Hrun & _ & _ & _ & _ & _ & Htable & Hquiet).
  - lia.
  - reflexivity.
  - apply Forall_nil_2.
  - cbn. lia.
  - left. reflexivity.
  - exists m'. split; [exact Hrun|]. split; [apply Hquiet; reflexivity | exact Htable].
Defined.

(** C5, refuted as worded: a thin lock taken 254 times over, inflated by
    [inflate_lock_count_overflow] with a count of 255, has a mutex with 255
    recursions. *)
Lemma inflate_lock_count_overflow_takes_count_from_caller :
  lock_count (thin_locked 3 254 false) = 254
  ∧ ∃ m' r,
      run (inflate_lock_count_overflow 1 3 2 255) (quiet_memory (thin_locked 3 254 false))
      = Some (true, m')
      ∧ inflated_headers_ m' !! index_of (header m') = Some r
      ∧ owner_id_ r = 3
      ∧ rec_lock_count_ r = 255.
Proof.
  split; [reflexivity|]. do 2 eexists.
  split; [vm_compute; reflexivity|]. split; [reflexivity|]. split; reflexivity.
Qed.

Lemma thin_lock_survives_inflation_witness :
  (∃ m' r,
     run (inflate_and_lock 1 3 2) (quiet_memory (thin_locked 3 5 false)) = Some (true, m')
     ∧ inflated_headers_ m' !! 0%nat = Some r
     ∧ owner_id_ r = 3 ∧ rec_lock_count_ r = 5)
  ∧ (∃ m' r,
       run (inflate_lock_count_overflow 1 3 2 6) (quiet_memory (thin_locked 3 5 false))
       = Some (true, m')
       ∧ inflated_headers_ m' !! 0%nat = Some r
       ∧ owner_id_ r = 3 ∧ rec_lock_count_ r = 6).
Proof.
  destruct (thin_lock_survives_inflation (quiet_memory (thin_locked 3 5 false)) 1 3 2 6)
    as ((m1 & r1 & Hrun1 & _ & _ & Hr1 & Howner1 & Hcount1)
        & (m2 & r2 & Hrun2 & _ & _ & Hr2 & Howner2 & Hcount2)).
  - reflexivity.
  - reflexivity.
  - apply Forall_nil_2.
  - cbn. lia.
  - split.
    + exists m1, r1. split; [exact Hrun1|]. split; [exact Hr1|].
      split; [exact Howner1 | exact Hcount1].
    + exists m2, r2. split; [exact Hrun2|]. split; [exact Hr2|].
      split; [exact Howner2 | exact Hcount2].
Defined.

Lemma inflate_for_contention_unlocks_witness :
  (∃ m' r,
     run (inflate_for_contention 1 3 2) (quiet_memory (thin_locked 3 5 true)) = Some (true, m')
     ∧ meaning (header m') = eAuxWordInflated
     ∧ LockContended (header m') = false
     ∧ inflated_headers_ m' !! index_of (header m') = Some r
     ∧ owner_id_ r = 0 ∧ rec_lock_count_ r = 0)
  ∧ (∃ m',
       run (inflate_for_contention 1 4 2) (quiet_memory (thin_locked 3 5 true))
       = Some (false, m')
       ∧ header m' = thin_locked 3 5 true
       ∧ inflated_headers_ m' = []).
Proof.
  split.
  - destruct (inflate_for_contention_unlocks (quiet_memory (thin_locked 3 5 true)) 1 3 2)
      as (Hown & _).
    + reflexivity.
    + apply Forall_nil_2.
    + cbn. lia.
    + apply Hown. reflexivity.
  - destruct (inflate_for_contention_unlocks (quiet_memory (thin_locked 3 5 true)) 1 4 2)
      as (_ & Hother).
    + reflexivity.
    + apply Forall_nil_2.
    + cbn. lia.
    + destruct Hother as (m' & Hrun & Hheader & Htable & _); [discriminate|].
      exists m'. split; [exact Hrun|]. split; [exact Hheader | exact Htable].
Defined.

Lemma racing_turns_keep_inflated : others_keep_inflated racing_turns.
Proof.
  unfold others_keep_inflated, racing_turns. cbn [replicate app].
  repeat (apply Forall_cons_2;
          [first [exact I | intros h Hh; split; [exact Hh | reflexivity]] |]).
  apply Forall_nil_2.
Defined.

(** The race comes out with one side record, which has the lock of thread 3
    and the id the first call stored. *)
Lemma racing_world_installs_once :
  installed racing_world = 1%nat
  ∧ shared_header racing_world = set_LockContended true (inflated_at 0)
  ∧ shared_inflated_headers racing_world = [mkInflatedHeader 77 0 3 5 2].
Proof. vm_compute. done. Qed.

Lemma inflation_is_serialized_witness :
  replay (reverse (history racing_world)) None = Some (holder racing_world inflation_lock_)
  ∧ (installed racing_world ≤ 1)%nat.
Proof.
  destruct (inflation_is_serialized racing_calls racing_turns (thin_locked 3 5 false) []
              racing_turns_keep_inflated) as (Hreplay & _ & Hcount).
  split; [exact Hreplay | exact Hcount].
Defined.

Lemma overtaken_memory_keeps_inflated : Forall keeps_inflated (others overtaken_memory).
Proof.
  unfold overtaken_memory. cbn [others].
  repeat apply Forall_cons_2; [| | | |apply Forall_nil_2]; intros h Hh.
  - split; [exact Hh | reflexivity].
  - split; [exact Hh | reflexivity].
  - split; [exact Hh | reflexivity].
  - unfold inflated_by_other. rewrite Hh. split; [exact Hh | reflexivity].
Defined.

Lemma inflated_header_is_terminal_witness :
  (∃ m',
     run (inflation_call (CallInflateForId 2 2 77)) (mkMemory (inflated_at 0) [blank] [] [])
     = Some (None, m')
     ∧ inflated (header m') = true
     ∧ inflated_headers_ m' !! 0%nat = Some (set_object_id 77 blank))
  ∧ (∃ m',
       run (inflation_call (CallInflateAndLock 6 3 2)) overtaken_memory = Some (Some false, m')
       ∧ writes (log m') = []
       ∧ header m' = set_LockContended true (inflated_at 0)
       ∧ inflated_headers_ m' !! 0%nat = Some blank).
Proof.
  split.
  - destruct (inflated_header_is_terminal (CallInflateForId 2 2 77)
                (mkMemory (inflated_at 0) [blank] [] [])) as (Hentry & _).
    + cbn. lia.
    + destruct Hentry as (m' & Hrun & _ & Hinflated & _ & Htable).
      * reflexivity.
      * apply Forall_nil_2.
      * exists m'. split; [exact Hrun|]. split; [exact Hinflated|].
        exact (Htable 0%nat blank eq_refl).
  - destruct (inflated_header_is_terminal (CallInflateAndLock 6 3 2) overtaken_memory)
      as (_ & Hlater & _).
    + cbn. lia.
    + destruct (Hlater overtaken_memory_keeps_inflated) as (r & m' & post & Hrun & Hlog & Hread).
      * cbn. lia.
      * vm_compute in Hrun. injection Hrun as <- <-.
        cbn [log overtaken_memory] in Hlog. rewrite app_nil_r in Hlog. subst post.
        destruct (Hread [Released inflation_lock_] (set_LockContended true (inflated_at 0))
                    [Loaded (thin_locked 3 5 true);
                     Swapped (thin_locked 3 5 false)
                       (set_aux_word 1 (set_meaning eAuxWordInflated (thin_locked 3 5 false)))
                       false;
                     Modified 1; Modified 1; Allocated 1;
                     Loaded (thin_locked 3 5 false);
                     Acquired inflation_lock_])
          as (_ & Hwrites & _ & _ & Htable).
        -- reflexivity.
        -- reflexivity.
        -- reflexivity.
        -- eexists. split; [vm_compute; reflexivity|]. split; [exact Hwrites|].
           split; [reflexivity|]. exact (Htable 0%nat blank eq_refl).
Defined.

End Examples.

(** ** More on the header word *)

Section HeaderMore.
Import Machine Header.
Context `{OOP : Oop}.
Local Open Scope prog_scope.

Ltac unfold_step :=
  cbn [run bind load allocate modify acquire release atomic_set lookup_header
       allocated logged set_header set_inflated_headers
       header inflated_headers_ others log fst snd negb].

Ltac next_turn :=
  repeat first [ rewrite interfered_logged | rewrite interfered_set_inflated_headers ];
  rewrite interfered_cons; unfold_step.

(** The others take a turn on memory [m0], and leave meaning and auxiliary
    word alone: the facts are added under the given names. *)
Ltac quiet_turn m0 m1 Hm Ha Hq Ht Hl :=
  let Hq0 := fresh "Hq0" in
  assert (Hq0 : Forall keeps_meaning (others m0)) by done;
  destruct (interfered_keeps_meaning m0 Hq0) as (Hm & Ha & Hq);
  destruct (interfered_frame m0) as (Ht & _ & Hl);
  clear Hq0;
  cbn [logged set_header set_inflated_headers header inflated_headers_ others log]
    in Hm, Ha, Ht, Hl;
  set (m1 := interfered m0) in *.

(** *** Contending for what is not a thin lock *)

Lemma register_contention_refuses fuel m :
  meaning (header m) ≠ eAuxWordLock →
  Forall keeps_meaning (others m) → (1 ≤ fuel)%nat →
  ∃ m',
    run (register_contention fuel) m = Some (Some eLockError, m')
    ∧ writes (log m') = writes (log m)
    ∧ inflated_headers_ m' = inflated_headers_ m
    ∧ meaning (header m') = meaning (header m)
    ∧ aux_word (header m') = aux_word (header m).
Proof.
  intros Hother Hquiet Hfuel. destruct fuel as [|fuel]; [lia|].
  cbn [register_contention]. unfold_step.
  destruct (interfered_keeps_meaning m Hquiet) as (Hm1 & Ha1 & Hq1).
  destruct (interfered_frame m) as (Ht1 & Hlog1 & _).
  set (m1 := interfered m) in *.
  match goal with |- context [interfered ?m2'] => set (m2 := m2') end.
  assert (Hq2 : Forall keeps_meaning (others m2)) by done.
  destruct (interfered_keeps_meaning m2 Hq2) as (Hm3 & Ha3 & Hq3).
  destruct (interfered_frame m2) as (Ht3 & Hlog3 & _).
  set (m3 := interfered m2) in *.
  destruct (decide (header m3 = set_meaning eAuxWordLock (header m1))) as [Hsame|_].
  { exfalso. apply Hother. rewrite <- Hm1.
    change (header m1) with (header m2). rewrite <- Hm3, Hsame. done. }
  unfold_step.
  match goal with |- context [interfered ?m4'] => set (m4 := m4') end.
  assert (Hq4 : Forall keeps_meaning (others m4)) by done.
  destruct (interfered_keeps_meaning m4 Hq4) as (Hm5 & Ha5 & Hq5).
  destruct (interfered_frame m4) as (Ht5 & Hlog5 & _).
  set (m5 := interfered m4) in *.
  assert (Hsame_meaning : meaning (header m5) = meaning (header m)).
  { rewrite Hm5. unfold m4. cbn. rewrite Hm3. unfold m2. cbn. done. }
  assert (Hsame_aux : aux_word (header m5) = aux_word (header m)).
  { rewrite Ha5. unfold m4. cbn. rewrite Ha3. unfold m2. cbn. done. }
  assert (Hlog : writes (log m5) = writes (log m)).
  { rewrite Hlog5. unfold m4. cbn. rewrite Hlog3. unfold m2. cbn. by rewrite Hlog1. }
  assert (Htable : inflated_headers_ m5 = inflated_headers_ m).
  { rewrite Ht5. unfold m4. cbn. rewrite Ht3. unfold m2. cbn. done. }
  destruct (inflated (header m5)).
  - eexists. split; [done|]. cbn. done.
  - rewrite bool_decide_eq_true_2 by (cbn; by rewrite Hm1).
    eexists. split; [done|]. cbn. done.
Qed.

(** X1.  [contend_for_lock] contends for thin locks only.  Called on a header
    that is not thin-locked (empty, with an id or a handle, or already
    inflated), while the other threads leave meaning and auxiliary word
    alone, it returns [eLockError]: it has written nothing to the header and
    has touched no inflated mutex, also when the header is inflated and the
    mutex could be taken. *)
Theorem contend_for_lock_needs_thin_lock
    (m : Memory) (fuel : nat) (thread_id us : Z) (interrupt : bool)
    (wakeups : list Wakeup) :
  meaning (header m) ≠ eAuxWordLock →
  Forall keeps_meaning (others m) → (1 ≤ fuel)%nat →
  ∃ m',
    run (contend_for_lock fuel thread_id us interrupt wakeups) m = Some (eLockError, m')
    ∧ writes (log m') = writes (log m)
    ∧ inflated_headers_ m' = inflated_headers_ m
    ∧ meaning (header m') = meaning (header m)
    ∧ aux_word (header m') = aux_word (header m).
Proof.
  intros Hother Hquiet Hfuel.
  unfold contend_for_lock. rewrite run_bind, run_guarded.
  unfold contend_under_lock. rewrite run_bind.
  destruct (register_contention_refuses fuel (logged (Acquired contention_lock_) m))
    as (m1 & Hrun & Hw & Ht & Hmn & Hax); [done..|].
  rewrite Hrun. unfold_step. eexists. split; [done|]. cbn. done.
Qed.


(** *** Contending while the header is inflated *)

(** X2.  A contender that an inflation overtakes takes the inflated mutex.
    [contend_for_lock] reads a thin lock and sets the contended flag; when
    another thread has inflated the header before the contender looks again,
    it does not wait: it locks the mutex of the side record the header now
    points at, and returns what [lock_mutex] returns, asked with a timeout
    when [us] is positive.  The contended flag is the one thing it has
    written to the header. *)
Theorem contend_for_lock_locks_inflated
    (m : Memory) (fuel : nat) (thread_id us : Z) (interrupt : bool)
    (wakeups : list Wakeup)
    (f1 f2 f3 : HeaderWord → HeaderWord) (rest : list (HeaderWord → HeaderWord))
    (r : InflatedHeader) :
  let read := f1 (header m) in
  let foreign := f3 (set_LockContended true read) in
  let timed := bool_decide (0 < us) in
  (1 ≤ fuel)%nat →
  others m = f1 :: f2 :: f3 :: rest →
  meaning read = eAuxWordLock →
  f2 read = read →
  inflated foreign = true →
  Forall keeps_inflated rest →
  inflated_headers_ m !! index_of foreign = Some r →
  ∃ m',
    run (contend_for_lock fuel thread_id us interrupt wakeups) m
    = Some ((lock_mutex thread_id timed interrupt r).1, m')
    ∧ inflated_headers_ m'
      = <[index_of foreign := (lock_mutex thread_id timed interrupt r).2]> (inflated_headers_ m)
    ∧ writes (log m') = (read, set_LockContended true read) :: writes (log m)
    ∧ inflated (header m') = true
    ∧ aux_word (header m') = aux_word foreign.
Proof.
  intros read foreign timed Hfuel Hothers Hlock Hcalm Hinflated Hrely Hrecord.
  destruct m as [h t o l]. cbn in Hothers, Hrecord, read. subst o.
  destruct fuel as [|fuel]; [lia|].
  unfold contend_for_lock. rewrite run_bind, run_guarded.
  unfold contend_under_lock. rewrite run_bind.
  cbn [register_contention]. unfold_step. next_turn.
  fold read. rewrite (set_meaning_same read) by done.
  next_turn. rewrite Hcalm.
  rewrite decide_True by done. unfold_step.
  rewrite run_bind.
  assert (Hwait : ∀ l',
    run (wait_for_inflation wakeups timed interrupt)
      (mkMemory (set_LockContended true read) t (f3 :: rest) l')
    = Some (Broken, mkMemory foreign t rest (Loaded foreign :: l'))).
  { intros l'. destruct wakeups; cbn [wait_for_inflation]; unfold_step;
      next_turn; fold foreign; by rewrite Hinflated. }
  fold timed. cbv beta iota delta [logged set_header header inflated_headers_ others log]. rewrite Hwait. unfold_step.
  set (m1 := mkMemory foreign t rest _).
  destruct (interfered_keeps_inflated m1 Hinflated Hrely) as (Hi & Ha & _).
  destruct (interfered_frame m1) as (Ht & Hl & _).
  cbn [header inflated_headers_ log m1] in Hi, Ha, Ht, Hl.
  set (m2 := interfered m1) in *. clearbody m2.
  unfold index_of at 1 2. rewrite Ha. fold (index_of foreign).
  rewrite Ht, Hrecord.
  destruct (lock_mutex thread_id timed interrupt r) as [status ih] eqn:Hmutex.
  unfold_step. eexists. split; [done|]. unfold_step. cbn [writes].
  unfold index_of. rewrite Ha, Hl. cbn [writes]. done.
Qed.


Lemma inflate_for_loop_installs (P : InflatedHeader → Prop)
    (set : InflatedHeader → InflatedHeader) fuel :
  (∀ r, P (set r)) →
  ∀ m ih orig r,
  header m = orig → inflated orig = false →
  Forall keeps_meaning (others m) → (length (others m) < fuel)%nat →
  inflated_headers_ m !! ih = Some r → P r →
  ∃ m' r',
    run (inflate_for_loop fuel set ih orig) m = Some (tt, m')
    ∧ meaning (header m') = eAuxWordInflated
    ∧ aux_word (header m') = Z.of_nat ih
    ∧ inflated_headers_ m' !! ih = Some r'
    ∧ P r'.
Proof.
  intros Hset.
  induction fuel as [|fuel IH]; intros m ih orig r Hhdr Hthin Hquiet Hfuel Hr HP; [lia|].
  cbn [inflate_for_loop]. rewrite run_bind.
  unfold set_inflated_header. rewrite Hthin. cbn [atomic_set run].
  destruct (interfered_keeps_meaning m Hquiet) as (Hm1 & Ha1 & Hq1).
  destruct (interfered_frame m) as (Ht1 & _ & Hl1).
  set (m1 := interfered m) in *.
  destruct (decide (header m1 = orig)) as [Hsame|Hchanged].
  - cbn. eexists _, r. split; [done|]. cbn. rewrite Ht1. done.
  - assert (Hshort : (length (others m1) < length (others m))%nat).
    { apply interfered_progress. fold m1. congruence. }
    cbn [run]. cbn [load bind run].
    set (m2 := logged _ m1).
    assert (Hq2 : Forall keeps_meaning (others m2)) by done.
    destruct (interfered_keeps_meaning m2 Hq2) as (Hm3 & Ha3 & Hq3).
    destruct (interfered_frame m2) as (Ht3 & _ & Hl3).
    set (m3 := interfered m2) in *.
    assert (Hthin3 : inflated (header m3) = false).
    { rewrite <- Hthin. apply inflated_by_meaning. rewrite Hm3. cbn. rewrite Hm1.
      by rewrite Hhdr. }
    rewrite Hthin3. cbn [modify bind run].
    match goal with |- context [run _ ?m4] => set (m5 := m4) end.
    assert (Hlookup : inflated_headers_ m5 !! ih = Some (set (update (header m3) r))).
    { unfold m5. cbn. rewrite !list_lookup_alter_eq. rewrite Ht3. cbn. rewrite Ht1.
      rewrite Hr. done. }
    destruct (IH m5 ih (header m3) (set (update (header m3) r)))
      as (m' & r' & Hrun & Hrest); try done.
    + unfold m5. cbn. cbn in Hl3. lia.
    + exists m', r'. split; [exact Hrun | exact Hrest].
Qed.

Lemma inflate_for_stores (P : InflatedHeader → Prop)
    (set : InflatedHeader → InflatedHeader) (m : Memory) (fuel : nat) (which_mark : Z) :
  (∀ r, P (set r)) → (∀ r, P r → P (mark which_mark r)) →
  Forall keeps_meaning (others m) → (length (others m) < fuel)%nat →
  (inflated (header m) = true →
   (index_of (header m) < length (inflated_headers_ m))%nat) →
  ∃ m' r,
    run (inflate_for fuel set which_mark) m = Some (tt, m')
    ∧ inflated (header m') = true
    ∧ inflated_headers_ m' !! index_of (header m') = Some r
    ∧ P r
    ∧ (inflated (header m) = false →
       index_of (header m') = length (inflated_headers_ m)).
Proof.
  intros Hset Hmark Hquiet Hfuel Hrecord.
  unfold inflate_for. rewrite run_guarded. unfold_step.
  set (m0 := logged (Acquired inflation_lock_) m).
  assert (Hq0 : Forall keeps_meaning (others m0)) by done.
  destruct (interfered_keeps_meaning m0 Hq0) as (Hm1 & Ha1 & Hq1).
  destruct (interfered_frame m0) as (Ht1 & _ & Hl1).
  cbn [m0 logged header inflated_headers_ others] in Hm1, Ha1, Ht1, Hl1.
  set (m1 := interfered m0) in *.
  destruct (inflated (header m1)) eqn:Hinflated.
  - assert (Hwas : inflated (header m) = true).
    { rewrite <- Hinflated. by apply inflated_by_meaning. }
    unfold set_in_inflated_header. unfold_step.
    set (m2 := logged _ m1).
    assert (Hq2 : Forall keeps_meaning (others m2)) by done.
    destruct (interfered_keeps_meaning m2 Hq2) as (Hm3 & Ha3 & Hq3).
    destruct (interfered_frame m2) as (Ht3 & _ & Hl3).
    cbn [m2 logged header inflated_headers_ others] in Hm3, Ha3, Ht3.
    set (m3 := interfered m2) in *.
    assert (Hindex : index_of (header m3) = index_of (header m)).
    { unfold index_of. by rewrite Ha3, Ha1. }
    destruct (lookup_lt_is_Some_2 (inflated_headers_ m) (index_of (header m)))
      as [r Hr]; [by apply Hrecord|].
    eexists _, (set r). split; [done|]. unfold_step.
    split; [rewrite <- Hinflated; apply inflated_by_meaning; by rewrite Hm3|].
    rewrite Hindex, Ht3, Ht1, list_lookup_alter_eq, Hr.
    split_and!; [done|by apply Hset|]. intros Hnot. congruence.
  - assert (Hwas : inflated (header m) = false).
    { rewrite <- Hinflated. by apply inflated_by_meaning. }
    unfold_step. rewrite Ht1.
    set (ih := length (inflated_headers_ m)).
    match goal with |- context [run (inflate_for_loop _ _ _ _) ?m2] => set (m3 := m2) end.
    destruct (inflate_for_loop_installs P set fuel Hset m3 ih (header m1)
                (mark which_mark (set (update (header m1) (mkInflatedHeader 0 0 0 0 0)))))
      as (m' & r' & Hrun & Hmn & Hax & Hr' & HP); try done.
    { unfold m3. cbn. lia. }
    { unfold m3. unfold_step. rewrite !list_lookup_alter_eq.
      rewrite lookup_app_r by done. unfold ih. rewrite Nat.sub_diag. done. }
    { apply Hmark, Hset. }
    rewrite Hrun. eexists _, r'. split; [done|]. unfold_step.
    unfold inflated, index_of. rewrite Hmn, Hax, Nat2Z.id.
    split_and!; try done.
Qed.

(** X3.  [inflate_for_id] and [inflate_for_handle] always leave the object
    with an inflated header whose side record holds the id, or the handle,
    they were called with: in the record the header already had when it was
    inflated, in a new record at the end of the table otherwise.  The other
    threads may change the rest of the header meanwhile, as long as they
    leave meaning and auxiliary word alone. *)
Theorem inflate_for_id_and_handle_store
    (m : Memory) (fuel : nat) (which_mark value : Z) :
  Forall keeps_meaning (others m) → (length (others m) < fuel)%nat →
  (inflated (header m) = true →
   (index_of (header m) < length (inflated_headers_ m))%nat) →
  (∃ m' r,
     run (inflate_for_id fuel which_mark value) m = Some (tt, m')
     ∧ inflated (header m') = true
     ∧ inflated_headers_ m' !! index_of (header m') = Some r
     ∧ object_id_ r = value
     ∧ (inflated (header m) = false →
        index_of (header m') = length (inflated_headers_ m)))
  ∧ (∃ m' r,
       run (inflate_for_handle fuel which_mark value) m = Some (tt, m')
       ∧ inflated (header m') = true
       ∧ inflated_headers_ m' !! index_of (header m') = Some r
       ∧ handle_ r = value
       ∧ (inflated (header m) = false →
          index_of (header m') = length (inflated_headers_ m))).
Proof.
  intros Hquiet Hfuel Hrecord. split.
  - apply (inflate_for_stores (λ r, object_id_ r = value)); done.
  - apply (inflate_for_stores (λ r, handle_ r = value)); done.
Qed.

(** *** Inflating and locking what is not the caller's thin lock *)

Lemma inflate_and_lock_loop_catches_up fuel m ih orig :
  meaning (header m) = meaning orig → inflated orig = false →
  Forall keeps_meaning (others m) → (length (others m) + 1 < fuel)%nat →
  ∃ m', run (inflate_and_lock_loop fuel ih orig) m = Some (true, m')
    ∧ inflated_headers_ m' = inflated_headers_ m
    ∧ meaning (header m') = eAuxWordInflated
    ∧ aux_word (header m') = Z.of_nat ih.
Proof.
  intros Hmeaning Hthin Hquiet Hfuel. destruct fuel as [|fuel]; [lia|].
  cbn [inflate_and_lock_loop]. rewrite run_bind.
  unfold set_inflated_header. rewrite Hthin. cbn [atomic_set run].
  destruct (interfered_keeps_meaning m Hquiet) as (Hm1 & Ha1 & Hq1).
  destruct (interfered_frame m) as (Ht1 & _ & Hl1).
  set (m1 := interfered m) in *.
  destruct (decide (header m1 = orig)) as [Hsame|Hchanged].
  - cbn. eexists. split; [done|]. cbn. done.
  - cbn [run]. cbn [load bind run].
    set (m2 := logged _ m1).
    assert (Hq2 : Forall keeps_meaning (others m2)) by done.
    destruct (interfered_keeps_meaning m2 Hq2) as (Hm3 & Ha3 & Hq3).
    destruct (interfered_frame m2) as (Ht3 & _ & Hl3).
    set (m3 := interfered m2) in *.
    assert (Hmeaning3 : meaning (header m3) = meaning orig).
    { rewrite Hm3. cbn. rewrite Hm1. done. }
    rewrite bool_decide_eq_false_2 by (intros Hne; by apply Hne).
    cbn [load bind run].
    set (m4 := logged _ m3).
    assert (Hq4 : Forall keeps_meaning (others m4)) by done.
    destruct (interfered_keeps_meaning m4 Hq4) as (Hm5 & Ha5 & Hq5).
    destruct (interfered_frame m4) as (Ht5 & _ & Hl5).
    set (m5 := interfered m4) in *.
    assert (Hthin5 : inflated (header m5) = false).
    { rewrite <- Hthin. apply inflated_by_meaning. rewrite Hm5. done. }
    rewrite Hthin5.
    destruct (inflate_and_lock_loop_installs fuel (logged (Loaded (header m5)) m5) ih (header m5))
      as (m' & Hrun & Ht & Hmn & Hax); try done.
    + cbn. cbn in Hl3, Hl5. lia.
    + exists m'. split; [done|]. split_and!; [|done|done].
      rewrite Ht. cbn. rewrite Ht5. cbn. rewrite Ht3. cbn. done.
Qed.

(** X4.  What [inflate_and_lock] does with a header that is not the caller's
    thin lock.  An empty header and a thin lock of another thread are
    refused: the call returns false, allocates no side record and writes
    nothing.  A header with an object id or a handle is inflated: its new side
    record, the last of the table, has the id or the handle the header
    carried, and its mutex is the caller's, with a recursion count of 0. *)
Theorem inflate_and_lock_by_meaning
    (m : Memory) (fuel : nat) (thread_id which_mark : Z) :
  Forall keeps_meaning (others m) → (length (others m) + 1 < fuel)%nat →
  let ih := length (inflated_headers_ m) in
  (meaning (header m) = eAuxWordEmpty
   ∨ meaning (header m) = eAuxWordLock ∧ lock_owner (header m) ≠ thread_id →
   ∃ m',
     run (inflate_and_lock fuel thread_id which_mark) m = Some (false, m')
     ∧ inflated_headers_ m' = inflated_headers_ m
     ∧ writes (log m') = writes (log m))
  ∧ (meaning (header m) = eAuxWordObjID →
     ∃ m' r,
       run (inflate_and_lock fuel thread_id which_mark) m = Some (true, m')
       ∧ meaning (header m') = eAuxWordInflated ∧ index_of (header m') = ih
       ∧ inflated_headers_ m' !! ih = Some r
       ∧ object_id_ r = aux_word (header m)
       ∧ owner_id_ r = thread_id ∧ rec_lock_count_ r = 0)
  ∧ (meaning (header m) = eAuxWordHandle →
     ∃ m' r,
       run (inflate_and_lock fuel thread_id which_mark) m = Some (true, m')
       ∧ meaning (header m') = eAuxWordInflated ∧ index_of (header m') = ih
       ∧ inflated_headers_ m' !! ih = Some r
       ∧ handle_ r = aux_word (header m)
       ∧ owner_id_ r = thread_id ∧ rec_lock_count_ r = 0).
Proof.
  intros Hquiet Hfuel ih.
  set (m0 := logged (Acquired inflation_lock_) m).
  assert (Hq0 : Forall keeps_meaning (others m0)) by done.
  destruct (interfered_keeps_meaning m0 Hq0) as (Hm1 & Ha1 & Hq1).
  destruct (interfered_frame m0) as (Ht1 & Hlog1 & Hl1).
  cbn [m0 logged header inflated_headers_ others log] in Hm1, Ha1, Ht1, Hl1, Hlog1.
  split_and!.
  - intros Hrefused. unfold inflate_and_lock. rewrite run_guarded. unfold_step.
    fold m0. set (m1 := interfered m0) in *. rewrite Hm1.
    destruct Hrefused as [->|[-> Howner]].
    + unfold_step. eexists. split; [done|]. cbn. by rewrite Ht1, Hlog1.
    + rewrite bool_decide_eq_true_2 by (unfold lock_owner in *; by rewrite Ha1).
      unfold_step. eexists. split; [done|]. cbn. by rewrite Ht1, Hlog1.
  - intros Hid. unfold inflate_and_lock. rewrite run_guarded. unfold_step.
    fold m0. set (m1 := interfered m0) in *. rewrite Hm1, Hid.
    unfold inflate_and_lock_install. unfold_step. rewrite Ht1. fold ih.
    match goal with |- context [run (inflate_and_lock_loop _ _ _) ?m2] => set (m3 := m2) end.
    destruct (inflate_and_lock_loop_catches_up fuel m3 ih (header m1))
      as (m' & Hrun & Ht & Hmn & Hax); try done.
    { unfold inflated. by rewrite Hm1, Hid. }
    { unfold m3. cbn. lia. }
    rewrite Hrun. eexists _, _. split; [done|]. unfold_step. rewrite Hmn.
    split; [done|]. unfold index_of. rewrite Hax, Nat2Z.id. split; [done|].
    rewrite Ht. unfold m3. unfold_step. rewrite !list_lookup_alter_eq.
    rewrite lookup_app_r by done. unfold ih. rewrite Nat.sub_diag. cbn.
    split_and!; done.
  - intros Hhandle. unfold inflate_and_lock. rewrite run_guarded. unfold_step.
    fold m0. set (m1 := interfered m0) in *. rewrite Hm1, Hhandle.
    unfold handle. unfold_step. rewrite Ht1. fold ih.
    match goal with |- context [interfered ?m2'] => set (m2 := m2') end.
    assert (Hq2 : Forall keeps_meaning (others m2)) by done.
    destruct (interfered_keeps_meaning m2 Hq2) as (Hm3 & Ha3 & Hq3).
    destruct (interfered_frame m2) as (Ht3 & _ & Hl3).
    cbn [m2 logged set_inflated_headers header inflated_headers_ others log] in Hm3, Ha3, Ht3, Hl3.
    set (m3 := interfered m2) in *.
    rewrite Hm3, Hm1, Hhandle. unfold_step.
    unfold inflate_and_lock_install. unfold_step.
    match goal with |- context [run (inflate_and_lock_loop _ _ _) ?m4'] => set (m4 := m4') end.
    assert (Hmeaning4 : meaning (header m4) = meaning (header m1)) by exact Hm3.
    assert (Hthin1 : inflated (header m1) = false).
    { unfold inflated. by rewrite Hm1, Hhandle. }
    assert (Hfuel4 : (length (others m4) + 1 < fuel)%nat).
    { unfold m4. unfold_step. lia. }
    destruct (inflate_and_lock_loop_catches_up fuel m4 ih (header m1)
                Hmeaning4 Hthin1 Hq3 Hfuel4)
      as (m' & Hrun & Ht & Hmn & Hax).
    rewrite Hrun. eexists _, _. split; [done|]. unfold_step. rewrite Hmn.
    split; [done|]. unfold index_of. rewrite Hax, Nat2Z.id. split; [done|].
    rewrite Ht. unfold m4. unfold_step. rewrite !list_lookup_alter_eq.
    rewrite Ht3.     rewrite lookup_app_r by done. unfold ih. rewrite Nat.sub_diag. cbn.
    rewrite Ha3. split_and!; done.
Qed.

(** *** Inflation for contention, whatever the header carries *)

Lemma inflate_for_contention_loop_inflates fuel : ∀ m retries thread_id which_mark,
  inflated (header m) = false →
  (meaning (header m) = eAuxWordLock → lock_owner (header m) = thread_id) →
  Forall keeps_meaning (others m) →
  (length (others m) < fuel)%nat → (length (others m) < retries)%nat →
  ∃ m' r,
    run (inflate_for_contention_loop fuel retries thread_id which_mark) m = Some (true, m')
    ∧ meaning (header m') = eAuxWordInflated
    ∧ LockContended (header m') = false
    ∧ inflated_headers_ m' !! index_of (header m') = Some r
    ∧ carried_over (header m) r.
Proof.
  induction fuel as [|fuel IH];
    intros m retries thread_id which_mark Hthin Howner Hquiet Hfuel Hretries; [lia|].
  cbn [inflate_for_contention_loop]. unfold_step.
  quiet_turn m m1 Hm1 Ha1 Hq1 Ht1 Hl1.
  assert (Hthin1 : inflated (header m1) = false).
  { rewrite <- Hthin. by apply inflated_by_meaning. }
  assert (Hcarried : ∀ r, carried_over (header m1) r → carried_over (header m) r).
  { unfold carried_over. by rewrite Hm1, Ha1. }
  (* what every arm of the switch comes to: the record is marked and the
     swap tried, on a memory [m2] whose candidate is [r0] *)
  assert (Hinstall : ∀ m2 r0,
    Forall keeps_meaning (others m2) →
    (length (others m2) ≤ length (others m1))%nat →
    (header m2 ≠ header m1 → length (others m2) < length (others m1))%nat →
    meaning (header m2) = meaning (header m1) →
    aux_word (header m2) = aux_word (header m1) →
    inflated_headers_ m2 !! length (inflated_headers_ m1) = Some r0 →
    carried_over (header m1) r0 →
    ∃ m' r,
      run (ok ← set_inflated_header (length (inflated_headers_ m1)) (header m1);
           if negb ok then
             modify (length (inflated_headers_ m1)) clear;;
             inflate_for_contention_loop fuel retries thread_id which_mark
           else clear_lock_contended retries;; Ret true) m2 = Some (true, m')
      ∧ meaning (header m') = eAuxWordInflated
      ∧ LockContended (header m') = false
      ∧ inflated_headers_ m' !! index_of (header m') = Some r
      ∧ carried_over (header m) r).
  { intros m2 r0 Hq2 Hl2 Hprogress2 Hm2 Ha2 Hr0 Hc0.
    unfold_step. unfold set_inflated_header. rewrite Hthin1. unfold_step.
    set (ih := length (inflated_headers_ m1)) in *.
    quiet_turn m2 m4 Hm4 Ha4 Hq4 Ht4 Hl4.
    destruct (decide (header m4 = header m1)) as [Hsame|Hchanged].
    - unfold_step. rewrite run_bind.
      match goal with |- context [run (clear_lock_contended _) ?m5'] => set (m5 := m5') end.
      destruct (clear_lock_contended_clears retries m5) as (m' & Hrun & Hmn & Hax & Hc & Ht).
      + done.
      + unfold m5. cbn. cbn in Hl4. lia.
      + rewrite Hrun. unfold_step. eexists _, _. split; [done|].
        rewrite Hmn, Hc. unfold index_of. rewrite Hax, Ht. unfold m5. cbn.
        rewrite Nat2Z.id. rewrite Ht4. fold ih.
        rewrite Hr0. split_and!; try done. by apply Hcarried.
    - assert (Hshort : (length (others m4) < length (others m1))%nat).
      { destruct (decide (header m2 = header m1)) as [Hsame2|Hchanged2].
        - assert ((length (others m4) < length (others m2))%nat); [|lia].
          apply interfered_progress. fold m4. congruence.
        - specialize (Hprogress2 Hchanged2). cbn in Hl4. lia. }
      unfold_step.
      match goal with |- context [run _ ?m5'] => set (m5 := m5') end.
      assert (Hmeaning5 : meaning (header m5) = meaning (header m)).
      { unfold m5. unfold_step. rewrite Hm4. by rewrite Hm2. }
      assert (Haux5 : aux_word (header m5) = aux_word (header m)).
      { unfold m5. unfold_step. rewrite Ha4. by rewrite Ha2. }
      destruct (IH m5 retries thread_id which_mark) as (m' & r & Hrun & Hmn & Hc & Hr & Hcr).
      + rewrite <- Hthin. by apply inflated_by_meaning.
      + unfold lock_owner. rewrite Hmeaning5, Haux5. exact Howner.
      + done.
      + unfold m5. cbn. lia.
      + unfold m5. cbn. lia.
      + exists m', r. split; [exact Hrun|]. split_and!; try done.
        revert Hcr. unfold carried_over. by rewrite Hmeaning5, Haux5. }
  set (ih := length (inflated_headers_ m1)) in *.
  set (zero := mkInflatedHeader 0 0 0 0 0).
  assert (Hfresh : (inflated_headers_ m1 ++ [zero]) !! ih = Some zero).
  { rewrite lookup_app_r by done. unfold ih. by rewrite Nat.sub_diag. }
  destruct (meaning (header m1)) eqn:Hmeaning.
  - (* eAuxWordEmpty *)
    unfold_step. apply (Hinstall _ (mark which_mark zero)); try done.
    + unfold_step. rewrite !list_lookup_alter_eq. fold ih zero. by rewrite Hfresh.
    + unfold carried_over. by rewrite ?Hmeaning.
  - (* eAuxWordObjID *)
    unfold_step.
    apply (Hinstall _ (mark which_mark (set_object_id (aux_word (header m1)) zero)));
      try done.
    + unfold_step. rewrite !list_lookup_alter_eq. fold ih zero. by rewrite Hfresh.
    + unfold carried_over. by rewrite ?Hmeaning.
  - (* eAuxWordLock *)
    rewrite bool_decide_eq_false_2.
    2:{ intros Hne. apply Hne. unfold lock_owner in *. rewrite Ha1. apply Howner.
        by rewrite <- Hm1. }
    unfold_step. apply (Hinstall _ (mark which_mark zero)); try done.
    + unfold_step. rewrite !list_lookup_alter_eq. fold ih zero. by rewrite Hfresh.
    + unfold carried_over. by rewrite ?Hmeaning.
  - (* eAuxWordHandle *)
    unfold handle. unfold_step.
    match goal with |- context [interfered ?m2] =>
      quiet_turn m2 m3 Hm3 Ha3 Hq3 Ht3 Hl3 end.
    rewrite Hm3, Hmeaning. unfold_step.
    apply (Hinstall _ (mark which_mark (set_handle (aux_word (header m3)) zero)));
      try done.
    + intros Hchanged. unfold_step.
      match type of Hl3 with (_ ≤ ?n)%nat =>
        assert ((length (others m3) < n)%nat); [|done] end.
      apply (interfered_progress (logged _ (set_inflated_headers _ (logged _ m1)))).
      done.
    + unfold_step. by rewrite Hm3.
    + unfold_step. rewrite !list_lookup_alter_eq, Ht3. fold ih zero. by rewrite Hfresh.
    + unfold carried_over. rewrite ?Hmeaning, Ha3. done.
  - (* eAuxWordInflated *)
    exfalso. unfold inflated in Hthin1. rewrite Hmeaning in Hthin1. done.
Qed.

(** X5.  [inflate_for_contention] by the meaning of the header.  An inflated
    header is refused: the call returns false and has written nothing.  A
    header that is not inflated, and when thin-locked is locked by the
    caller, is inflated: the call returns true, the contended flag is clear,
    and the side record has a free mutex and the object id, or the handle,
    that the header carried.  The other threads may change the rest of the
    header meanwhile. *)
Theorem inflate_for_contention_by_meaning
    (m : Memory) (fuel : nat) (thread_id which_mark : Z) :
  Forall keeps_meaning (others m) → (length (others m) < fuel)%nat →
  (inflated (header m) = true →
   ∃ m',
     run (inflate_for_contention fuel thread_id which_mark) m = Some (false, m')
     ∧ inflated_headers_ m' = inflated_headers_ m
     ∧ writes (log m') = writes (log m))
  ∧ (inflated (header m) = false →
     (meaning (header m) = eAuxWordLock → lock_owner (header m) = thread_id) →
     ∃ m' r,
       run (inflate_for_contention fuel thread_id which_mark) m = Some (true, m')
       ∧ meaning (header m') = eAuxWordInflated
       ∧ LockContended (header m') = false
       ∧ inflated_headers_ m' !! index_of (header m') = Some r
       ∧ owner_id_ r = 0 ∧ rec_lock_count_ r = 0
       ∧ (meaning (header m) = eAuxWordObjID → object_id_ r = aux_word (header m))
       ∧ (meaning (header m) = eAuxWordHandle → handle_ r = aux_word (header m))).
Proof.
  intros Hquiet Hfuel. split.
  - intros Hinflated. unfold inflate_for_contention. rewrite run_guarded.
    destruct fuel as [|fuel]; [lia|]. cbn [inflate_for_contention_loop]. unfold_step.
    destruct (interfered_frame (logged (Acquired inflation_lock_) m)) as (_ & Hlog1 & _).
    cbn [logged log] in Hlog1.
    quiet_turn (logged (Acquired inflation_lock_) m) m1 Hm1 Ha1 Hq1 Ht1 Hl1.
    rewrite Hm1, (inflated_meaning _ Hinflated). unfold_step.
    eexists. split; [done|]. cbn. by rewrite Ht1, Hlog1.
  - intros Hthin Howner. unfold inflate_for_contention. rewrite run_guarded.
    destruct (inflate_for_contention_loop_inflates fuel
                (logged (Acquired inflation_lock_) m) fuel thread_id which_mark)
      as (m' & r & Hrun & Hmn & Hc & Hr & Hcarried); try done.
    rewrite Hrun. exists (logged (Released inflation_lock_) m'), r.
    split; [done|]. unfold_step. split_and!; try done; apply Hcarried.
Qed.

End HeaderMore.

(** ** The registered handle locations *)

Section HandlesFacts.
Import Handles.

Lemma registrations_app l1 l2 loc :
  registrations (l1 ++ l2) loc = (registrations l1 loc + registrations l2 loc)%nat.
Proof. unfold registrations. by rewrite filter_app, length_app. Qed.

Lemma registrations_cons g l loc :
  registrations (g :: l) loc
  = ((if decide (handle g = loc) then 1 else 0) + registrations l loc)%nat.
Proof. unfold registrations. rewrite filter_cons. by case_decide. Qed.

Lemma del_unregistered locations loc :
  registrations locations loc = 0%nat →
  del_global_capi_handle_location locations loc = inl (bug "Removing handle not in the list").
Proof.
  induction locations as [|g rest IH]; [done|].
  cbn [del_global_capi_handle_location]. rewrite registrations_cons.
  destruct (decide (handle g = loc)) as [Hg|Hg]; [done|].
  intros Hnone. by rewrite IH.
Qed.

Lemma del_registered locations loc :
  (0 < registrations locations loc)%nat →
  ∃ before g after,
    locations = before ++ g :: after
    ∧ handle g = loc
    ∧ registrations before loc = 0%nat
    ∧ del_global_capi_handle_location locations loc = inr (before ++ after).
Proof.
  induction locations as [|g rest IH]; [cbn; lia|].
  cbn [del_global_capi_handle_location]. rewrite registrations_cons.
  destruct (decide (handle g = loc)) as [Hg|Hg].
  - intros _. by exists [], g, rest.
  - intros Hsome. destruct (IH Hsome) as (before & g' & after & -> & Hg' & Hnone & Hdel).
    exists (g :: before), g', after. rewrite Hdel.
    split_and!; try done. rewrite registrations_cons. by rewrite decide_False.
Qed.

(** The first entry of a location is where the list splits. *)
Lemma first_registration_unique before g after before' g' after' loc :
  before ++ g :: after = before' ++ g' :: after' →
  handle g = loc → handle g' = loc →
  registrations before loc = 0%nat → registrations before' loc = 0%nat →
  before = before' ∧ after = after'.
Proof.
  intros Heq Hg Hg'. revert before' Heq.
  induction before as [|b before IH]; intros before' Heq Hnone Hnone'.
  - destruct before' as [|b' before'].
    + cbn in Heq. by injection Heq as _ <-.
    + cbn in Heq. injection Heq as <- _. rewrite registrations_cons in Hnone'.
      rewrite decide_True in Hnone' by done. done.
  - destruct before' as [|b' before'].
    + cbn in Heq. injection Heq as -> _. rewrite registrations_cons in Hnone.
      rewrite decide_True in Hnone by done. done.
    + cbn in Heq. injection Heq as <- Heq.
      rewrite registrations_cons in Hnone, Hnone'.
      destruct (decide (handle b = loc)); [done|].
      destruct (IH before' Heq Hnone Hnone') as [-> ->]. done.
Qed.

(** X6.  [del_global_capi_handle_location] halts the VM with a bug exactly
    when the location is not registered.  Otherwise it erases one entry, the
    oldest of the location: the location is registered once less, every
    other location as often as before, and the entries that stay keep their
    order. *)
Theorem del_global_capi_handle_location_erases_oldest
    (locations : list GlobalHandle) (loc : Z) :
  (registrations locations loc = 0%nat →
   del_global_capi_handle_location locations loc
   = inl (bug "Removing handle not in the list"))
  ∧ ((0 < registrations locations loc)%nat →
     ∃ before g after,
       locations = before ++ g :: after
       ∧ handle g = loc
       ∧ registrations before loc = 0%nat
       ∧ del_global_capi_handle_location locations loc = inr (before ++ after)
       ∧ S (registrations (before ++ after) loc) = registrations locations loc
       ∧ ∀ other, other ≠ loc →
           filter (λ g, handle g = other) (before ++ after)
           = filter (λ g, handle g = other) locations).
Proof.
  split; [apply del_unregistered|]. intros Hsome.
  destruct (del_registered locations loc Hsome) as (before & g & after & -> & Hg & Hnone & Hdel).
  exists before, g, after. split_and!; try done.
  - rewrite !registrations_app, registrations_cons.
    rewrite decide_True by done. lia.
  - intros other Hother. rewrite !filter_app, filter_cons.
    rewrite decide_False by congruence. done.
Qed.

(** X7.  A location may be registered more than once, and each registration
    needs a deletion of its own: [add_global_capi_handle_location] checks the
    handle but not the list.  Registering a location that is not in the
    list and deleting it gives the list back; when the location is
    registered already, the deletion takes the oldest entry and leaves the
    new one, the last of the list. *)
Theorem add_then_del_global_capi_handle_location
    (locations : list GlobalHandle) (loc : Z) (file : string) (line : Z)
    (stored : Z) (reference_p valid : bool) :
  (stored = 0 ∨ reference_p = false ∨ valid = true) →
  ∃ added,
    add_global_capi_handle_location locations loc file line stored reference_p valid
    = inr added
    ∧ registrations added loc = S (registrations locations loc)
    ∧ (registrations locations loc = 0%nat →
       del_global_capi_handle_location added loc = inr locations)
    ∧ ((0 < registrations locations loc)%nat →
       ∃ rest,
         del_global_capi_handle_location added loc = inr rest
         ∧ last rest = Some (mkGlobalHandle loc file line)
         ∧ registrations rest loc = registrations locations loc).
Proof.
  intros Hok. set (new := mkGlobalHandle loc file line).
  assert (Hnew : registrations [new] loc = 1%nat).
  { rewrite registrations_cons. by rewrite decide_True. }
  exists (locations ++ [new]).
  split_and!.
  - unfold add_global_capi_handle_location.
    destruct Hok as [->|[->| ->]]; cbn; [done| |]; by rewrite andb_false_r.
  - rewrite registrations_app, Hnew. lia.
  - intros Hnone.
    destruct (del_registered (locations ++ [new]) loc)
      as (before & g & after & Heq & Hg & Hbefore & Hdel).
    { rewrite registrations_app, Hnew. lia. }
    rewrite Hdel.
    destruct (first_registration_unique locations new [] before g after loc)
      as [-> <-]; try done.
    by rewrite app_nil_r.
  - intros Hsome.
    destruct (del_registered locations loc Hsome)
      as (before & g & after & -> & Hg & Hbefore & _).
    exists (before ++ after ++ [new]).
    split_and!.
    + rewrite <- app_assoc. cbn.
      destruct (del_registered (before ++ g :: after ++ [new]) loc)
        as (before' & g' & after' & Heq & Hg' & Hbefore' & Hdel).
      { rewrite registrations_app, registrations_cons.
        rewrite decide_True by done. lia. }
      rewrite Hdel.
      destruct (first_registration_unique before g (after ++ [new]) before' g' after' loc)
        as [-> ->]; done.
    + by rewrite !app_assoc, last_snoc.
    + rewrite !registrations_app, Hnew, registrations_cons.
      rewrite decide_True by done. lia.
Qed.

End HandlesFacts.

(** ** The locks of the C-API libraries *)

Section SharedStateFacts.
Import SharedState.
Context {Mutex : Type} (new_mutex : Mutex) (lock : Mutex → Mutex).

Lemma to_int_small z : 0 ≤ z < 2 ^ 31 → to_int z = z.
Proof.
  intros Hz. unfold to_int. rewrite Z.mod_small by lia.
  by destruct (Z.ltb_spec z (2 ^ 31)); [|lia].
Qed.

(** What a call comes to, without the entry that reading the map makes. *)
Lemma capi_lock_index_unfold (name : string) (s : CApiLocks Mutex) :
  capi_lock_index new_mutex name s =
    let existing := default 0 (capi_lock_map_ s !! name) in
    if decide (existing ≠ 0) then (existing, s)
    else if decide (use_capi_lock_ s = false ∧ name ∉ capi_black_list_ s)
    then (0, mkCApiLocks (<[name := 0]> (capi_lock_map_ s)) (capi_locks_ s)
               (capi_black_list_ s) (use_capi_lock_ s))
    else
      let lock_index := to_int (Z.of_nat (length (capi_locks_ s ++ [new_mutex]))) in
      (lock_index,
       mkCApiLocks (<[name := lock_index]> (capi_lock_map_ s))
         (capi_locks_ s ++ [new_mutex]) (capi_black_list_ s) (use_capi_lock_ s)).
Proof.
  unfold capi_lock_index, read_capi_lock_map, write_capi_lock_map.
  destruct s as [map locks black use]. cbn [capi_lock_map_ capi_locks_ capi_black_list_
    use_capi_lock_].
  destruct (map !! name) as [existing|] eqn:Hname; cbn [default from_option id].
  - destruct (Z.eqb_spec existing 0) as [->|Hexisting]; cbn [negb].
    + rewrite decide_False by (intros Hne; by apply Hne).
      cbn [capi_lock_map_ capi_locks_ capi_black_list_ use_capi_lock_].
      destruct use; cbn [negb andb].
      * rewrite decide_False by (by intros [? _]). done.
      * case_bool_decide; [rewrite decide_True by done|rewrite decide_False by (by intros [_ ?])];
          done.
    + by rewrite decide_True.
  - cbn [Z.eqb negb]. rewrite decide_False by (intros Hne; by apply Hne).
    cbn [capi_lock_map_ capi_locks_ capi_black_list_ use_capi_lock_].
    destruct use; cbn [negb andb].
    + rewrite decide_False by (by intros [? _]). by rewrite insert_insert_eq.
    + case_bool_decide; [rewrite decide_True by done|rewrite decide_False by (by intros [_ ?])];
        by rewrite insert_insert_eq.
Qed.

Lemma capi_lock_index_spec (name : string) (s : CApiLocks Mutex) :
  well_indexed s →
  Z.of_nat (length (capi_locks_ s)) < 2 ^ 31 - 1 →
  let index := (capi_lock_index new_mutex name s).1 in
  let s' := (capi_lock_index new_mutex name s).2 in
  well_indexed s'
  ∧ capi_lock_map_ s' !! name = Some index
  ∧ 0 ≤ index ≤ Z.of_nat (length (capi_locks_ s'))
  ∧ (index ≠ 0 → is_Some (enter_capi lock index s'))
  ∧ (index = 0 ↔
       default 0 (capi_lock_map_ s !! name) = 0
       ∧ use_capi_lock_ s = false ∧ name ∉ capi_black_list_ s)
  ∧ (∀ other, other ≠ name → capi_lock_map_ s' !! other = capi_lock_map_ s !! other)
  ∧ capi_lock_index new_mutex name s' = (index, s').
Proof.
  intros [Hrange Hinj] Hroom index s'. subst index s'.
  assert (Henter : ∀ index (t : CApiLocks Mutex),
    1 ≤ index ≤ Z.of_nat (length (capi_locks_ t)) → is_Some (enter_capi lock index t)).
  { intros index t Hindex. unfold enter_capi.
    destruct (Z.eqb_spec index 0); [lia|].
    destruct (Z.ltb_spec (index - 1) 0); [lia|].
    destruct (lookup_lt_is_Some_2 (capi_locks_ t) (Z.to_nat (index - 1))) as [mutex ->];
      [lia|done]. }
  rewrite capi_lock_index_unfold. cbn zeta.
  destruct (decide (default 0 (capi_lock_map_ s !! name) ≠ 0)) as [Hhas|Hnone].
  - (* the library has its lock *)
    cbn [fst snd].
    destruct (capi_lock_map_ s !! name) as [existing|] eqn:Hname; [|done].
    cbn [default from_option id] in *. pose proof (Hrange _ _ Hname) as Hexisting.
    refine (conj _ (conj _ (conj _ (conj _ (conj _ (conj _ _)))))).
    + by split.
    + done.
    + lia.
    + intros _. apply Henter. lia.
    + split; [done|]. by intros [? _].
    + done.
    + rewrite capi_lock_index_unfold. cbn zeta. rewrite Hname. cbn [default from_option id].
      by rewrite decide_True.
  - assert (Hzero : default 0 (capi_lock_map_ s !! name) = 0).
    { destruct (decide (default 0 (capi_lock_map_ s !! name) = 0)); [done|]. by destruct Hnone. }
    destruct (decide (use_capi_lock_ s = false ∧ name ∉ capi_black_list_ s)) as [Hoff|Hon].
    + (* no lock for the library *)
      unfold well_indexed.
      cbn [fst snd capi_lock_map_ capi_locks_ capi_black_list_ use_capi_lock_].
      refine (conj _ (conj _ (conj _ (conj _ (conj _ (conj _ _)))))).
      * split.
        -- intros other index. destruct (decide (other = name)) as [->|Hother].
           ++ rewrite lookup_insert_eq. intros [= <-]. lia.
           ++ rewrite lookup_insert_ne by done. apply Hrange.
        -- intros name1 name2 index.
           destruct (decide (name1 = name)) as [->|H1];
             [rewrite lookup_insert_eq; by intros [= <-]|].
           destruct (decide (name2 = name)) as [->|H2];
             [rewrite lookup_insert_eq; by intros ? [= <-]|].
           rewrite !lookup_insert_ne by done. apply Hinj.
      * by rewrite lookup_insert_eq.
      * lia.
      * done.
      * done.
      * intros other Hother. by rewrite lookup_insert_ne.
      * rewrite capi_lock_index_unfold. cbn zeta.
        cbn [capi_lock_map_ capi_locks_ capi_black_list_ use_capi_lock_].
        rewrite lookup_insert_eq. cbn [default from_option id].
        rewrite decide_False by (intros Hne; by apply Hne).
        rewrite decide_True by done. by rewrite insert_insert_eq.
    + (* a new lock *)
      rewrite length_app. cbn [length].
      rewrite to_int_small by lia.
      set (index := Z.of_nat (length (capi_locks_ s) + 1)).
      unfold well_indexed.
      cbn [fst snd capi_lock_map_ capi_locks_ capi_black_list_ use_capi_lock_].
      rewrite length_app. cbn [length]. fold index.
      refine (conj _ (conj _ (conj _ (conj _ (conj _ (conj _ _)))))).
      * split.
        -- intros other i. destruct (decide (other = name)) as [->|Hother].
           ++ rewrite lookup_insert_eq. intros [= <-]. lia.
           ++ rewrite lookup_insert_ne by done. intros Hi.
              specialize (Hrange _ _ Hi). lia.
        -- intros name1 name2 i.
           destruct (decide (name1 = name)) as [->|H1];
             destruct (decide (name2 = name)) as [->|H2]; try done.
           ++ rewrite lookup_insert_eq, lookup_insert_ne by done.
              intros [= <-] Hi. specialize (Hrange _ _ Hi). lia.
           ++ rewrite lookup_insert_eq, lookup_insert_ne by done.
              intros Hi [= <-]. specialize (Hrange _ _ Hi). lia.
           ++ rewrite !lookup_insert_ne by done. apply Hinj.
      * by rewrite lookup_insert_eq.
      * lia.
      * intros _. apply Henter. cbn [capi_locks_]. rewrite length_app. cbn [length]. lia.
      * split; [lia|]. intros (_ & Huse & Hblack). by destruct Hon.
      * intros other Hother. by rewrite lookup_insert_ne.
      * rewrite capi_lock_index_unfold. cbn zeta.
        cbn [capi_lock_map_ capi_locks_ capi_black_list_ use_capi_lock_].
        rewrite lookup_insert_eq. cbn [default from_option id].
        rewrite decide_True by lia. done.
Qed.

(** X8.  The index [capi_lock_index] gives a library is 0, for no lock, or a
    position in the vector of locks, counted from 1, so that [enter_capi]
    finds the mutex; it is 0 exactly when the library has no lock yet, locks
    are off and the library is not on the black list.  The call leaves the
    other libraries' entries alone, keeps the positions apart, and asked
    again for the same library it gives the same index and changes
    nothing. *)
Theorem capi_lock_index_in_range (name : string) (s : CApiLocks Mutex) :
  well_indexed s →
  Z.of_nat (length (capi_locks_ s)) < 2 ^ 31 - 1 →
  let index := (capi_lock_index new_mutex name s).1 in
  let s' := (capi_lock_index new_mutex name s).2 in
  well_indexed s'
  ∧ capi_lock_map_ s' !! name = Some index
  ∧ 0 ≤ index ≤ Z.of_nat (length (capi_locks_ s'))
  ∧ (index ≠ 0 → is_Some (enter_capi lock index s'))
  ∧ (index = 0 ↔
       default 0 (capi_lock_map_ s !! name) = 0
       ∧ use_capi_lock_ s = false ∧ name ∉ capi_black_list_ s)
  ∧ (∀ other, other ≠ name → capi_lock_map_ s' !! other = capi_lock_map_ s !! other)
  ∧ capi_lock_index new_mutex name s' = (index, s').
Proof. apply capi_lock_index_spec. Qed.

(** What loading one more library keeps. *)
Lemma load_library_keeps (s : CApiLocks Mutex) (library : bool * string) :
  well_indexed s →
  Z.of_nat (length (capi_locks_ s)) < 2 ^ 31 - 1 →
  let s' := load_library new_mutex s library in
  well_indexed s'
  ∧ (length (capi_locks_ s) ≤ length (capi_locks_ s') ≤ length (capi_locks_ s) + 1)%nat
  ∧ capi_black_list_ s' = capi_black_list_ s
  ∧ (∀ name index, capi_lock_map_ s !! name = Some index → index ≠ 0 →
       capi_lock_map_ s' !! name = Some index)
  ∧ (library.1 = true ∨ library.2 ∈ capi_black_list_ s →
     ∃ index, capi_lock_map_ s' !! library.2 = Some index ∧ index ≠ 0).
Proof.
  intros Hwf Hroom s'. destruct library as [use name]. cbn [fst snd] in *.
  set (t := mkCApiLocks (capi_lock_map_ s) (capi_locks_ s) (capi_black_list_ s) use).
  assert (Hwft : well_indexed t) by done.
  destruct (capi_lock_index_spec name t Hwft Hroom)
    as (Hwf' & Hname & Hin & _ & Hzero & Hothers & _).
  assert (Hs' : s' = (capi_lock_index new_mutex name t).2) by done.
  rewrite <- Hs' in *. clear Hs'.
  assert (Hshape : capi_black_list_ s' = capi_black_list_ s
    ∧ (length (capi_locks_ s) ≤ length (capi_locks_ s') ≤ length (capi_locks_ s) + 1)%nat
    ∧ (default 0 (capi_lock_map_ s !! name) ≠ 0 →
       capi_lock_map_ s' !! name = capi_lock_map_ s !! name)).
  { unfold s', load_library. cbn [fst snd]. fold t. rewrite capi_lock_index_unfold.
    cbn zeta. repeat case_decide;
      cbn [snd capi_lock_map_ capi_locks_ capi_black_list_ use_capi_lock_ t];
      rewrite ?length_app; cbn [length]; split_and!; try done; try lia. }
  destruct Hshape as (Hblack & Hlength & Hkept).
  refine (conj Hwf' (conj Hlength (conj Hblack (conj _ _)))).
  - intros other index Hother Hindex.
    destruct (decide (other = name)) as [->|Hne].
    + rewrite Hkept; [done|]. rewrite Hother. done.
    + rewrite Hothers by done. done.
  - intros Hlocked. eexists. split; [exact Hname|]. intros Hnone.
    apply Hzero in Hnone as (_ & Huse & Hnot). cbn in Huse, Hnot.
    destruct Hlocked as [->|Hin']; done.
Qed.

(** X9.  From the state the constructor leaves, however many libraries are
    loaded and whatever the configuration says of the locks at each load:
    no two libraries share a lock, and a library that was loaded while the
    locks were on, or that is on the black list ([Init_nkf],
    [Init_nokogiri]), has a lock of its own from then on. *)
Theorem libraries_keep_their_locks (libraries : list (bool * string)) :
  Z.of_nat (length libraries) < 2 ^ 31 - 1 →
  let s := foldl (load_library new_mutex) initial_capi_locks libraries in
  well_indexed s
  ∧ (∀ use name, (use, name) ∈ libraries →
       use = true ∨ name = "Init_nkf" ∨ name = "Init_nokogiri" →
       ∃ index, capi_lock_map_ s !! name = Some index
                ∧ 1 ≤ index ≤ Z.of_nat (length (capi_locks_ s))).
Proof.
  intros Hroom s.
  assert (Hall : well_indexed s
    ∧ (length (capi_locks_ s) ≤ length libraries)%nat
    ∧ capi_black_list_ s = {["Init_nkf"; "Init_nokogiri"]}
    ∧ (∀ use name, (use, name) ∈ libraries →
         use = true ∨ name ∈ capi_black_list_ s →
         ∃ index, capi_lock_map_ s !! name = Some index ∧ index ≠ 0)).
  { subst s. induction libraries as [|library libraries IH] using rev_ind.
    - cbn [foldl]. refine (conj _ (conj _ (conj _ _))).
      + split; [intros name index|intros name1 name2 index]; cbn;
          by rewrite lookup_empty.
      + cbn. lia.
      + done.
      + intros use name Hin. by apply elem_of_nil in Hin.
    - rewrite length_app in Hroom. cbn in Hroom.
      destruct IH as (Hwf & Hlength & Hblack & Hlocked); [lia|].
      rewrite foldl_snoc.
      set (s := foldl (load_library new_mutex) initial_capi_locks libraries) in *.
      destruct (load_library_keeps s library Hwf) as (Hwf' & Hlength' & Hblack' & Hkept & Hnew);
        [lia|].
      rewrite length_app. cbn [length]. split_and!; [done|lia|congruence|].
      intros use name Hin Hcause. rewrite Hblack' in Hcause.
      apply elem_of_app in Hin as [Hin|Hin].
      + destruct (Hlocked use name Hin Hcause) as (index & Hindex & Hnonzero).
        exists index. split; [|done]. by apply Hkept.
      + apply list_elem_of_singleton in Hin as <-. by apply Hnew. }
  destruct Hall as (Hwf & _ & Hblack & Hlocked). split; [done|].
  intros use name Hin Hcause.
  destruct (Hlocked use name Hin) as (index & Hindex & Hnonzero).
  { rewrite Hblack. destruct Hcause as [?|[->| ->]]; [by left|right; set_solver..]. }
  exists index. split; [done|]. destruct Hwf as [Hrange _].
  specialize (Hrange _ _ Hindex). lia.
Qed.

End SharedStateFacts.

(** ** The thread ids *)

Section ThreadsFacts.
Import Threads.

Lemma created_snoc_new ops name : created (ops ++ [NewVM name]) = created ops ++ [name].
Proof. unfold created. by rewrite omap_app. Qed.

Lemma created_snoc_remove ops vm : created (ops ++ [RemoveVM vm]) = created ops.
Proof. unfold created. rewrite omap_app. cbn. by rewrite app_nil_r. Qed.

Lemma Forall_filter_keeps {A} (P Q : A → Prop) `{∀ x, Decision (Q x)} (l : list A) :
  Forall P l → Forall P (filter Q l).
Proof.
  rewrite !Forall_forall. intros Hall x Hx. apply list_elem_of_filter in Hx as [_ Hx].
  by apply Hall.
Qed.

Lemma threads_invariant (ops : list Op) :
  Z.of_nat (length (created ops)) < 2 ^ 32 - 1 →
  let s := foldl apply_op initial ops in
  thread_ids_ s = 1 + Z.of_nat (length (created ops))
  ∧ vms_created s = length (created ops)
  ∧ Forall (λ vm, 1 ≤ thread_id vm < thread_ids_ s
                  ∧ Z.of_nat (address vm) + 1 = thread_id vm) (threads_ s)
  ∧ StronglySorted (λ a b, thread_id a < thread_id b) (threads_ s)
  ∧ root_vm_ s = (λ name, mkVM 0 1 name) <$> head (created ops).
Proof.
  induction ops as [|op ops IH] using rev_ind; intros Hroom s.
  - subst s. cbn. split_and!; try done; constructor.
  - subst s. rewrite foldl_snoc.
    set (s := foldl apply_op initial ops) in *.
    destruct op as [name|vm]; cbn [apply_op].
    + rewrite created_snoc_new in *. rewrite length_app in *. cbn [length] in *.
      destruct IH as (Hids & Hcreated & Hall & Hsorted & Hroot); [lia|].
      unfold new_vm, new_thread_id.
      cbn [thread_ids_ threads_ root_vm_ vms_created].
      assert (Hid : to_uint32 (thread_ids_ s) = thread_ids_ s).
      { unfold to_uint32. rewrite Z.mod_small; lia. }
      assert (Hnext : to_uint32 (thread_ids_ s + 1) = thread_ids_ s + 1).
      { unfold to_uint32. rewrite Z.mod_small; lia. }
      rewrite Hid, Hnext.
      set (vm := mkVM (vms_created s) (thread_ids_ s) name).
      assert (Hfields : ∀ t : ThreadFields,
        thread_ids_ t = thread_ids_ s + 1 →
        vms_created t = S (vms_created s) →
        threads_ t = threads_ s ++ [vm] →
        root_vm_ t = (λ name, mkVM 0 1 name) <$> head (created ops ++ [name]) →
        thread_ids_ t = 1 + Z.of_nat (length (created ops) + 1)
        ∧ vms_created t = (length (created ops) + 1)%nat
        ∧ Forall (λ vm, 1 ≤ thread_id vm < thread_ids_ t
                        ∧ Z.of_nat (address vm) + 1 = thread_id vm) (threads_ t)
        ∧ StronglySorted (λ a b, thread_id a < thread_id b) (threads_ t)
        ∧ root_vm_ t = (λ name, mkVM 0 1 name) <$> head (created ops ++ [name])).
      { intros t Ht1 Ht2 Ht3 Ht4. rewrite Ht1, Ht2, Ht3.
        refine (conj _ (conj _ (conj _ (conj _ Ht4)))).
        - lia.
        - lia.
        - apply Forall_app. split.
          + eapply Forall_impl; [exact Hall|]. cbn. intros ? ?. lia.
          + constructor; [|done]. cbn. lia.
        - clear -Hsorted Hall. induction Hsorted as [|a l Hl IH Ha]; cbn.
          + repeat constructor.
          + apply Forall_cons in Hall as [Hhead Hall]. constructor; [by apply IH|].
            apply Forall_app. split; [done|]. constructor; [|done]. cbn. lia. }
      destruct (root_vm_ s) as [root|] eqn:Hr; apply Hfields; cbn; try done.
      * rewrite Hroot. by destruct (created ops).
      * destruct (created ops) as [|first rest] eqn:Hnone; [|done].
        cbn. unfold vm. cbn in Hcreated, Hids. rewrite Hcreated, Hids. done.
    + rewrite created_snoc_remove in *.
      destruct IH as (Hids & Hcreated & Hall & Hsorted & Hroot); [done|].
      unfold remove_vm. cbn [thread_ids_ threads_ root_vm_ vms_created].
      refine (conj Hids (conj Hcreated (conj _ (conj _ Hroot)))).
      * by apply Forall_filter_keeps.
      * clear -Hsorted. induction Hsorted as [|a l Hl IH Ha]; [constructor|].
        rewrite filter_cons. case_decide; [|done]. constructor; [done|].
        by apply Forall_filter_keeps.
Qed.

(** X10.  Thread ids are not given twice.  From the state the constructor
    leaves, however VMs are made and removed, the [n]th VM that [new_vm]
    makes has the id [n], whether or not VMs were removed before; so the VMs
    in the thread list have ids that differ, in the order they were made in.
    The root VM is the first VM ever made, with the id 1, and stays the root
    when it is removed from the list.  This holds for the first 2^32 - 2
    VMs: then the counter goes round. *)
Theorem thread_ids_are_not_reused (ops : list Op) :
  Z.of_nat (length (created ops)) < 2 ^ 32 - 1 →
  let s := foldl apply_op initial ops in
  (∀ name, (new_vm name s).1 = mkVM (length (created ops))
                                 (1 + Z.of_nat (length (created ops))) name)
  ∧ StronglySorted (λ a b, thread_id a < thread_id b) (threads_ s)
  ∧ NoDup (thread_id <$> threads_ s)
  ∧ Forall (λ vm, 1 ≤ thread_id vm ≤ Z.of_nat (length (created ops))) (threads_ s)
  ∧ root_vm_ s = (λ name, mkVM 0 1 name) <$> head (created ops).
Proof.
  intros Hroom s.
  destruct (threads_invariant ops Hroom) as (Hids & Hcreated & Hall & Hsorted & Hroot).
  fold s in Hids, Hcreated, Hall, Hsorted, Hroot.
  refine (conj _ (conj Hsorted (conj _ (conj _ Hroot)))).
  - intros name. unfold new_vm, new_thread_id. cbn [thread_ids_ threads_ root_vm_ vms_created].
    rewrite Hids, Hcreated. unfold to_uint32. rewrite Z.mod_small by lia.
    by destruct (root_vm_ s).
  - clear -Hsorted. induction Hsorted as [|a l Hl IH Ha]; cbn; constructor; [|done].
    intros Hin. apply list_elem_of_fmap in Hin as (b & Hb & Hin).
    rewrite Forall_forall in Ha. specialize (Ha _ Hin). lia.
  - eapply Forall_impl; [exact Hall|]. cbn. intros ? ?. lia.
Qed.

End ThreadsFacts.

(** ** More on the facade: accounting, mature allocation, repeated requests *)

Section FacadeMore.
Import Machine Facade.
Context {Young Immix MarkSweep : Type}.
Context `{GC : Collectors Young Immix MarkSweep}.
Local Abbreviation OM := (ObjectMemory Young Immix MarkSweep).

(** X11.  What [allocate_object] counts and when it asks for a collection.
    An object of the young space is counted as a young object.  Every other
    object is counted under Immix, also a large one, which lives in the
    mark-sweep space, and a small request that the young space refused is
    counted under Immix even when the mature spaces refuse it too; only a
    large request that fails counts nothing.  [gc_soon] is called when the
    young space refuses, and when [collect_mature_now] is set at the end,
    except after a large request that failed. *)
Theorem allocate_object_accounting (om : OM) (bytes : Z) :
  let r := allocate_object om bytes in
  let y := young_allocate (young_ om) bytes (collect_young_now om) in
  let large := large_object_threshold om <? bytes in
  let in_young := negb large && bool_decide (is_Some y.1.1) in
  let nothing := large && bool_decide (r.1 = None) in
  metrics r.2 =
    (if in_young then metrics (count_young bytes om)
     else if nothing then metrics om
     else metrics (count_immix bytes om))
  ∧ check_gc_ r.2 =
      check_gc_ om
      || (negb large && negb in_young)
      || (negb in_young && negb nothing && collect_mature_now r.2).
Proof.
  intros r y large in_young nothing. subst r in_young nothing. unfold allocate_object.
  unfold call_mark_sweep_allocate, call_young_allocate, call_immix_allocate,
    gc_soon_if_mature, last_block.
  fold large. destruct large.
  - destruct (mark_sweep_allocate _ _ _) as [[[obj|] ms] flag]; cbn.
    + destruct flag; cbn; by rewrite ?orb_true_r, ?orb_false_r.
    + by rewrite ?orb_false_r.
  - fold y. destruct y as [[[obj|] yn] yflag]; cbn.
    + by rewrite ?orb_false_r.
    + destruct (immix_allocate _ _) as [[[obj|] im] last]; cbn.
      * destruct last; cbn; destruct (collect_mature_now om); cbn;
          by rewrite ?orb_true_r.
      * destruct last; cbn;
          destruct (mark_sweep_allocate _ _ _) as [[mobj ms] mflag]; cbn;
          destruct mflag; cbn; by rewrite ?orb_true_r.
Qed.

(** X12.  [allocate_object_mature] never goes to the young space: the young
    collector, [collect_young_now] and the young counters are as they were.
    A large request asks the mark-sweep space alone and is not counted; any
    other request asks Immix, with the low 32 bits of its byte count, then
    mark-sweep, and is counted under Immix whatever comes of it.
    [collect_mature_now] is raised when the Immix allocator reaches its last
    block, and [gc_soon] is called when [collect_mature_now] is set at the
    end, except after a large request that failed. *)
Theorem allocate_object_mature_routing (om : OM) (bytes : Z) :
  let r := allocate_object_mature om bytes in
  let i := immix_allocate (immix_ om) (to_uint32 bytes) in
  let raised := collect_mature_now om || i.2 in
  let m := mark_sweep_allocate (mark_sweep_ om) bytes (collect_mature_now om) in
  let overflow := mark_sweep_allocate (mark_sweep_ om) bytes raised in
  let large := large_object_threshold om <? bytes in
  young_ r.2 = young_ om
  ∧ collect_young_now r.2 = collect_young_now om
  ∧ (if large
     then r.1 = m.1.1 ∧ immix_ r.2 = immix_ om ∧ mark_sweep_ r.2 = m.1.2
          ∧ collect_mature_now r.2 = m.2
          ∧ metrics r.2 = metrics om
          ∧ check_gc_ r.2 = check_gc_ om || (bool_decide (is_Some r.1) && m.2)
     else immix_ r.2 = i.1.2
          ∧ metrics r.2 = metrics (count_immix bytes om)
          ∧ check_gc_ r.2 = check_gc_ om || collect_mature_now r.2
          ∧ (0 ≤ bytes → large_object_threshold om < 2 ^ 32 → to_uint32 bytes = bytes)
          ∧ match i.1.1 with
            | Some obj =>
                r.1 = Some obj ∧ mark_sweep_ r.2 = mark_sweep_ om
                ∧ collect_mature_now r.2 = raised
            | None =>
                r.1 = overflow.1.1 ∧ mark_sweep_ r.2 = overflow.1.2
                ∧ collect_mature_now r.2 = overflow.2
            end).
Proof.
  intros r i raised m overflow large. subst r. unfold allocate_object_mature.
  unfold call_mark_sweep_allocate, call_immix_allocate, gc_soon_if_mature, last_block.
  subst large. destruct (large_object_threshold om <? bytes) eqn:Hcmp.
  - fold m. destruct m as [[[obj|] ms] flag]; cbn.
    + destruct flag; cbn; rewrite ?orb_true_r, ?orb_false_r; split_and!; done.
    + rewrite ?orb_false_r. split_and!; done.
  - apply Z.ltb_ge in Hcmp.
    assert (Hwhole : 0 ≤ bytes → large_object_threshold om < 2 ^ 32 →
                     to_uint32 bytes = bytes).
    { intros ? ?. unfold to_uint32. apply Z.mod_small. lia. }
    subst raised overflow. fold i. destruct i as [[[obj|] im] last]; cbn.
    + destruct last; cbn; destruct (collect_mature_now om) eqn:Hflag; cbn;
        rewrite ?Hflag, ?orb_true_r, ?orb_false_r; split_and!; done.
    + destruct last; cbn.
      * rewrite orb_true_r.
        destruct (mark_sweep_allocate (mark_sweep_ om) bytes true)
          as [[mobj ms] mflag]; cbn.
        destruct mflag; cbn; rewrite ?orb_true_r, ?orb_false_r; split_and!; done.
      * rewrite orb_false_r.
        destruct (mark_sweep_allocate (mark_sweep_ om) bytes (collect_mature_now om))
          as [[mobj ms] mflag]; cbn.
        destruct mflag; cbn; rewrite ?orb_true_r, ?orb_false_r; split_and!; done.
Qed.

(** X13.  A mature collection that is asked for while one is in progress is
    dropped.  With concurrent marking, [collect_maybe] with only the mature
    flag up stops the world, starts the collection and restarts the world:
    [collect_mature_finish] is not run, and [mature_gc_in_progress_] is set.
    Called again with the flag up again, before the marker is done, it stops
    and restarts the world and takes the flag down without calling any
    collector. *)
Theorem collect_mature_is_not_repeated (om : OM) :
  allow_gc_ om = true → mature_mark_concurrent_ om = true →
  collect_young_now om = false → collect_mature_now om = true →
  let om' := collect_maybe [] om in
  collect_mature_now om' = false
  ∧ mature_mark_concurrent_ om' = true
  ∧ allow_gc_ om' = true
  ∧ collect_young_now om' = false
  ∧ mature_gc_in_progress_ om' = true
  ∧ metrics om' = metrics om
  ∧ (if mature_gc_in_progress_ om
     then heap om' = heap om
          ∧ events om' = events om ++ [StopTheWorld true; StartCollection; RestartWorld]
     else heap om' = immix_collect_start (heap om)
          ∧ events om' = events om ++ [StopTheWorld true; StartCollection;
                                       CollectMatureStart; RestartWorld]).
Proof.
  intros Hallow Hconcurrent Hyoung Hmature om'. subst om'.
  destruct om as [y i ms allow concurrent progress young mature threshold check m ev].
  cbn in Hallow, Hconcurrent, Hyoung, Hmature. subst.
  unfold collect_maybe, nothing_pending, stop_and_collect, collect_stopped, collect_mature.
  cbn. destruct progress; cbn.
  - rewrite <- !app_assoc. done.
  - unfold heap. cbn. destruct (immix_collect_start (y, i, ms)) as [[y' i'] ms']. cbn.
    rewrite <- !app_assoc. done.
Qed.

End FacadeMore.

(** ** Raw allocation over many calls *)

Section MallocMore.
Import Machine Malloc.

Lemma decrement_small counter bytes :
  0 < counter < 2 ^ 63 → 0 ≤ bytes < 2 ^ 63 →
  decrement counter bytes = counter - bytes.
Proof.
  intros Hc Hb. rewrite decrement_spec. apply to_long_representable. lia.
Qed.

Lemma requested_total_nonneg (cs : list Call) :
  Forall (λ c, 0 ≤ requested c < 2 ^ 63) cs →
  0 ≤ foldr Z.add 0 (requested <$> cs).
Proof. induction 1; cbn; lia. Qed.

(** Until [run_gc_soon] is called the counter is what is left of it. *)
Lemma calls_count_down (cs : list Call) : ∀ g,
  0 < gc_malloc_threshold g →
  0 < bytes_until_collection g < 2 ^ 63 →
  Forall (λ c, 0 ≤ requested c < 2 ^ 63) cs →
  (run_gc_soon_calls g < run_gc_soon_calls (calls g cs))%nat
  ∨ (run_gc_soon_calls (calls g cs) = run_gc_soon_calls g
     ∧ collect_mature_now (calls g cs) = collect_mature_now g
     ∧ bytes_until_collection (calls g cs)
       = bytes_until_collection g - foldr Z.add 0 (requested <$> cs)
     ∧ foldr Z.add 0 (requested <$> cs) < bytes_until_collection g).
Proof.
  induction cs as [|c cs IH] using rev_ind; intros g Hthreshold Hcounter Hsmall.
  - right. cbn. split_and!; try done; lia.
  - apply Forall_app in Hsmall as [Hsmall Hc]. apply Forall_cons in Hc as [Hc _].
    unfold calls in *. rewrite foldl_snoc, fmap_app, foldr_app. cbn [fmap list_fmap foldr].
    assert (Hsum : ∀ l x, 0 ≤ x → foldr Z.add x l = foldr Z.add 0 l + x).
    { clear. induction l as [|a l IHl]; intros x Hx; cbn; [lia|]. rewrite IHl by done. lia. }
    rewrite Hsum by lia.
    pose proof (requested_total_nonneg cs Hsmall) as Hnonneg.
    set (g1 := foldl call g cs) in *.
    assert (Hstep : call g1 c = account g1 (requested c)) by (by destruct c).
    assert (Hmono : (run_gc_soon_calls g1 ≤ run_gc_soon_calls (call g1 c))%nat).
    { rewrite Hstep. unfold account. cbn. case_match; cbn; lia. }
    destruct (IH g Hthreshold Hcounter Hsmall) as [Hcalled|(Hsame & Hflag & Hleft & Hroom)];
      fold g1 in Hcalled || fold g1 in Hsame, Hflag, Hleft.
    + left. lia.
    + rewrite Hstep. unfold account. cbn.
      rewrite decrement_small by lia.
      destruct (Z.leb_spec (bytes_until_collection g1 - requested c) 0); cbn.
      * left. lia.
      * right. split_and!; try done; lia.
Qed.

(** X14.  Allocation by foreign code leads to a collection.  Whatever the
    calls of [XMALLOC], [XREALLOC] and [XCALLOC] are, once the bytes they ask
    for add up to what [bytes_until_collection] held, [run_gc_soon] has been
    called and [collect_mature_now] is set; before that, neither has
    happened and the counter holds what is left.  Every byte asked for
    counts: [XREALLOC] counts the new size in full. *)
Theorem malloc_pressure_requests_collection (g : Globals) (cs : list Call) :
  0 < gc_malloc_threshold g →
  0 < bytes_until_collection g < 2 ^ 63 →
  Forall (λ c, 0 ≤ requested c < 2 ^ 63) cs →
  let total := foldr Z.add 0 (requested <$> cs) in
  (bytes_until_collection g ≤ total →
     (run_gc_soon_calls g < run_gc_soon_calls (calls g cs))%nat
     ∧ collect_mature_now (calls g cs) = true)
  ∧ (total < bytes_until_collection g →
     run_gc_soon_calls (calls g cs) = run_gc_soon_calls g
     ∧ collect_mature_now (calls g cs) = collect_mature_now g
     ∧ bytes_until_collection (calls g cs) = bytes_until_collection g - total).
Proof.
  intros Hthreshold Hcounter Hsmall total.
  assert (Hmature : ∀ cs g,
    (run_gc_soon_calls g < run_gc_soon_calls (calls g cs))%nat →
    collect_mature_now (calls g cs) = true).
  { clear. induction cs as [|c cs IH] using rev_ind; intros g; [cbn; lia|].
    unfold calls in *. rewrite foldl_snoc.
    assert (Hstep : call (foldl call g cs) c = account (foldl call g cs) (requested c))
      by (by destruct c).
    rewrite Hstep. unfold account. cbn. case_match; cbn; [done|].
    intros Hcalled. by apply IH. }
  destruct (calls_count_down cs g Hthreshold Hcounter Hsmall)
    as [Hcalled|(Hsame & Hflag & Hleft & Hroom)]; subst total.
  - split; [by auto|]. intros Hless.
    (* the counter would have gone down to what is left, which is positive *)
    exfalso. revert Hcalled Hless. clear Hmature.
    induction cs as [|c cs IH] using rev_ind; [cbn; lia|].
    apply Forall_app in Hsmall as [Hsmall Hc]. apply Forall_cons in Hc as [Hc _].
    unfold calls in *. rewrite foldl_snoc, fmap_app, foldr_app. cbn [fmap list_fmap foldr].
    assert (Hsum : ∀ l x, 0 ≤ x → foldr Z.add x l = foldr Z.add 0 l + x).
    { clear. induction l as [|a l IHl]; intros x Hx; cbn; [lia|]. rewrite IHl by done. lia. }
    rewrite Hsum by lia. intros Hcalled Hless.
    pose proof (requested_total_nonneg cs Hsmall) as Hnonneg.
    destruct (calls_count_down cs g Hthreshold Hcounter Hsmall)
      as [Hbefore|(Hsame & Hflag & Hleft & Hroom)]; unfold calls in *.
    + apply IH; [done|done|lia].
    + assert (Hstep : call (foldl call g cs) c = account (foldl call g cs) (requested c))
        by (by destruct c).
      rewrite Hstep in Hcalled. unfold account in Hcalled. cbn in Hcalled.
      rewrite decrement_small in Hcalled by lia.
      destruct (Z.leb_spec (bytes_until_collection (foldl call g cs) - requested c) 0);
        cbn in Hcalled; lia.
  - split; [lia|]. done.
Qed.

End MallocMore.

(** ** More on the sweep *)

Section ImmixMore.
Import Machine Immix.

(** Zero divided by any [double] is a zero or not a number, and neither
    is at least [0.90]. *)
Lemma zero_fraction_is_small (x : float) :
  PrimFloat.leb ninety_percent (0 / x)%float = false.
Proof.
  rewrite FloatAxioms.leb_spec, FloatAxioms.div_spec.
  replace (Prim2SF 0%float) with (S754_zero false) by reflexivity.
  replace (Prim2SF ninety_percent) with (S754_finite false 8106479329266893 (-53)) by reflexivity.
  destruct (Prim2SF x) as [sign| sign | |sign m e]; reflexivity.
Qed.

Lemma count_blocks_holes cBlockSize d bs :
  let d' := foldl (count_block cBlockSize) d bs in
  holes_ d' = holes_ d + foldr Z.add 0 (holes <$> bs)
  ∧ objects_ d' = objects_ d + foldr Z.add 0 (objects <$> bs)
  ∧ chunks_ d' = chunks_ d.
Proof.
  revert d. induction bs as [|b bs IH]; intros d; cbn.
  - split_and!; lia.
  - destruct (IH (count_block cBlockSize d b)) as (Hh & Ho & Hc).
    cbn in *. split_and!; lia.
Qed.

(** X15.  A heap without live bytes is not extended: when the blocks hold no
    object bytes after the sweep, no chunk is added, whatever the size and
    the number of the blocks.  This includes the heap without blocks, whose
    live fraction is 0/0, which is not a number. *)
Theorem sweep_leaves_dead_heap_alone
    (cBlockSize : Z) (sweep_blocks : list Chunk → list Chunk)
    (new_chunk : Chunk) (gc : ImmixGC) :
  foldr Z.add 0 (object_bytes <$> all_blocks (sweep_blocks (chunks gc))) = 0 →
  chunk_added cBlockSize sweep_blocks new_chunk gc = false
  ∧ chunks (sweep cBlockSize sweep_blocks new_chunk gc) = sweep_blocks (chunks gc)
  ∧ bytes_ (diagnostics_ (sweep cBlockSize sweep_blocks new_chunk gc)) = 0.
Proof.
  intros Hdead.
  set (swept := sweep_blocks (chunks gc)) in *.
  set (d := measure cBlockSize (collections_ (diagnostics_ gc)) swept).
  pose proof (count_blocks_spec cBlockSize
    (mkDiagnostics (collections_ (diagnostics_ gc)) (Z.of_nat (length swept)) 0 0 0 0 0%float)
    (all_blocks swept)) as Hcount.
  cbn zeta in Hcount. cbn in Hcount. destruct Hcount as (Hb & _ & _).
  rewrite Hdead in Hb.
  assert (Hbytes : bytes_ d = 0) by (unfold d, measure, fresh_diagnostics; cbn; lia).
  assert (Hwants : wants_chunk d = false).
  { unfold wants_chunk, d, measure, fresh_diagnostics. cbn [percentage_ collections_
      chunks_ holes_ objects_ bytes_ total_bytes_].
    cbn [bytes_] in Hb. rewrite Hb. apply zero_fraction_is_small. }
  unfold chunk_added, sweep. fold swept d. rewrite Hwants. cbn [chunks diagnostics_].
  split_and!; [|done|done]. apply Nat.ltb_irrefl.
Qed.

(** X16.  The sweep rebuilds the diagnostics, it does not add to them: the
    holes, the objects and the chunks it reports are those of the blocks as
    they are after the sweep, whatever was reported before, and only the
    number of collections goes on from the old value, by one.  The chunk
    that the sweep may add is not in the count of chunks. *)
Theorem sweep_rebuilds_diagnostics
    (cBlockSize : Z) (sweep_blocks : list Chunk → list Chunk)
    (new_chunk : Chunk) (gc : ImmixGC) :
  let gc' := sweep cBlockSize sweep_blocks new_chunk gc in
  let swept := sweep_blocks (chunks gc) in
  let d := diagnostics_ gc' in
  collections_ d = collections_ (diagnostics_ gc) + 1
  ∧ chunks_ d = Z.of_nat (length swept)
  ∧ holes_ d = foldr Z.add 0 (holes <$> all_blocks swept)
  ∧ objects_ d = foldr Z.add 0 (objects <$> all_blocks swept)
  ∧ (chunk_added cBlockSize sweep_blocks new_chunk gc = true →
     Z.of_nat (length (chunks gc')) = chunks_ d + 1)
  ∧ ∀ other : ImmixGC,
      chunks other = chunks gc →
      collections_ (diagnostics_ other) = collections_ (diagnostics_ gc) →
      sweep cBlockSize sweep_blocks new_chunk other = gc'.
Proof.
  intros gc' swept d.
  assert (Hd : d = measure cBlockSize (collections_ (diagnostics_ gc)) swept).
  { unfold d, gc', sweep. fold swept. by case_match. }
  pose proof (count_blocks_spec cBlockSize
    (mkDiagnostics (collections_ (diagnostics_ gc)) (Z.of_nat (length swept)) 0 0 0 0 0%float)
    (all_blocks swept)) as Hcount.
  pose proof (count_blocks_holes cBlockSize
    (mkDiagnostics (collections_ (diagnostics_ gc)) (Z.of_nat (length swept)) 0 0 0 0 0%float)
    (all_blocks swept)) as Hholes.
  cbn zeta in Hcount, Hholes. cbn in Hcount, Hholes.
  destruct Hcount as (_ & _ & Hc). destruct Hholes as (Hh & Ho & Hk).
  refine (conj _ (conj _ (conj _ (conj _ (conj _ _))))).
  - rewrite Hd. unfold measure, fresh_diagnostics. cbn. lia.
  - rewrite Hd. unfold measure, fresh_diagnostics. cbn. lia.
  - rewrite Hd. unfold measure, fresh_diagnostics. cbn. lia.
  - rewrite Hd. unfold measure, fresh_diagnostics. cbn. lia.
  - assert (Hchunks : chunks_ d = Z.of_nat (length swept)).
    { rewrite Hd. unfold measure, fresh_diagnostics. cbn. lia. }
    rewrite Hchunks. unfold chunk_added, gc', sweep. fold swept.
    generalize (measure cBlockSize (collections_ (diagnostics_ gc)) swept).
    intros m. destruct (wants_chunk m); cbn [chunks].
    + intros _. rewrite length_app. cbn. lia.
    + rewrite Nat.ltb_irrefl. done.
  - intros other Hsame Hcollections. unfold gc', sweep. by rewrite Hsame, Hcollections.
Qed.

End ImmixMore.

(** ** Strings, the StatsD prefix, and the command line *)

Section StdStringFacts.
Import StdString.

(** *** Finding and replacing *)

Lemma find_plain c sub s : c ∉ s → find (c :: sub) s = None.
Proof.
  induction s as [|a s IH]; intros Hnot.
  - cbn. rewrite bool_decide_eq_false_2; [done|]. by intros ?%prefix_nil_not.
  - apply not_elem_of_cons in Hnot as [Hne Hnot]. cbn [find].
    rewrite bool_decide_eq_false_2.
    + by rewrite IH.
    + intros [k Hk]. cbn in Hk. injection Hk as Hk _. done.
Qed.

Lemma find_skip_plain c sub pre s :
  c ∉ pre →
  find (c :: sub) (pre ++ s) = (λ i, length pre + i)%nat <$> find (c :: sub) s.
Proof.
  induction pre as [|a pre IH]; intros Hnot.
  - cbn [app length]. by destruct (find (c :: sub) s).
  - apply not_elem_of_cons in Hnot as [Hne Hnot]. cbn [app find length].
    rewrite bool_decide_eq_false_2.
    + rewrite IH by done. by destruct (find (c :: sub) s).
    + intros [k Hk]. cbn in Hk. injection Hk as Hk _. done.
Qed.

Lemma find_here sub post : find sub (sub ++ post) = Some O.
Proof.
  assert (Hprefix : sub `prefix_of` sub ++ post) by (by exists post).
  destruct (sub ++ post); cbn [find]; by rewrite bool_decide_eq_true_2.
Qed.

Lemma find_after_plain c sub pre post :
  c ∉ pre → find (c :: sub) (pre ++ (c :: sub) ++ post) = Some (length pre).
Proof.
  intros Hnot. rewrite find_skip_plain by done. rewrite find_here. cbn. f_equal. lia.
Qed.

(** The first character is there, the rest is not, and the character does
    not come again. *)
Lemma find_mismatch c sub s :
  ¬ sub `prefix_of` s → c ∉ s → find (c :: sub) (c :: s) = None.
Proof.
  intros Hmismatch Hnot. cbn [find]. rewrite bool_decide_eq_false_2.
  - by rewrite find_plain.
  - intros [k Hk]. apply Hmismatch. exists k. cbn in Hk. by injection Hk.
Qed.

(** Another word begins with the character. *)
Lemma find_other c sub other pre post :
  c ∉ pre → c ∉ other → c ∉ post → ¬ sub `prefix_of` other ++ post →
  find (c :: sub) (pre ++ (c :: other) ++ post) = None.
Proof.
  intros Hpre Hother Hpost Hmismatch. rewrite find_skip_plain by done.
  cbn [app]. rewrite find_mismatch; [done|done|]. by apply not_elem_of_app.
Qed.

Lemma replace_middle pre old value post :
  replace (length pre) (length old) value (pre ++ old ++ post) = pre ++ value ++ post.
Proof.
  unfold replace. rewrite take_app_length. f_equal. f_equal.
  rewrite <- drop_drop, drop_app_length. by rewrite drop_app_length.
Qed.

(** What [find] finds is the first place where the string is. *)
Lemma find_Some sub : ∀ s i,
  find sub s = Some i →
  sub `prefix_of` drop i s
  ∧ ∀ j, (j < i)%nat → ¬ sub `prefix_of` drop j s.
Proof.
  induction s as [|a s IH]; intros i; cbn [find].
  - case_bool_decide as Hprefix; [|done]. intros [= <-]. split; [done|]. intros j Hj. lia.
  - case_bool_decide as Hprefix.
    + intros [= <-]. split; [done|]. intros j Hj. lia.
    + destruct (find sub s) as [j|] eqn:Hfound; [|done]. cbn. intros [= <-].
      destruct (IH j eq_refl) as [Hhere Hfirst]. split; [done|].
      intros [|k] Hk; [done|]. cbn. apply Hfirst. lia.
Qed.

Lemma find_None sub : ∀ s, find sub s = None → ∀ j, ¬ sub `prefix_of` drop j s.
Proof.
  induction s as [|a s IH]; cbn [find]; case_bool_decide as Hprefix; try done.
  - intros _ j. by rewrite drop_nil.
  - destruct (find sub s) eqn:Hfound; [done|]. intros _ [|j]; [done|]. cbn.
    by apply IH.
Qed.

End StdStringFacts.

Section StatsDFacts.
Import StdString StatsD.

Lemma find_char_None c s : find_char c s = None ↔ c ∉ s.
Proof.
  induction s as [|a s IH]; cbn.
  - split; [intros _; apply not_elem_of_nil|done].
  - rewrite not_elem_of_cons. destruct (decide (a = c)) as [->|Hne].
    + split; [done|]. by intros [? _].
    + destruct (find_char c s); cbn.
      * split; [done|]. intros [_ Hnot]. by apply IH in Hnot.
      * split; [|done]. intros _. split; [done|]. by apply IH.
Qed.

Lemma find_char_Some c s i :
  find_char c s = Some i → s = take i s ++ c :: drop (S i) s ∧ c ∉ take i s.
Proof.
  revert i. induction s as [|a s IH]; intros i; cbn; [done|].
  destruct (decide (a = c)) as [->|Hne].
  - intros [= <-]. cbn. split; [by rewrite drop_0|apply not_elem_of_nil].
  - destruct (find_char c s) as [j|]; cbn; [|done]. intros [= <-].
    destruct (IH j eq_refl) as [Heq Hnot]. cbn. split; [by f_equal|].
    rewrite not_elem_of_cons. done.
Qed.

(** X17.  The server of the StatsD emitter is split at its first colon: what
    is before it is the host, also when that is empty, and what is after it
    is the port, also when that is empty or has colons of its own.  The
    defaults are for a server without colon only: the host is [localhost],
    and the port is the server, or [8125] when the server is empty. *)
Theorem parse_server_splits_at_first_colon (server host port : list ascii) :
  (":"%char ∉ host → parse_server (host ++ ":"%char :: port) = (host, port))
  ∧ (":"%char ∉ server →
     parse_server server
     = (chars "localhost", if decide (server = []) then chars "8125" else server)).
Proof.
  split.
  - intros Hhost. unfold parse_server.
    assert (Hfind : find_char ":" (host ++ ":"%char :: port) = Some (length host)).
    { clear -Hhost. induction host as [|a host IH]; cbn.
      - by rewrite decide_True.
      - apply not_elem_of_cons in Hhost as [Hne Hhost]. rewrite decide_False by done.
        by rewrite IH. }
    rewrite Hfind. unfold substr. rewrite drop_0, take_app_length.
    by rewrite <- drop_drop, drop_app_length.
  - intros Hnone. unfold parse_server. apply find_char_None in Hnone. rewrite Hnone.
    destruct server; done.
Qed.

Lemma rfind_char_None c : ∀ p s, rfind_char c p s = None ↔ c ∉ take (S p) s.
Proof.
  intros p s. revert p. induction s as [|a s IH]; intros p; cbn.
  - split; [intros _; apply not_elem_of_nil|done].
  - rewrite not_elem_of_cons. destruct p as [|p].
    + rewrite take_0. destruct (decide (a = c)) as [->|Hne].
      * split; [done|]. by intros [? _].
      * split; [|done]. intros _. split; [done|apply not_elem_of_nil].
    + specialize (IH p). destruct (rfind_char c p s) as [i|].
      * split; [done|]. intros [_ Hnot]. by apply IH in Hnot.
      * destruct (decide (a = c)) as [->|Hne].
        -- split; [done|]. by intros [? _].
        -- split; [|done]. intros _. split; [done|]. by apply IH.
Qed.

Lemma rfind_char_Some c : ∀ s p j,
  rfind_char c p s = Some j →
  (j ≤ p)%nat
  ∧ take (S p) s = take j s ++ c :: drop (S j) (take (S p) s)
  ∧ c ∉ drop (S j) (take (S p) s).
Proof.
  induction s as [|a s IH]; intros p j; cbn [rfind_char]; [done|].
  destruct p as [|p].
  - destruct (decide (a = c)) as [->|Hne]; [|done]. intros [= <-].
    cbn. rewrite take_0. cbn. split_and!; [lia|done|apply not_elem_of_nil].
  - destruct (rfind_char c p s) as [i|] eqn:Hfound.
    + intros [= <-]. destruct (IH p i Hfound) as (Hle & Heq & Hnot).
      cbn [take drop]. split_and!; [lia| |done].
      cbn. f_equal. exact Heq.
    + destruct (decide (a = c)) as [->|Hne]; [|done]. intros [= <-].
      apply rfind_char_None in Hfound. cbn [take drop]. rewrite drop_0. cbn.
      split_and!; [lia|done|done].
Qed.

Lemma labels_nonempty s : ∃ label rest, labels s = label :: rest.
Proof.
  induction s as [|a s (label & rest & IH)]; cbn; [by eexists _, _|].
  destruct (decide (a = "."%char)); [by eexists _, _|]. rewrite IH. by eexists _, _.
Qed.

Lemma labels_plain b : "."%char ∉ b → labels b = [b].
Proof.
  induction b as [|a b IH]; cbn; [done|]. intros [Hne Hnot]%not_elem_of_cons.
  rewrite decide_False by done. by rewrite IH.
Qed.

Lemma labels_snoc a b : "."%char ∉ b → labels (a ++ "."%char :: b) = labels a ++ [b].
Proof.
  intros Hplain. induction a as [|x a IH]; cbn.
  - by rewrite labels_plain.
  - destruct (decide (x = "."%char)); [by rewrite IH|]. rewrite IH.
    by destruct (labels_nonempty a) as (label & rest & ->).
Qed.

Lemma dotted_cons label ls : ls ≠ [] → dotted (label :: ls) = label ++ "."%char :: dotted ls.
Proof. by destruct ls. Qed.

Lemma reversed_labels_snoc a b :
  "."%char ∉ b →
  dotted (reverse (labels (a ++ "."%char :: b)))
  = b ++ "."%char :: dotted (reverse (labels a)).
Proof.
  intros Hplain. rewrite labels_snoc by done. rewrite reverse_snoc.
  apply dotted_cons. destruct (labels_nonempty a) as (label & rest & ->).
  rewrite reverse_cons. by destruct (reverse rest).
Qed.

Lemma nodename_loop_reverses (n : list ascii) : ∀ fuel p i parts,
  (p < fuel)%nat → i ≠ O →
  nodename_loop fuel n p i parts
  = parts ++ dotted (reverse (labels (take (S p) n))).
Proof.
  induction fuel as [|fuel IH]; intros p i parts Hfuel Hi; [lia|].
  cbn [nodename_loop]. destruct (Nat.eqb_spec i 0) as [|_]; [done|].
  destruct (rfind_char "." p n) as [j|] eqn:Hfound.
  - destruct (rfind_char_Some "." n p j Hfound) as (Hle & Heq & Hplain).
    set (b := drop (S j) (take (S p) n)) in *.
    assert (Hb : substr (j + 1) (p - j) n = b).
    { unfold substr, b. rewrite take_drop_commute.
      replace (j + 1)%nat with (S j) by lia.
      by replace (S j + (p - j))%nat with (S p) by lia. }
    rewrite Hb, Heq, reversed_labels_snoc by done.
    destruct j as [|j].
    + rewrite take_0. by destruct fuel.
    + rewrite IH by lia. cbn [Nat.sub]. rewrite Nat.sub_0_r.
      rewrite <- !app_assoc. done.
  - apply rfind_char_None in Hfound. rewrite labels_plain by done. cbn.
    unfold substr. rewrite drop_0. by rewrite Nat.add_1_r.
Qed.

(** X18.  For the [$nodename] of the StatsD prefix the constructor turns the
    node name round, label by label: the loop over the dots of the name
    writes the labels from the last to the first, with dots between them.  A
    name without dots is taken as it is, and the empty labels of a name that
    begins or ends with a dot, or has two dots in a row, are kept. *)
Theorem nodename_parts_reverses_labels (n : list ascii) :
  nodename_parts n = dotted (reverse (labels n))
  ∧ labels (nodename_parts n) = reverse (labels n).
Proof.
  assert (Hparts : nodename_parts n = dotted (reverse (labels n))).
  { unfold nodename_parts. destruct n as [|a n]; [done|].
    rewrite nodename_loop_reverses by (cbn; lia). by rewrite take_ge by lia. }
  split; [done|]. rewrite Hparts.
  (* the labels of a dotted name are the labels it was made of *)
  assert (Hlabels : ∀ ls, ls ≠ [] → Forall (λ l, "."%char ∉ l) ls → labels (dotted ls) = ls).
  { clear. induction ls as [|l ls IH]; [done|]. intros _ Hall.
    apply Forall_cons in Hall as [Hl Hall]. destruct ls as [|l' ls].
    - cbn. by apply labels_plain.
    - rewrite dotted_cons by done.
      assert (Hstep : ∀ l rest, "."%char ∉ l →
        labels (l ++ "."%char :: rest) = l :: labels rest).
      { clear. induction l as [|x l IHl]; intros rest Hl; [done|]. cbn.
        apply not_elem_of_cons in Hl as [Hx Hl]. rewrite decide_False by done.
        by rewrite IHl. }
      rewrite Hstep by done. by rewrite IH. }
  apply Hlabels.
  - destruct (labels_nonempty n) as (label & rest & ->). rewrite reverse_cons.
    by destruct (reverse rest).
  - apply Forall_reverse. clear. induction n as [|a n IH]; cbn.
    + repeat constructor. apply not_elem_of_nil.
    + destruct (decide (a = "."%char)).
      * constructor; [apply not_elem_of_nil|done].
      * destruct (labels n) as [|label rest].
        { constructor; [|constructor]. apply not_elem_of_cons.
          split; [done|apply not_elem_of_nil]. }
        apply Forall_cons in IH as [Hlabel Hrest]. constructor; [|done].
        by apply not_elem_of_cons.
Qed.

(** X19.  The prefix of the StatsD metrics.  A configured prefix without
    [$] is used as it is, with a dot after it when it is not empty.
    [$pid] is replaced by the process id and [$nodename] by the node name
    turned round.  When [uname] fails, a prefix with [$nodename] is dropped
    as a whole, with the rest of its text. *)
Theorem make_prefix_expands (a b n pid : list ascii) (nodename : option (list ascii)) :
  "$"%char ∉ a → "$"%char ∉ b →
  make_prefix a nodename pid = add_dot a
  ∧ make_prefix (a ++ chars "$pid" ++ b) nodename pid = add_dot (a ++ pid ++ b)
  ∧ make_prefix (a ++ chars "$nodename" ++ b) None pid = []
  ∧ ("$"%char ∉ nodename_parts n →
     make_prefix (a ++ chars "$nodename" ++ b) (Some n) pid
     = add_dot (a ++ dotted (reverse (labels n)) ++ b)).
Proof.
  intros Ha Hb. unfold make_prefix. cbn [chars String.list_ascii_of_string].
  assert (Hplain : ∀ x y z, "$"%char ∉ x → "$"%char ∉ y → "$"%char ∉ z →
    "$"%char ∉ x ++ y ++ z).
  { intros x y z Hx Hy Hz. rewrite !not_elem_of_app. done. }
  refine (conj _ (conj _ (conj _ _))).
  - by rewrite !(find_plain "$" _ a Ha).
  - rewrite (find_other "$" _ ["p"; "i"; "d"]%char a b); try done; cycle 1.
    { rewrite !not_elem_of_cons. split_and!; try done. apply not_elem_of_nil. }
    { intros [k Hk]. cbn in Hk. discriminate Hk. }
    rewrite (find_after_plain "$" ["p"; "i"; "d"]%char a b Ha).
    by rewrite (replace_middle a ["$"; "p"; "i"; "d"]%char pid b).
  - by rewrite (find_after_plain "$" _ a b Ha).
  - intros Hparts. rewrite (find_after_plain "$" _ a b Ha).
    rewrite (replace_middle a ["$"; "n"; "o"; "d"; "e"; "n"; "a"; "m"; "e"]%char _ b).
    rewrite (find_plain "$"); [|by apply Hplain].
    do 2 f_equal. unfold nodename_parts. destruct n as [|x n]; [done|].
    rewrite nodename_loop_reverses by (cbn; lia). by rewrite take_ge by lia.
Qed.

End StatsDFacts.

Section EnvironmentFacts.
Import StdString Environment.

(** X20.  [expand_config_value] replaces the first occurrence of the variable
    and no other: a value in which the variable does not occur is left as it
    is, and of a value [pre ++ var ++ post] in which the variable does not
    begin before the end of [pre], [pre] and [post] stay, whatever [post]
    holds. *)
Theorem expand_config_value_first_occurrence (cvar var value : list ascii) :
  ((∀ j, ¬ var `prefix_of` drop j cvar) →
   expand_config_value cvar var value = cvar)
  ∧ (∀ pre post,
       cvar = pre ++ var ++ post →
       (∀ j, (j < length pre)%nat → ¬ var `prefix_of` drop j cvar) →
       expand_config_value cvar var value = pre ++ value ++ post).
Proof.
  unfold expand_config_value. split.
  - intros Hnone. destruct (find var cvar) as [i|] eqn:Hfound; [|done].
    destruct (find_Some var cvar i Hfound) as [Hhere _]. by destruct (Hnone i).
  - intros pre post -> Hfirst.
    assert (Hhere : var `prefix_of` drop (length pre) (pre ++ var ++ post)).
    { rewrite drop_app_length. by eexists. }
    destruct (find var (pre ++ var ++ post)) as [i|] eqn:Hfound.
    + destruct (find_Some var _ i Hfound) as [Hthere Hbefore].
      assert (i = length pre) as ->.
      { destruct (Nat.lt_trichotomy i (length pre)) as [Hlt|[->|Hgt]]; [|done|].
        - by destruct (Hfirst i Hlt).
        - by destruct (Hbefore (length pre) Hgt). }
      apply replace_middle.
    + by destruct (find_None var _ Hfound (length pre)).
Qed.

(** X21.  [set_console_path] puts the temporary directory, the program name
    and the user name where a path names them, each once, when the text
    between them and the first two of the values have no [$]. *)
Theorem set_console_path_expands
    (program_name system_tmp username a b c d : list ascii) :
  "$"%char ∉ a → "$"%char ∉ b → "$"%char ∉ c →
  "$"%char ∉ system_tmp → "$"%char ∉ program_name →
  set_console_path program_name system_tmp username
    (a ++ chars "$TMPDIR" ++ b ++ chars "$PROGRAM_NAME" ++ c ++ chars "$USER" ++ d)
  = a ++ system_tmp ++ b ++ program_name ++ c ++ username ++ d.
Proof.
  intros Ha Hb Hc Htmp Hprogram. unfold set_console_path, expand_config_value.
  cbn [chars String.list_ascii_of_string].
  rewrite (find_after_plain "$" _ a) by done.
  rewrite (replace_middle a ["$"; "T"; "M"; "P"; "D"; "I"; "R"]%char).
  rewrite !(app_assoc a), !(app_assoc _ b).
  rewrite (find_after_plain "$" _ ((a ++ system_tmp) ++ b))
    by (rewrite !not_elem_of_app; done).
  rewrite (replace_middle _
    ["$"; "P"; "R"; "O"; "G"; "R"; "A"; "M"; "_"; "N"; "A"; "M"; "E"]%char).
  rewrite !(app_assoc _ program_name), !(app_assoc _ c).
  rewrite (find_after_plain "$" _ ((((a ++ system_tmp) ++ b) ++ program_name) ++ c))
    by (rewrite !not_elem_of_app; done).
  rewrite (replace_middle _ ["$"; "U"; "S"; "E"; "R"]%char).
  by rewrite <- !app_assoc.
Qed.

(** X22.  After [set_tmp_path] the temporary directory ends with a slash
    when it is taken from the environment: [TMPDIR] as it is when it ends
    with a slash, with a slash added when it does not, and [/tmp/] when it is
    not set.  A configured directory is left as it is, with or without a
    slash.  A [TMPDIR] that is set and empty makes the function read the
    character before the string. *)
Theorem set_tmp_path_ends_with_slash (tmpdir : option (list ascii)) (system_tmp : list ascii) :
  (system_tmp ≠ chars "$TMPDIR" → set_tmp_path tmpdir system_tmp = Some system_tmp)
  ∧ (system_tmp = chars "$TMPDIR" →
     match tmpdir with
     | None => set_tmp_path tmpdir system_tmp = Some (chars "/tmp/")
     | Some [] => set_tmp_path tmpdir system_tmp = None
     | Some tmp =>
         ∃ dir, set_tmp_path tmpdir system_tmp = Some dir
                ∧ last dir = Some "/"%char
                ∧ (dir = tmp ∨ last tmp ≠ Some "/"%char ∧ dir = tmp ++ chars "/")
     end).
Proof.
  unfold set_tmp_path. split.
  - intros Hother. by rewrite decide_False.
  - intros ->. rewrite decide_True by done. destruct tmpdir as [[|x tmp]|]; [done| |done].
    destruct (last (x :: tmp)) as [c|] eqn:Hlast.
    + destruct (decide (c = "/"%char)) as [->|Hne].
      * rewrite decide_False by (intros Hne; by apply Hne). eexists. split_and!; [done|done|].
        by left.
      * rewrite decide_True by done. eexists. split_and!; [done| |].
        -- cbn [chars String.list_ascii_of_string]. by rewrite last_snoc.
        -- right. split; [|done]. intros [= ->]. done.
    + by apply last_None in Hlast.
Qed.

Lemma is_xflag_first_char arg : is_xflag arg = true → first_char arg = "-"%char.
Proof.
  unfold is_xflag. intros [k ->]%bool_decide_eq_true. done.
Qed.

Lemma is_xflag_not_separator arg : is_xflag arg = true → arg ≠ chars "--".
Proof.
  unfold is_xflag. intros [k ->]%bool_decide_eq_true. done.
Qed.

(** X23.  Which [-X] options of the command line [load_vm_options] takes.
    Those before the first [--] and before the first argument that does not
    begin with a dash, in order and without their [-X]; any other argument
    that begins with a dash is passed over, and nothing is taken from the
    rest of the line. *)
Theorem command_line_options_stop (before after : list (list ascii)) (arg : list ascii) :
  command_line_options (before ++ chars "--" :: after) = command_line_options before
  ∧ (first_char arg ≠ "-"%char →
     command_line_options (before ++ arg :: after) = command_line_options before)
  ∧ (Forall (λ arg, first_char arg = "-"%char ∧ arg ≠ chars "--") before →
     command_line_options (before ++ after)
     = (drop 2 <$> filter (λ arg, is_xflag arg = true) before)
       ++ command_line_options after).
Proof.
  split_and!.
  - induction before as [|x before IH]; cbn [app command_line_options].
    + by rewrite decide_True.
    + by rewrite IH.
  - intros Hword. induction before as [|x before IH]; cbn [app command_line_options].
    + rewrite decide_False by (intros ->; by apply Hword).
      destruct (is_xflag arg) eqn:Hx; [by apply is_xflag_first_char in Hx|].
      by rewrite decide_True.
    + by rewrite IH.
  - induction 1 as [|x before [Hdash Hsep] _ IH]; [done|].
    cbn [app command_line_options]. rewrite decide_False by done.
    rewrite filter_cons. destruct (is_xflag x) eqn:Hx.
    + rewrite (decide_True (P := true = true)) by done. cbn. by rewrite IH.
    + rewrite (decide_False (P := false = true)) by done.
      rewrite (decide_False (P := first_char x ≠ "-"%char)) by (intros Hne; by apply Hne).
      exact IH.
Qed.

Lemma command_line_options_xflags options rest :
  Forall (λ arg, is_xflag arg = true) options →
  command_line_options (options ++ rest)
  = (drop 2 <$> options) ++ command_line_options rest.
Proof.
  induction 1 as [|x options Hx _ IH]; [done|].
  cbn [app command_line_options fmap list_fmap].
  rewrite decide_False by (by apply is_xflag_not_separator). rewrite Hx.
  cbn. by rewrite IH.
Qed.

Lemma program_arguments_xflags options rest :
  Forall (λ arg, is_xflag arg = true) options →
  program_arguments true (options ++ rest) = program_arguments true rest.
Proof.
  induction 1 as [|x options Hx _ IH]; [done|].
  cbn [app program_arguments].
  rewrite decide_False by (by apply is_xflag_not_separator). by rewrite Hx.
Qed.

(** Once [skip_xflags] is down every argument is kept. *)
Lemma program_arguments_verbatim arguments :
  Forall (λ arg, arg ≠ []) arguments →
  program_arguments false arguments = Some arguments.
Proof.
  induction 1 as [|arg arguments Harg _ IH]; [done|].
  cbn [program_arguments]. destruct (decide (arg = chars "--")); [by rewrite IH|].
  destruct (is_xflag arg); [by rewrite IH|].
  destruct arg as [|a [|c arg]]; [done| |]; cbn [second_char].
  - rewrite decide_True by done. by rewrite IH.
  - destruct (decide (c ≠ "-"%char)); by rewrite IH.
Qed.

(** X24.  On a command line of [-X] options, then a first argument that is
    [--] or a word that has no dash as its first or second character, then
    anything, the two loops agree: [load_vm_options] takes the options, all
    of them and nothing else, and [load_argv] makes [ARGV] of the first
    argument and all that follows it, [--] included. *)
Theorem command_line_is_split (options arguments : list (list ascii)) (script : list ascii) :
  Forall (λ arg, is_xflag arg = true) options →
  Forall (λ arg, arg ≠ []) arguments →
  script = chars "--"
  ∨ (first_char script ≠ "-"%char
     ∧ ∃ c, second_char script = Some c ∧ c ≠ "-"%char) →
  command_line_options (options ++ script :: arguments) = drop 2 <$> options
  ∧ program_arguments true (options ++ script :: arguments) = Some (script :: arguments).
Proof.
  intros Hoptions Harguments Hscript.
  rewrite command_line_options_xflags, program_arguments_xflags by done.
  cbn [command_line_options program_arguments].
  destruct Hscript as [->|(Hfirst & c & Hsecond & Hc)].
  - rewrite !decide_True by done. rewrite app_nil_r.
    rewrite program_arguments_verbatim by done. by split.
  - assert (Hword : script ≠ chars "--") by (intros ->; by apply Hfirst).
    rewrite !decide_False by done.
    destruct (is_xflag script) eqn:Hx; [by apply is_xflag_first_char in Hx|].
    rewrite (decide_True (P := first_char script ≠ "-"%char)) by done.
    rewrite Hsecond. rewrite (decide_True (P := c ≠ "-"%char)) by done.
    rewrite app_nil_r. rewrite program_arguments_verbatim by done. split; [done|by case_decide].
Qed.

(** X25.  Where the two loops part.  After an option that begins with one
    dash and is not an [-X] option, an [-X] option is taken by
    [load_vm_options] and is in [ARGV] as well.  After a word that has a
    dash as its second character, and not as its first, an [-X] option is
    not taken by [load_vm_options], which has stopped at the word, and is
    not in [ARGV] either: [load_argv] tests the second character of the
    word and goes on leaving [-X] options out. *)
Theorem xflag_after_other_argument
    (options arguments : list (list ascii)) (other xflag : list ascii) :
  Forall (λ arg, is_xflag arg = true) options →
  is_xflag xflag = true →
  Forall (λ arg, arg ≠ []) arguments →
  (first_char other = "-"%char → is_xflag other = false →
   (∃ c, second_char other = Some c ∧ c ≠ "-"%char) →
   command_line_options (options ++ other :: xflag :: arguments)
   = (drop 2 <$> options) ++ drop 2 xflag :: command_line_options arguments
   ∧ program_arguments true (options ++ other :: xflag :: arguments)
     = Some (other :: xflag :: arguments))
  ∧ (first_char other ≠ "-"%char → second_char other = Some "-"%char →
     command_line_options (options ++ other :: xflag :: arguments) = drop 2 <$> options
     ∧ program_arguments true (options ++ other :: xflag :: arguments)
       = (other ::.) <$> program_arguments true arguments).
Proof.
  intros Hoptions Hxflag Harguments.
  pose proof (is_xflag_not_separator xflag Hxflag) as Hxsep.
  split.
  - intros Hdash Hother (c & Hsecond & Hc).
    assert (Hsep : other ≠ chars "--").
    { intros ->. cbn in Hsecond. by injection Hsecond as <-. }
    rewrite command_line_options_xflags, program_arguments_xflags by done.
    cbn [command_line_options program_arguments].
    rewrite !(decide_False (P := other = chars "--")) by done.
    rewrite !(decide_False (P := xflag = chars "--")) by done.
    rewrite Hother, Hxflag, Hsecond.
    rewrite (decide_False (P := first_char other ≠ "-"%char))
      by (intros Hne; by apply Hne).
    split; [done|].
    destruct (decide (xflag = chars "--")) as [?|_]; [done|].
    destruct (decide (c ≠ "-"%char)) as [_|?]; [|done].
    by rewrite program_arguments_verbatim by done.
  - intros Hfirst Hsecond.
    assert (Hsep : other ≠ chars "--") by (intros ->; by apply Hfirst).
    rewrite command_line_options_xflags, program_arguments_xflags by done.
    cbn [command_line_options program_arguments].
    rewrite !(decide_False (P := other = chars "--")) by done.
    rewrite !(decide_False (P := xflag = chars "--")) by done.
    destruct (is_xflag other) eqn:Hx; [by apply is_xflag_first_char in Hx|].
    rewrite Hxflag, Hsecond.
    destruct (decide (first_char other ≠ "-"%char)) as [_|?]; [|done].
    rewrite app_nil_r. split; [done|].
    destruct (decide (xflag = chars "--")) as [?|_]; [done|].
    by destruct (decide ("-"%char ≠ "-"%char)).
Qed.

End EnvironmentFacts.

(** *** The options of [RBXOPT] and of the configuration files *)

Section EnvironmentMoreFacts.
Import StdString Environment.

Lemma skip_spaces_app pre rest :
  Forall (λ c, isspace c = true) pre → skip_spaces (pre ++ rest) = skip_spaces rest.
Proof.
  induction 1 as [|c pre Hc _ IH]; [done|]. cbn [app skip_spaces]. by rewrite Hc.
Qed.

Lemma skip_spaces_word word rest :
  word ≠ [] → Forall (λ c, isspace c = false) word →
  skip_spaces (word ++ rest) = word ++ rest.
Proof.
  intros Hsome Hword. destruct Hword as [|c word Hc _]; [done|].
  cbn [app skip_spaces]. by rewrite Hc.
Qed.

Lemma word_at_app word rest :
  Forall (λ c, isspace c = false) word →
  (∀ c rest', rest = c :: rest' → isspace c = true) →
  word_at (word ++ rest) = word.
Proof.
  intros Hword Hrest. induction Hword as [|c word Hc _ IH]; cbn [app word_at].
  - destruct rest as [|c rest']; [done|]. cbn [word_at]. by rewrite (Hrest c rest').
  - by rewrite Hc, IH.
Qed.

(** One turn: a word, the whitespace before it, and the one character
    after it. *)
Lemma rbxopt_loop_word fuel pre word rest :
  Forall (λ c, isspace c = true) pre →
  word ≠ [] → Forall (λ c, isspace c = false) word →
  (∀ c rest', rest = c :: rest' → isspace c = true) →
  rbxopt_loop (S fuel) (pre ++ word ++ rest)
  = (if is_xflag word then [drop 2 word] else []) ++ rbxopt_loop fuel (drop 1 rest).
Proof.
  intros Hpre Hsome Hword Hrest. cbn [rbxopt_loop].
  assert (Hlength : (0 < length word)%nat) by (destruct word; [done|cbn; lia]).
  replace (0 <? length (pre ++ word ++ rest))%nat with true
    by (symmetry; apply Nat.ltb_lt; rewrite !length_app; lia).
  rewrite skip_spaces_app by done.
  rewrite skip_spaces_word by done.
  rewrite word_at_app by done.
  replace (0 <? length word)%nat with true by (symmetry; by apply Nat.ltb_lt).
  rewrite drop_app_add'; [|lia]. done.
Qed.

Lemma rbxopt_loop_spaces fuel post :
  Forall (λ c, isspace c = true) post → rbxopt_loop fuel post = [].
Proof.
  intros Hpost. destruct fuel as [|fuel]; [done|]. cbn [rbxopt_loop].
  destruct (0 <? length post)%nat; [|done].
  rewrite <- (app_nil_r post), skip_spaces_app by done. cbn [skip_spaces word_at length Nat.ltb Nat.leb].
  by destruct fuel.
Qed.

(** The lines a word gives, and those of words. *)
Lemma imported_cons word words :
  (if is_xflag word then [drop 2 word] else [])
  ++ (drop 2 <$> filter (λ w, is_xflag w = true) words)
  = drop 2 <$> filter (λ w, is_xflag w = true) (word :: words).
Proof.
  rewrite filter_cons. destruct (is_xflag word).
  - by rewrite (decide_True (P := true = true)).
  - by rewrite (decide_False (P := false = true)).
Qed.

Lemma rbxopt_loop_items (items : list (list ascii * list ascii * ascii)) :
  ∀ fuel tail,
  Forall (λ item, Forall (λ c, isspace c = true) item.1.1
                  ∧ item.1.2 ≠ []
                  ∧ Forall (λ c, isspace c = false) item.1.2
                  ∧ isspace item.2 = true) items →
  rbxopt_loop (length items + fuel) (concat ((λ item, item.1.1 ++ item.1.2 ++ [item.2]) <$> items) ++ tail)
  = (drop 2 <$> filter (λ w, is_xflag w = true) ((λ item, item.1.2) <$> items))
    ++ rbxopt_loop fuel tail.
Proof.
  induction items as [|[[pre word] sp] items IH]; intros fuel tail Hitems; [done|].
  apply Forall_cons in Hitems as [(Hpre & Hsome & Hword & Hsp) Hitems].
  cbn [fst snd] in Hpre, Hsome, Hword, Hsp.
  rewrite !fmap_cons. cbn [length Nat.add concat fst snd].
  rewrite <- !app_assoc.
  rewrite rbxopt_loop_word; try done.
  - cbn [app drop]. rewrite drop_0, IH by done. rewrite app_assoc, imported_cons. done.
  - intros c rest' [= <- _]. done.
Qed.

(** X26.  The options of [RBXOPT] are its words that begin with [-X], in
    order and without the [-X]: words are what whitespace separates, however
    much of it there is before, between and after them, and whether or not
    the last word ends the string.  Without [RBXOPT] there are none. *)
Theorem rbxopt_options_are_the_words
    (items : list (list ascii * list ascii * ascii)) (post : list ascii) :
  Forall (λ item, Forall (λ c, isspace c = true) item.1.1
                  ∧ item.1.2 ≠ []
                  ∧ Forall (λ c, isspace c = false) item.1.2
                  ∧ isspace item.2 = true) items →
  Forall (λ c, isspace c = true) post →
  let line := concat ((λ item, item.1.1 ++ item.1.2 ++ [item.2]) <$> items) in
  let words := (λ item, item.1.2) <$> items in
  rbxopt_options (Some (line ++ post))
  = drop 2 <$> filter (λ w, is_xflag w = true) words
  ∧ (∀ word, word ≠ [] → Forall (λ c, isspace c = false) word →
     rbxopt_options (Some (line ++ post ++ word))
     = drop 2 <$> filter (λ w, is_xflag w = true) (words ++ [word]))
  ∧ rbxopt_options None = [].
Proof.
  intros Hitems Hpost line words.
  assert (Hroom : ∀ tail, (length items ≤ length (line ++ tail))%nat).
  { intros tail. rewrite length_app. subst line. clear -Hitems.
    induction Hitems as [|[[pre word] sp] items _ _ IH]; [cbn; lia|].
    rewrite fmap_cons. cbn [concat length fst snd]. rewrite !length_app. cbn [length]. lia. }
  refine (conj _ (conj _ eq_refl)).
  - unfold rbxopt_options.
    replace (S (length (line ++ post)))
      with (length items + (S (length (line ++ post)) - length items))%nat
      by (specialize (Hroom post); lia).
    unfold line. rewrite rbxopt_loop_items by done.
    rewrite rbxopt_loop_spaces by done. by rewrite app_nil_r.
  - intros word Hsome Hword. unfold rbxopt_options.
    replace (S (length (line ++ post ++ word)))
      with (length items + S (length (line ++ post ++ word) - length items))%nat
      by (specialize (Hroom (post ++ word)); lia).
    unfold line. rewrite rbxopt_loop_items by done.
    rewrite <- (app_nil_r word) at 2.
    rewrite rbxopt_loop_word; try done.
    cbn [drop]. rewrite rbxopt_loop_spaces by done.
    rewrite filter_app, fmap_app. f_equal.
    rewrite <- imported_cons. done.
Qed.

(** *** The configuration files *)

Lemma fgets_line_short line : ∀ room rest,
  "010"%char ∉ line → (length line < room)%nat →
  fgets_line room (line ++ "010"%char :: rest) = (line ++ ["010"%char], rest).
Proof.
  induction line as [|c line IH]; intros room rest Hline Hroom.
  - destruct room; [cbn in Hroom; lia|]. cbn. by rewrite decide_True.
  - destruct room; [cbn in Hroom; lia|]. apply not_elem_of_cons in Hline as [Hc Hline].
    cbn [app fgets_line]. rewrite decide_False by done.
    rewrite IH; [done|done|cbn in Hroom; lia].
Qed.

Lemma fgets_line_full line : ∀ room rest,
  "010"%char ∉ line → length line = room →
  fgets_line room (line ++ rest) = (line, rest).
Proof.
  induction line as [|c line IH]; intros room rest Hline Hroom.
  - cbn in Hroom. subst room. by destruct rest.
  - destruct room; [done|]. apply not_elem_of_cons in Hline as [Hc Hline].
    cbn [app fgets_line]. rewrite decide_False by done.
    rewrite IH; [done|done|]. cbn in Hroom. lia.
Qed.

Lemma fgets_line_eof line : ∀ room,
  "010"%char ∉ line → (length line ≤ room)%nat →
  fgets_line room line = (line, []).
Proof.
  induction line as [|c line IH]; intros room Hline Hroom.
  - by destruct room.
  - destruct room; [cbn in Hroom; lia|]. apply not_elem_of_cons in Hline as [Hc Hline].
    cbn [fgets_line]. rewrite decide_False by done.
    rewrite IH; [done|done|cbn in Hroom; lia].
Qed.

Lemma fgets_line_rest room : ∀ stream,
  (length (fgets_line room stream).2 ≤ length stream)%nat.
Proof.
  induction room as [|room IH]; intros [|c stream]; cbn [fgets_line snd length]; try lia.
  destruct (decide (c = "010"%char)); cbn [snd]; [lia|].
  specialize (IH stream). destruct (fgets_line room stream) as [line rest].
  cbn [snd] in *. lia.
Qed.

Lemma fgets_line_shrinks room stream :
  stream ≠ [] → (length (fgets_line (S room) stream).2 < length stream)%nat.
Proof.
  destruct stream as [|c stream]; [done|]. intros _. cbn [fgets_line length].
  destruct (decide (c = "010"%char)); cbn [snd]; [lia|].
  pose proof (fgets_line_rest room stream) as Hrest.
  destruct (fgets_line room stream) as [line rest]. cbn [snd] in *. lia.
Qed.

Lemma fgets_line_zero room rest :
  fgets_line (S room) (zero :: rest)
  = (let '(line, rest) := fgets_line room rest in (zero :: line, rest)).
Proof. done. Qed.

Lemma c_str_plain buf : zero ∉ buf → c_str buf = buf.
Proof.
  induction buf as [|c buf IH]; [done|]. intros [Hc Hbuf]%not_elem_of_cons.
  cbn. rewrite decide_False by done. by rewrite IH.
Qed.

(** With fuel for every character, more fuel changes nothing. *)
Lemma read_config_loop_fuel fuel1 : ∀ fuel2 stream,
  (length stream ≤ fuel1)%nat → (length stream ≤ fuel2)%nat →
  read_config_loop fuel1 stream = read_config_loop fuel2 stream.
Proof.
  induction fuel1 as [|fuel1 IH]; intros fuel2 stream H1 H2.
  - destruct stream; [|cbn in H1; lia]. by destruct fuel2.
  - destruct fuel2 as [|fuel2].
    { destruct stream; [done|cbn in H2; lia]. }
    cbn [read_config_loop].
    destruct stream as [|c stream]; [done|]. cbn [length Nat.ltb Nat.leb].
    pose proof (fgets_line_shrinks 254 (c :: stream)) as Hshrinks.
    change (RBX_CONFIG_FILE_LINE_MAX - 1)%nat with 255%nat.
    destruct (fgets_line 255 (c :: stream)) as [line rest]. cbn [snd length] in Hshrinks.
    destruct (last (c_str line)); [|done].
    rewrite (IH fuel2 rest); [done|..]; cbn in H1, H2; specialize (Hshrinks ltac:(done)); lia.
Qed.

(** One turn of [read_config_file], on a buffer that [fgets] has filled
    with [buf] and a file of which [rest] is left. *)
Lemma read_config_file_turn (file buf rest : list ascii) c :
  file ≠ [] →
  fgets_line 255 file = (buf, rest) → zero ∉ buf → last buf = Some c →
  read_config_file file
  = (λ options,
       (let buf := if decide (c = "010"%char) then removelast buf else buf in
        if is_xflag buf then [drop 2 buf] else []) ++ options)
    <$> read_config_file rest.
Proof.
  intros Hsome Hgets Hplain Hlast. unfold read_config_file.
  pose proof (fgets_line_shrinks 254 file Hsome) as Hshrinks.
  destruct file as [|c0 file]; [done|]. cbn [length read_config_loop Nat.ltb Nat.leb].
  change (RBX_CONFIG_FILE_LINE_MAX - 1)%nat with 255%nat.
  rewrite Hgets in *. cbn [snd length] in Hshrinks.
  rewrite c_str_plain by done. rewrite Hlast.
  rewrite (read_config_loop_fuel (length file) (length rest) rest); [done|lia|lia].
Qed.

Lemma read_config_file_line (line rest : list ascii) :
  "010"%char ∉ line → zero ∉ line → (length line < 255)%nat →
  read_config_file (line ++ "010"%char :: rest)
  = (λ options, (if is_xflag line then [drop 2 line] else []) ++ options)
    <$> read_config_file rest.
Proof.
  intros Hline Hplain Hshort.
  rewrite (read_config_file_turn _ (line ++ ["010"%char]) rest "010"%char).
  - rewrite decide_True by done. by rewrite removelast_last.
  - by destruct line.
  - by apply fgets_line_short.
  - rewrite not_elem_of_app, not_elem_of_cons. split_and!; [done|done|apply not_elem_of_nil].
  - apply last_snoc.
Qed.

Lemma read_config_file_cut (line rest : list ascii) :
  line ≠ [] → "010"%char ∉ line → zero ∉ line →
  length line = 255%nat ∨ ((length line ≤ 255)%nat ∧ rest = []) →
  read_config_file (line ++ rest)
  = (λ options, (if is_xflag line then [drop 2 line] else []) ++ options)
    <$> read_config_file rest.
Proof.
  intros Hsome Hline Hplain Hlength.
  destruct (last line) as [c|] eqn:Hlast; [|by apply last_None in Hlast].
  assert (Hc : c ≠ "010"%char).
  { intros ->. apply Hline. apply last_Some in Hlast as [l' ->].
    apply elem_of_app. right. apply list_elem_of_here. }
  rewrite (read_config_file_turn _ line rest c); try done.
  - by rewrite decide_False.
  - by destruct line.
  - destruct Hlength as [Hfull|[Hshort ->]].
    + by apply fgets_line_full.
    + rewrite app_nil_r. by apply fgets_line_eof.
Qed.

Lemma read_config_file_lines (lines : list (list ascii)) (rest : list ascii) :
  Forall (λ l, ("010"%char ∉ l) ∧ (zero ∉ l) ∧ (length l < 255)%nat) lines →
  read_config_file (concat ((λ l, l ++ ["010"%char]) <$> lines) ++ rest)
  = (λ options, (drop 2 <$> filter (λ l, is_xflag l = true) lines) ++ options)
    <$> read_config_file rest.
Proof.
  induction 1 as [|line lines (Hline & Hplain & Hshort) _ IH].
  - change (read_config_file rest
            = (λ options, [] ++ options) <$> read_config_file rest).
    by destruct (read_config_file rest).
  - rewrite fmap_cons. cbn [concat]. rewrite <- !app_assoc. cbn [app].
    rewrite read_config_file_line by done. rewrite IH.
    destruct (read_config_file rest) as [options|]; [|done]. cbn.
    by rewrite app_assoc, imported_cons.
Qed.

(** X27.  The options of a configuration file are its lines that begin with
    [-X], in order, without the [-X] and without the newline, when the lines
    are shorter than 255 characters and hold no zero character; the last
    line need not end with a newline, and may then have 255 characters. *)
Theorem read_config_file_takes_the_lines (lines : list (list ascii)) :
  Forall (λ l, ("010"%char ∉ l) ∧ (zero ∉ l) ∧ (length l < 255)%nat) lines →
  let file := concat ((λ l, l ++ ["010"%char]) <$> lines) in
  read_config_file file = Some (drop 2 <$> filter (λ l, is_xflag l = true) lines)
  ∧ ∀ line,
      line ≠ [] → "010"%char ∉ line → zero ∉ line → (length line ≤ 255)%nat →
      read_config_file (file ++ line)
      = Some (drop 2 <$> filter (λ l, is_xflag l = true) (lines ++ [line])).
Proof.
  intros Hlines file. split.
  - rewrite <- (app_nil_r file). unfold file. rewrite read_config_file_lines by done.
    cbn. by rewrite app_nil_r.
  - intros line Hsome Hline Hplain Hlength. unfold file.
    rewrite read_config_file_lines by done.
    rewrite <- (app_nil_r line) at 1. rewrite read_config_file_cut; try done; [|by right].
    cbn. rewrite app_nil_r, filter_app, fmap_app. do 2 f_equal.
    rewrite <- (app_nil_r (if is_xflag line then _ else _)).
    by rewrite <- (imported_cons line []).
Qed.

(** X28.  A line of the configuration file that is longer than the buffer
    is cut: its first 255 characters are taken as a line, and what follows
    them as the next line, so that an [-X] at the 256th character begins an
    option of its own.  A zero character at the beginning of a line makes
    the function read the character before the buffer. *)
Theorem read_config_file_cuts_long_lines (line rest : list ascii) :
  "010"%char ∉ line → zero ∉ line → length line = 255%nat →
  read_config_file (line ++ rest)
  = (λ options, (if is_xflag line then [drop 2 line] else []) ++ options)
    <$> read_config_file rest
  ∧ read_config_file (zero :: rest) = None.
Proof.
  intros Hline Hplain Hlength. split.
  - apply read_config_file_cut; try done; [|by left]. by destruct line.
  - unfold read_config_file. cbn [length read_config_loop Nat.ltb Nat.leb].
    change (RBX_CONFIG_FILE_LINE_MAX - 1)%nat with (S 254).
    rewrite fgets_line_zero. by destruct (fgets_line 254 rest).
Qed.

End EnvironmentMoreFacts.

(** ** More of the theorems at work *)

Section HeaderExamples.
Import Machine Header.

(** A header with the object id 77 is not contended for. *)
Lemma contend_for_lock_needs_thin_lock_witness :
  ∃ m',
    run (contend_for_lock 1 4 0 false [])
      (quiet_memory (mkHeaderWord eAuxWordObjID 77 false 0)) = Some (eLockError, m')
    ∧ writes (log m') = []
    ∧ inflated_headers_ m' = [].
Proof.
  destruct (contend_for_lock_needs_thin_lock
              (quiet_memory (mkHeaderWord eAuxWordObjID 77 false 0)) 1 4 0 false [])
    as (m' & Hrun & Hwrites & Htable & _).
  - discriminate.
  - apply Forall_nil_2.
  - lia.
  - exists m'. split; [exact Hrun|]. split; [exact Hwrites | exact Htable].
Defined.

(** Thread 4 contends for the thin lock of thread 3; a third thread inflates
    the header, with the free record 0, once the flag is set. *)
Lemma contend_for_lock_locks_inflated_witness :
  ∃ m',
    run (contend_for_lock 1 4 0 false [])
      (mkMemory (thin_locked 3 5 false) [blank] [id; id; λ _, inflated_at 0] [])
    = Some (eLocked, m')
    ∧ inflated_headers_ m' = [initialize_mutex 4 1 blank]
    ∧ writes (log m') = [(thin_locked 3 5 false, thin_locked 3 5 true)].
Proof.
  destruct (contend_for_lock_locks_inflated
              (mkMemory (thin_locked 3 5 false) [blank] [id; id; λ _, inflated_at 0] [])
              1 4 0 false [] id id (λ _, inflated_at 0) [] blank)
    as (m' & Hrun & Htable & Hwrites & _).
  - lia.
  - reflexivity.
  - reflexivity.
  - reflexivity.
  - reflexivity.
  - apply Forall_nil_2.
  - reflexivity.
  - exists m'. split; [exact Hrun|]. split; [exact Htable | exact Hwrites].
Defined.

(** The id 77 and the handle 88 for a thin-locked object. *)
Lemma inflate_for_id_and_handle_store_witness :
  (∃ m' r,
     run (inflate_for_id 1 2 77) (quiet_memory (thin_locked 3 5 false)) = Some (tt, m')
     ∧ inflated_headers_ m' !! index_of (header m') = Some r
     ∧ object_id_ r = 77)
  ∧ (∃ m' r,
       run (inflate_for_handle 1 2 77) (quiet_memory (thin_locked 3 5 false)) = Some (tt, m')
       ∧ inflated_headers_ m' !! index_of (header m') = Some r
       ∧ handle_ r = 77).
Proof.
  destruct (inflate_for_id_and_handle_store (quiet_memory (thin_locked 3 5 false)) 1 2 77)
    as ((m1 & r1 & Hrun1 & _ & Hr1 & Hid & _) & (m2 & r2 & Hrun2 & _ & Hr2 & Hhandle & _)).
  - apply Forall_nil_2.
  - cbn. lia.
  - discriminate.
  - split.
    + exists m1, r1. split; [exact Hrun1|]. split; [exact Hr1 | exact Hid].
    + exists m2, r2. split; [exact Hrun2|]. split; [exact Hr2 | exact Hhandle].
Defined.

(** Thread 4 locks an object that has the id 77. *)
Lemma inflate_and_lock_by_meaning_witness :
  ∃ m' r,
    run (inflate_and_lock 2 4 2) (quiet_memory (mkHeaderWord eAuxWordObjID 77 false 0))
    = Some (true, m')
    ∧ inflated_headers_ m' !! 0%nat = Some r
    ∧ object_id_ r = 77 ∧ owner_id_ r = 4 ∧ rec_lock_count_ r = 0.
Proof.
  destruct (inflate_and_lock_by_meaning
              (quiet_memory (mkHeaderWord eAuxWordObjID 77 false 0)) 2 4 2)
    as (_ & Hid & _).
  - apply Forall_nil_2.
  - cbn. lia.
  - destruct (Hid eq_refl) as (m' & r & Hrun & _ & _ & Hr & Hobject & Howner & Hcount).
    exists m', r. split; [exact Hrun|]. split; [exact Hr|].
    split; [exact Hobject|]. split; [exact Howner | exact Hcount].
Defined.

(** A contended header with the handle 88 is inflated for contention. *)
Lemma inflate_for_contention_by_meaning_witness :
  ∃ m' r,
    run (inflate_for_contention 1 4 2) (quiet_memory (mkHeaderWord eAuxWordHandle 88 true 0))
    = Some (true, m')
    ∧ LockContended (header m') = false
    ∧ inflated_headers_ m' !! index_of (header m') = Some r
    ∧ handle_ r = 88.
Proof.
  destruct (inflate_for_contention_by_meaning
              (quiet_memory (mkHeaderWord eAuxWordHandle 88 true 0)) 1 4 2)
    as (_ & Hthin).
  - apply Forall_nil_2.
  - cbn. lia.
  - destruct (Hthin eq_refl) as (m' & r & Hrun & _ & Hflag & Hr & _ & _ & _ & Hhandle).
    + discriminate.
    + exists m', r. split; [exact Hrun|]. split; [exact Hflag|].
      split; [exact Hr | exact (Hhandle eq_refl)].
Defined.

End HeaderExamples.

Section HandlesExamples.
Import Handles.

(** A location registered twice: the deletion takes the older entry. *)
Lemma del_global_capi_handle_location_erases_oldest_witness :
  del_global_capi_handle_location [] 16 = inl (bug "Removing handle not in the list")
  ∧ ∃ before g after,
      [mkGlobalHandle 16 "a.c" 1; mkGlobalHandle 24 "b.c" 2; mkGlobalHandle 16 "c.c" 3]
      = before ++ g :: after
      ∧ registrations before 16 = 0%nat
      ∧ del_global_capi_handle_location
          [mkGlobalHandle 16 "a.c" 1; mkGlobalHandle 24 "b.c" 2; mkGlobalHandle 16 "c.c" 3] 16
        = inr (before ++ after).
Proof.
  split.
  - apply (del_global_capi_handle_location_erases_oldest [] 16). reflexivity.
  - destruct (del_global_capi_handle_location_erases_oldest
                [mkGlobalHandle 16 "a.c" 1; mkGlobalHandle 24 "b.c" 2;
                 mkGlobalHandle 16 "c.c" 3] 16)
      as (_ & Hsome).
    destruct Hsome as (before & g & after & Heq & _ & Hbefore & Hdel & _).
    + vm_compute. lia.
    + exists before, g, after. split; [exact Heq|]. split; [exact Hbefore | exact Hdel].
Defined.

(** The location 16, registered with a null handle in it, and deleted. *)
Lemma add_then_del_global_capi_handle_location_witness :
  ∃ added,
    add_global_capi_handle_location [mkGlobalHandle 24 "b.c" 2] 16 "a.c" 1 0 false false
    = inr added
    ∧ del_global_capi_handle_location added 16 = inr [mkGlobalHandle 24 "b.c" 2].
Proof.
  destruct (add_then_del_global_capi_handle_location
              [mkGlobalHandle 24 "b.c" 2] 16 "a.c" 1 0 false false)
    as (added & Hadd & _ & Hdel & _).
  - left. reflexivity.
  - exists added. split; [exact Hadd|]. apply Hdel. reflexivity.
Defined.

End HandlesExamples.

Section SharedStateExamples.
Import SharedState.

(** A mutex is locked or not; a library on the black list gets the first
    lock. *)
Lemma capi_lock_index_in_range_witness :
  (capi_lock_index false "Init_nkf" initial_capi_locks).1 ≠ 0
  ∧ is_Some (enter_capi (λ _, true)
               (capi_lock_index false "Init_nkf" initial_capi_locks).1
               (capi_lock_index false "Init_nkf" initial_capi_locks).2).
Proof.
  destruct (capi_lock_index_in_range false (λ _, true) "Init_nkf" initial_capi_locks)
    as (_ & _ & _ & Henter & Hzero & _).
  - split; [intros name index | intros name1 name2 index]; cbn;
      rewrite lookup_empty; discriminate.
  - vm_compute. reflexivity.
  - assert (Hlocked : (capi_lock_index false "Init_nkf" initial_capi_locks).1 ≠ 0).
    { intros Hnone. apply Hzero in Hnone as (_ & _ & Hblack). apply Hblack.
      vm_compute. reflexivity. }
    split; [exact Hlocked | exact (Henter Hlocked)].
Defined.

(** Three libraries, the second loaded with the locks on. *)
Lemma libraries_keep_their_locks_witness :
  ∃ index,
    capi_lock_map_ (foldl (load_library false) initial_capi_locks
                      [(false, "Init_a"); (true, "Init_b"); (false, "Init_nkf")])
      !! "Init_b" = Some index
    ∧ 1 ≤ index.
Proof.
  destruct (libraries_keep_their_locks false (λ _, true)
              [(false, "Init_a"); (true, "Init_b"); (false, "Init_nkf")])
    as (_ & Hlocked).
  - vm_compute. reflexivity.
  - destruct (Hlocked true "Init_b") as (index & Hindex & Hrange & _).
    + set_solver.
    + left. reflexivity.
    + exists index. split; [exact Hindex | exact Hrange].
Defined.

End SharedStateExamples.

Section ThreadsExamples.
Import Threads.

(** Two VMs are made, the first is removed, and a third is made. *)
Lemma thread_ids_are_not_reused_witness :
  (new_vm "third"
     (foldl apply_op initial [NewVM "main"; NewVM "worker"; RemoveVM (mkVM 0 1 "main")])).1
  = mkVM 2 3 "third".
Proof.
  destruct (thread_ids_are_not_reused
              [NewVM "main"; NewVM "worker"; RemoveVM (mkVM 0 1 "main")])
    as (Hnew & _).
  - vm_compute. reflexivity.
  - exact (Hnew "third").
Defined.

End ThreadsExamples.

Section FacadeExamples.
Import Machine Facade.

(** The first of two calls starts the collection, the second drops the
    request. *)
Lemma collect_mature_is_not_repeated_witness :
  mature_gc_in_progress_ (collect_maybe [] pending_mature) = true
  ∧ events (collect_maybe [] pending_mature)
    = [StopTheWorld true; StartCollection; CollectMatureStart; RestartWorld].
Proof.
  destruct (collect_mature_is_not_repeated pending_mature)
    as (_ & _ & _ & _ & Hprogress & _ & _ & Hevents); try reflexivity.
  split; [exact Hprogress | exact Hevents].
Defined.

End FacadeExamples.

Section MallocExamples.
Import Machine Malloc.

(** 100 bytes are left: 60 and 5 times 10 bytes are more. *)
Lemma malloc_pressure_requests_collection_witness :
  collect_mature_now (calls (mkGlobals 100 100 false 0) [CallMalloc 60; CallCalloc 5 10])
  = true.
Proof.
  destruct (malloc_pressure_requests_collection (mkGlobals 100 100 false 0)
              [CallMalloc 60; CallCalloc 5 10])
    as (Hreached & _).
  - cbn. lia.
  - cbn. lia.
  - repeat constructor; vm_compute; congruence.
  - apply Hreached. vm_compute. congruence.
Defined.

End MallocExamples.

Section ImmixExamples.
Import Machine Immix.

(** Two blocks without live bytes, and a sweep that does nothing to them. *)
Lemma sweep_leaves_dead_heap_alone_witness :
  chunk_added 32768 id [mkBlock 1 0 0]
    (mkImmixGC [[mkBlock 1 0 0; mkBlock 3 0 0]] (fresh_diagnostics 0)) = false.
Proof.
  apply (sweep_leaves_dead_heap_alone 32768 id [mkBlock 1 0 0]
           (mkImmixGC [[mkBlock 1 0 0; mkBlock 3 0 0]] (fresh_diagnostics 0))).
  reflexivity.
Defined.

End ImmixExamples.

Section StringsExamples.
Import StdString StatsD Environment.

(** A decidable fact about given strings, by evaluation. *)
Ltac decided := apply (bool_decide_unpack _); vm_compute; exact I.

(** A server with two colons, and one without. *)
Lemma parse_server_splits_at_first_colon_witness :
  parse_server (chars "stats:81:25") = (chars "stats", chars "81:25")
  ∧ parse_server (chars "9125") = (chars "localhost", chars "9125").
Proof.
  destruct (parse_server_splits_at_first_colon (chars "9125") (chars "stats") (chars "81:25"))
    as (Hsplit & Hdefault).
  split.
  - apply Hsplit. decided.
  - apply Hdefault. decided.
Defined.

(** The metrics of process 4711 on the node [www.example.org]. *)
Lemma make_prefix_expands_witness :
  make_prefix (chars "rbx.$nodename.vm") (Some (chars "www.example.org")) (chars "4711")
  = chars "rbx.org.example.www.vm."
  ∧ make_prefix (chars "rbx.$pid") None (chars "4711") = chars "rbx.4711.".
Proof.
  destruct (make_prefix_expands (chars "rbx.") (chars ".vm") (chars "www.example.org")
              (chars "4711") (Some (chars "www.example.org")))
    as (_ & _ & _ & Hnode).
  { decided. }
  { decided. }
  destruct (make_prefix_expands (chars "rbx.") [] [] (chars "4711") None)
    as (_ & Hpid & _).
  { decided. }
  { decided. }
  split.
  - apply Hnode. decided.
  - exact Hpid.
Defined.

(** The variable is replaced where it comes first. *)
Lemma expand_config_value_first_occurrence_witness :
  expand_config_value (chars "/$USER/$USER") (chars "$USER") (chars "me")
  = chars "/me/$USER".
Proof.
  destruct (expand_config_value_first_occurrence
              (chars "/$USER/$USER") (chars "$USER") (chars "me"))
    as (_ & Hfirst).
  apply (Hfirst (chars "/") (chars "/$USER")); [reflexivity|].
  intros j Hj. assert (j = 0%nat) as -> by (cbn in Hj; lia).
  intros [k Hk]. vm_compute in Hk. discriminate Hk.
Defined.

(** The console path of the user [me]. *)
Lemma set_console_path_expands_witness :
  set_console_path (chars "rbx") (chars "/tmp/") (chars "me")
    (chars "$TMPDIR$PROGRAM_NAME-$USER-console")
  = chars "/tmp/rbx-me-console".
Proof.
  apply (set_console_path_expands (chars "rbx") (chars "/tmp/") (chars "me")
           [] [] (chars "-") (chars "-console")); decided.
Defined.

(** A [TMPDIR] without a slash at its end. *)
Lemma set_tmp_path_ends_with_slash_witness :
  ∃ dir, set_tmp_path (Some (chars "/var/tmp")) (chars "$TMPDIR") = Some dir
         ∧ last dir = Some "/"%char.
Proof.
  destruct (set_tmp_path_ends_with_slash (Some (chars "/var/tmp")) (chars "$TMPDIR"))
    as (_ & Henv).
  destruct (Henv eq_refl) as (dir & Hset & Hlast & _).
  exists dir. split; [exact Hset | exact Hlast].
Defined.

(** [rbx -Xint -v script.rb -Xprofile] *)
Lemma command_line_options_stop_witness :
  command_line_options [chars "-Xint"; chars "-v"; chars "script.rb"; chars "-Xprofile"]
  = command_line_options [chars "-Xint"; chars "-v"].
Proof.
  destruct (command_line_options_stop [chars "-Xint"; chars "-v"] [chars "-Xprofile"]
              (chars "script.rb"))
    as (_ & Hword & _).
  apply Hword. vm_compute. congruence.
Defined.

(** [rbx -Xint -Xprofile script.rb -Xfoo] *)
Lemma command_line_is_split_witness :
  command_line_options [chars "-Xint"; chars "-Xprofile"; chars "script.rb"; chars "-Xfoo"]
  = [chars "int"; chars "profile"]
  ∧ program_arguments true
      [chars "-Xint"; chars "-Xprofile"; chars "script.rb"; chars "-Xfoo"]
    = Some [chars "script.rb"; chars "-Xfoo"].
Proof.
  apply (command_line_is_split [chars "-Xint"; chars "-Xprofile"] [chars "-Xfoo"]
           (chars "script.rb")).
  - repeat constructor.
  - repeat constructor. discriminate.
  - right. split; [vm_compute; congruence|]. eexists. split; [reflexivity|].
    vm_compute. congruence.
Defined.

(** [rbx -v -Xint] and [rbx a-b -Xint] *)
Lemma xflag_after_other_argument_witness :
  (command_line_options [chars "-v"; chars "-Xint"] = [chars "int"]
   ∧ program_arguments true [chars "-v"; chars "-Xint"] = Some [chars "-v"; chars "-Xint"])
  ∧ (command_line_options [chars "a-b"; chars "-Xint"] = []
     ∧ program_arguments true [chars "a-b"; chars "-Xint"] = Some [chars "a-b"]).
Proof.
  split.
  - destruct (xflag_after_other_argument [] [] (chars "-v") (chars "-Xint"))
      as (Hoption & _).
    + constructor.
    + reflexivity.
    + constructor.
    + apply Hoption; [reflexivity | reflexivity |].
      eexists. split; [reflexivity|]. vm_compute. congruence.
  - destruct (xflag_after_other_argument [] [] (chars "a-b") (chars "-Xint"))
      as (_ & Hword).
    + constructor.
    + reflexivity.
    + constructor.
    + apply Hword; [vm_compute; congruence | reflexivity].
Defined.

(** [RBXOPT="-Xint  foo<tab>-Xprofile"] *)
Lemma rbxopt_options_are_the_words_witness :
  rbxopt_options (Some (chars "-Xint" ++ chars " " ++ chars " foo" ++ ["009"%char]
                        ++ chars "-Xprofile"))
  = [chars "int"; chars "profile"].
Proof.
  destruct (rbxopt_options_are_the_words
              [([], chars "-Xint", " "%char); (chars " ", chars "foo", "009"%char)] [])
    as (_ & Hlast & _).
  - repeat constructor; discriminate.
  - constructor.
  - apply (Hlast (chars "-Xprofile")); [discriminate|]. repeat constructor.
Defined.

(** A file of four lines, one of them empty. *)
Lemma read_config_file_takes_the_lines_witness :
  read_config_file
    (chars "-Xint" ++ ["010"%char] ++ chars "# no option" ++ ["010"%char]
     ++ ["010"%char] ++ chars "-Xprofile" ++ ["010"%char])
  = Some [chars "int"; chars "profile"].
Proof.
  destruct (read_config_file_takes_the_lines
              [chars "-Xint"; chars "# no option"; []; chars "-Xprofile"])
    as (Hfile & _).
  - repeat constructor; try decided; cbn; lia.
  - exact Hfile.
Defined.

(** A line of 255 characters and five more. *)
Lemma read_config_file_cuts_long_lines_witness :
  read_config_file (chars "-X" ++ replicate 253 "a"%char ++ chars "-Xint")
  = Some [replicate 253 "a"%char; chars "int"].
Proof.
  destruct (read_config_file_cuts_long_lines
              (chars "-X" ++ replicate 253 "a"%char) (chars "-Xint"))
    as (Hcut & _).
  - decided.
  - decided.
  - reflexivity.
  - rewrite <- app_assoc in Hcut. rewrite Hcut. vm_compute. reflexivity.
Defined.

End StringsExamples.
